(** * Request dispatch in [ipi/engine/forcefields.py]

    A shallow embedding of the request life cycle of the i-PI force
    providers: [ForceRequest], the base [ForceField] (queue, poll,
    release, stop, start), the fan-out/fan-in [FFCavPhFPSocket.queue],
    the retry loop of [FFCavPh.evaluate] and the harmonic [FFDebye];
    and of the class [dipole] of [ipi/interfaces/dipole.py].

    Python objects that are shared and mutated in place (request
    dictionaries, numpy arrays) live in a store and are referred to by
    address, so that [a is b] is equality of addresses.  Python floats
    are IEEE-754 binary64 numbers, here the primitive floats of Rocq. *)

From Stdlib Require Import ZArith Floats Lia.
From stdpp Require Import base option list strings sorting.

Local Open Scope Z_scope.

(** ** numpy values *)

(** A one-dimensional float array is a list of floats; the 3x3 arrays
    (cell, inverse cell, virial) have a fixed shape. *)
Record vec3 := V3 { vx : float; vy : float; vz : float }.
Record mat3 := M3 { row0 : vec3; row1 : vec3; row2 : vec3 }.

Definition vec3_add (a b : vec3) : vec3 :=
  V3 (vx a + vx b)%float (vy a + vy b)%float (vz a + vz b)%float.

Definition mat3_add (a b : mat3) : mat3 :=
  M3 (vec3_add (row0 a) (row0 b)) (vec3_add (row1 a) (row1 b))
     (vec3_add (row2 a) (row2 b)).

(** [np.zeros(n, float)] and [np.zeros((3, 3), float)]. *)
Definition np_zeros (n : nat) : list float := replicate n 0%float.

Definition vec3_zeros : vec3 := V3 0%float 0%float 0%float.
Definition mat3_zeros : mat3 := M3 vec3_zeros vec3_zeros vec3_zeros.

(** ** The store *)

(** Addresses in the store. *)
Abbreviation loc := nat (only parsing).

Inductive status := Queued | Running | Done | Exit.

#[global] Instance status_eq_dec : EqDecision status.
Proof. solve_decision. Defined.

(** [r["result"]]: the list [[u, f, vir, extra]]. *)
Record Result := mkResult {
  res_u : float;
  res_f : list float;
  res_vir : mat3;
  res_extra : string
}.

(** The dictionary built by [ForceRequest({...})].  [req_pos], [req_active]
    and the two cell matrices are references to arrays in the store. *)
Record ForceRequest := mkReq {
  req_id : Z;
  req_pos : loc;
  req_active : option loc;
  req_cell : loc * loc;
  req_pars : string;
  req_result : option Result;
  req_status : status;
  req_start : float;
  req_t_queued : float;
  req_t_dispatched : float;
  req_t_finished : float
}.

Definition set_status (s : status) (r : ForceRequest) : ForceRequest :=
  mkReq (req_id r) (req_pos r) (req_active r) (req_cell r) (req_pars r)
        (req_result r) s (req_start r) (req_t_queued r)
        (req_t_dispatched r) (req_t_finished r).

Definition set_result (x : option Result) (r : ForceRequest) : ForceRequest :=
  mkReq (req_id r) (req_pos r) (req_active r) (req_cell r) (req_pars r)
        x (req_status r) (req_start r) (req_t_queued r)
        (req_t_dispatched r) (req_t_finished r).

Definition set_t_dispatched (t : float) (r : ForceRequest) : ForceRequest :=
  mkReq (req_id r) (req_pos r) (req_active r) (req_cell r) (req_pars r)
        (req_result r) (req_status r) (req_start r) (req_t_queued r)
        t (req_t_finished r).

Definition set_t_finished (t : float) (r : ForceRequest) : ForceRequest :=
  mkReq (req_id r) (req_pos r) (req_active r) (req_cell r) (req_pars r)
        (req_result r) (req_status r) (req_start r) (req_t_queued r)
        (req_t_dispatched r) t.

Inductive obj :=
  | ONdarray (a : list float)
  | OIndex (a : list Z)
  | OMatrix (m : mat3)
  | ORequest (r : ForceRequest).

(** The attributes of a [ForceField] instance.  [ff_pars] holds the
    parameter dictionary with its values already printed by [str];
    [ff_thread] tells whether [_thread] is set. *)
Record ForceField := mkFF {
  ff_pars : option (list (string * string));
  ff_name : string;
  ff_latency : float;
  ff_requests : list loc;
  ff_dopbc : bool;
  ff_active : list Z;
  ff_iactive : option loc;
  ff_threaded : bool;
  ff_thread : bool;
  ff_doloop : bool
}.

Definition ff_set_requests (l : list loc) (f : ForceField) : ForceField :=
  mkFF (ff_pars f) (ff_name f) (ff_latency f) l (ff_dopbc f) (ff_active f)
       (ff_iactive f) (ff_threaded f) (ff_thread f) (ff_doloop f).

Definition ff_set_iactive (a : option loc) (f : ForceField) : ForceField :=
  mkFF (ff_pars f) (ff_name f) (ff_latency f) (ff_requests f) (ff_dopbc f)
       (ff_active f) a (ff_threaded f) (ff_thread f) (ff_doloop f).

Definition ff_set_thread (b : bool) (f : ForceField) : ForceField :=
  mkFF (ff_pars f) (ff_name f) (ff_latency f) (ff_requests f) (ff_dopbc f)
       (ff_active f) (ff_iactive f) (ff_threaded f) b (ff_doloop f).

Definition ff_set_doloop (b : bool) (f : ForceField) : ForceField :=
  mkFF (ff_pars f) (ff_name f) (ff_latency f) (ff_requests f) (ff_dopbc f)
       (ff_active f) (ff_iactive f) (ff_threaded f) (ff_thread f) b.

(** [ForceField.__init__]. *)
Definition ForceField_init (latency : float) (name : string)
    (pars : option (list (string * string))) (dopbc : bool)
    (active : list Z) (threaded : bool) : ForceField :=
  mkFF (Some (default [] pars)) name latency [] dopbc active None threaded
       false false.

(** The state of the program: the store, the force field [self], the
    wall clock and the flag [softexit.triggered].  [time.time()] is an
    oracle: its [n]-th call returns [clock n]. *)
Record world := mkWorld {
  heap : list obj;
  self : ForceField;
  clock : nat -> float;
  ticks : nat;
  softexit_triggered : bool
}.

Definition set_heap (h : list obj) (w : world) : world :=
  mkWorld h (self w) (clock w) (ticks w) (softexit_triggered w).

Definition set_self (f : ForceField) (w : world) : world :=
  mkWorld (heap w) f (clock w) (ticks w) (softexit_triggered w).

Definition set_ticks (n : nat) (w : world) : world :=
  mkWorld (heap w) (self w) (clock w) n (softexit_triggered w).

Definition set_triggered (b : bool) (w : world) : world :=
  mkWorld (heap w) (self w) (clock w) (ticks w) b.

Definition requests (w : world) : list loc := ff_requests (self w).

(** ** Exceptions and the state monad *)

(** The Python exceptions that the modelled code can raise.  [Blocked]
    is not one of them: it marks a busy wait that is still waiting when
    the schedule of the other threads given to the model has run out. *)
Inductive exn :=
  | ValueError | IndexError | NameError | TypeError | ZeroDivisionError
  | OSError | SystemExit | Blocked.

Inductive outcome (A : Type) :=
  | Ret (a : A) (w : world)
  | Raise (e : exn) (w : world).
Arguments Ret {A} a w.
Arguments Raise {A} e w.

Definition M (A : Type) : Type := world -> outcome A.

Definition final {A} (o : outcome A) : world :=
  match o with Ret _ w => w | Raise _ w => w end.

#[global] Instance M_ret : MRet M := fun A a w => Ret a w.

#[global] Instance M_bind : MBind M := fun A B f m w =>
  match m w with
  | Ret a w' => f a w'
  | Raise e w' => Raise e w'
  end.

Definition raise {A} (e : exn) : M A := fun w => Raise e w.
Definition gets {A} (f : world -> A) : M A := fun w => Ret (f w) w.
Definition modify (f : world -> world) : M unit := fun w => Ret tt (f w).

(** A new object gets the next free address. *)
Definition alloc (o : obj) : M loc :=
  fun w => Ret (length (heap w)) (set_heap (heap w ++ [o]) w).

Definition load (l : loc) : M obj :=
  fun w => match heap w !! l with
           | Some o => Ret o w
           | None => Raise TypeError w
           end.

(** Mutation in place of the object at [l]. *)
Definition store (l : loc) (o : obj) : M unit :=
  modify (fun w => set_heap (<[l:=o]> (heap w)) w).

Definition load_ndarray (l : loc) : M (list float) :=
  o ← load l; match o with ONdarray a => mret a | _ => raise TypeError end.

Definition load_matrix (l : loc) : M mat3 :=
  o ← load l; match o with OMatrix m => mret m | _ => raise TypeError end.

Definition load_index (l : loc) : M (list Z) :=
  o ← load l; match o with OIndex a => mret a | _ => raise TypeError end.

Definition load_request (l : loc) : M ForceRequest :=
  o ← load l; match o with ORequest r => mret r | _ => raise TypeError end.

Definition time_time : M float :=
  fun w => Ret (clock w (ticks w)) (set_ticks (S (ticks w)) w).

(** [for x in l: body x]. *)
Fixpoint for_each {A} (body : A -> M unit) (l : list A) : M unit :=
  match l with
  | [] => mret tt
  | x :: l' => body x;; for_each body l'
  end.

(** ** [ForceRequest]: equality is identity *)

(** [ForceRequest.__eq__]: [return self is y]. *)
Definition ForceRequest_eq (self_ y : loc) : bool := Nat.eqb self_ y.

(** [x in l] for a list of requests: some item compares equal to [x]. *)
Definition py_in (x : loc) (l : list loc) : bool :=
  existsb (fun item => ForceRequest_eq item x) l.

(** [l.remove(x)]: drops the first item equal to [x]; [None] stands for
    the [ValueError] of a missing item. *)
Fixpoint py_remove (x : loc) (l : list loc) : option (list loc) :=
  match l with
  | [] => None
  | item :: l' =>
      if ForceRequest_eq item x then Some l'
      else cons item <$> py_remove x l'
  end.

(** [ForceRequest({...})] makes a new dictionary object. *)
Definition new_ForceRequest (d : ForceRequest) : M loc := alloc (ORequest d).

(** ** The caller's objects *)

(** [atoms.q] is the caller's position array. *)
Record Atoms := mkAtoms { atoms_q : loc }.

(** A [Cell] has the matrices [h] and [ih] and the method [array_pbc].
    Modelled from the spec: the class [Cell] is not among the sources;
    [array_pbc(pos)] remaps the coordinates of [pos] into the periodic
    cell, writing them back into the array it is given ([pos[:] = ...]).
    [cell_fold h ih pos] is the folded contents. *)
Record Cell := mkCell {
  cell_h : loc;
  cell_ih : loc;
  cell_fold : mat3 -> mat3 -> list float -> list float
}.

(** [cell.array_pbc(pos)]: an assignment through [pos[:]] keeps the
    shape of [pos], numpy refuses any other. *)
Definition array_pbc (cell : Cell) (pos : loc) : M unit :=
  h ← load_matrix (cell_h cell);
  ih ← load_matrix (cell_ih cell);
  p ← load_ndarray pos;
  let s := cell_fold cell h ih p in
  if Nat.eqb (length s) (length p) then store pos (ONdarray s)
  else raise ValueError.

(** ** [ForceField] *)

(** The parameter string of [queue]. *)
Definition par_str_of (pars : option (list (string * string))) : string :=
  match pars with
  | Some kv =>
      fold_left (fun acc kv => acc +:+ fst kv +:+ " : " +:+ snd kv +:+ " , ")
                kv " "
  | None => " "
  end.

(** [np.arange(n)]. *)
Definition np_arange (n : nat) : list Z := Z.of_nat <$> seq 0 n.

(** [self.active] is a numpy array of [int64] scalars, and arithmetic
    on such scalars wraps around: [int64 z] is the signed 64-bit
    integer that numpy keeps of the result [z]. *)
Definition int64 (z : Z) : Z := (z + 2 ^ 63) mod 2 ^ 64 - 2 ^ 63.

(** [np.array([[3 * n, 3 * n + 1, 3 * n + 2] for n in active]).flatten()]:
    every product and every sum is made on [int64] scalars. *)
Definition expand_active (active : list Z) : list Z :=
  flat_map (fun n => [int64 (3 * n); int64 (int64 (3 * n) + 1);
                      int64 (int64 (3 * n) + 2)]) active.

(** The sanity check of [queue] on the array [activehere], for a
    position array of [npos] coordinates:
    [len(activehere) > len(pbcpos) or activehere[-1] > (len(pbcpos) - 1)].
    The result is the exception it ends in, if any; [activehere[-1]]
    raises [IndexError] on an empty array. *)
Definition sanity_check (activehere : list Z) (npos : nat) : option exn :=
  if Z.of_nat npos <? Z.of_nat (length activehere) then Some ValueError
  else match last activehere with
       | None => Some IndexError
       | Some z => if Z.of_nat npos - 1 <? z then Some ValueError else None
       end.

(** The block under [if self.iactive is None] of [queue], for a
    position array of [npos] coordinates. *)
Definition init_iactive (npos : nat) : M unit :=
  ff ← gets self;
  match ff_iactive ff with
  | Some _ => mret tt
  | None =>
      match ff_active ff with
      | [] => raise IndexError
      | a0 :: _ =>
          let ah :=
            if a0 =? -1 then np_arange npos else expand_active (ff_active ff) in
          activehere ← alloc (OIndex ah);
          match sanity_check ah npos with
          | Some e => raise e
          | None =>
              modify (fun w =>
                set_self (ff_set_iactive (Some activehere) (self w)) w)
          end
      end
  end.

(** The body of [poll] for one request. *)
Definition poll_one (r : loc) : M unit :=
  req ← load_request r;
  match req_status req with
  | Queued =>
      t ← time_time;
      store r (ORequest (set_t_dispatched t req));;
      req ← load_request r;
      pos ← load_ndarray (req_pos req);
      store r (ORequest (set_result
        (Some (mkResult 0%float (np_zeros (length pos)) mat3_zeros "")) req));;
      req ← load_request r;
      store r (ORequest (set_status Done req));;
      t ← time_time;
      req ← load_request r;
      store r (ORequest (set_t_finished t req))
  | _ => mret tt
  end.

(** [ForceField.poll]. *)
Definition poll : M unit :=
  rs ← gets requests;
  for_each poll_one rs.

(** [ForceField.queue] up to the construction of the new request: the
    parameter string, the copy of the positions, the active indices,
    the folding and the dictionary. *)
Definition build_request (atoms : Atoms) (cell : Cell) (reqid : Z) : M loc :=
  ff ← gets self;
  let par_str := par_str_of (ff_pars ff) in
  q ← load_ndarray (atoms_q atoms);
  pbcpos ← alloc (ONdarray q);
  init_iactive (length q);;
  (if ff_dopbc ff then array_pbc cell pbcpos else mret tt);;
  iactive ← gets (fun w => ff_iactive (self w));
  h ← load_matrix (cell_h cell);
  hcopy ← alloc (OMatrix h);
  ih ← load_matrix (cell_ih cell);
  ihcopy ← alloc (OMatrix ih);
  t ← time_time;
  new_ForceRequest
    (mkReq reqid pbcpos iactive (hcopy, ihcopy) par_str None Queued
           (-1)%float t 0%float 0%float).

(** [ForceField.queue]. *)
Definition queue (atoms : Atoms) (cell : Cell) (reqid : Z) : M loc :=
  newreq ← build_request atoms cell reqid;
  modify (fun w => set_self (ff_set_requests (requests w ++ [newreq]) (self w)) w);;
  threaded ← gets (fun w => ff_threaded (self w));
  (if threaded : bool then mret tt else poll);;
  mret newreq.

(** *** Calls that overlap *)

(** [poll], [release] and the [append] of [queue] run under
    [self._threadlock]; [stop] and the part of [queue] before the
    [append] do not take it.  A thread can therefore run between a test
    and the statements under it: [stop] between the test of [poll] on a
    request and the assignments that answer it, and another [queue]
    between the test [self.iactive is None] and the assignment of
    [self.iactive].  The definitions below are [poll] and [queue] cut
    at these two tests. *)

(** The test [r["status"] == "Queued"] of [poll]. *)
Definition poll_test (r : loc) : M bool :=
  req ← load_request r;
  mret (match req_status req with Queued => true | _ => false end).

(** The four assignments under that test. *)
Definition poll_answer (r : loc) : M unit :=
  t ← time_time;
  req ← load_request r;
  store r (ORequest (set_t_dispatched t req));;
  req ← load_request r;
  pos ← load_ndarray (req_pos req);
  store r (ORequest (set_result
    (Some (mkResult 0%float (np_zeros (length pos)) mat3_zeros "")) req));;
  req ← load_request r;
  store r (ORequest (set_status Done req));;
  t ← time_time;
  req ← load_request r;
  store r (ORequest (set_t_finished t req)).

(** The local variables of a call of [queue] that has made the test
    [self.iactive is None]: [par_str], [pbcpos], [len(pbcpos)] and the
    outcome of the test. *)
Record queue_locals := mkLocals {
  ql_par_str : string;
  ql_pbcpos : loc;
  ql_npos : nat;
  ql_is_None : bool
}.

(** [queue] from its start to that test. *)
Definition queue_begin (atoms : Atoms) : M queue_locals :=
  ff ← gets self;
  let par_str := par_str_of (ff_pars ff) in
  q ← load_ndarray (atoms_q atoms);
  pbcpos ← alloc (ONdarray q);
  iactive ← gets (fun w => ff_iactive (self w));
  mret (mkLocals par_str pbcpos (length q)
                 (match iactive with None => true | Some _ => false end)).

(** The block under the test: the index array, the sanity check and
    the assignment of [self.iactive]. *)
Definition build_iactive (npos : nat) : M unit :=
  ff ← gets self;
  match ff_active ff with
  | [] => raise IndexError
  | a0 :: _ =>
      let ah :=
        if a0 =? -1 then np_arange npos else expand_active (ff_active ff) in
      activehere ← alloc (OIndex ah);
      match sanity_check ah npos with
      | Some e => raise e
      | None =>
          modify (fun w =>
            set_self (ff_set_iactive (Some activehere) (self w)) w)
      end
  end.

(** [queue] from the test to its end. *)
Definition queue_end (cell : Cell) (reqid : Z) (x : queue_locals) : M loc :=
  (if ql_is_None x then build_iactive (ql_npos x) else mret tt);;
  ff ← gets self;
  (if ff_dopbc ff then array_pbc cell (ql_pbcpos x) else mret tt);;
  iactive ← gets (fun w => ff_iactive (self w));
  h ← load_matrix (cell_h cell);
  hcopy ← alloc (OMatrix h);
  ih ← load_matrix (cell_ih cell);
  ihcopy ← alloc (OMatrix ih);
  t ← time_time;
  newreq ← new_ForceRequest
    (mkReq reqid (ql_pbcpos x) iactive (hcopy, ihcopy) (ql_par_str x) None
           Queued (-1)%float t 0%float 0%float);
  modify (fun w => set_self (ff_set_requests (requests w ++ [newreq]) (self w)) w);;
  threaded ← gets (fun w => ff_threaded (self w));
  (if threaded : bool then mret tt else poll);;
  mret newreq.

(** [ForceField.release]. *)
Definition release (request : loc) : M unit :=
  rs ← gets requests;
  if py_in request rs then
    match py_remove request rs with
    | Some rs' => modify (fun w => set_self (ff_set_requests rs' (self w)) w)
    | None => raise ValueError
    end
  else mret tt.

(** [ForceField.stop]. *)
Definition stop_one (r : loc) : M unit :=
  req ← load_request r;
  store r (ORequest (set_status Exit req)).

Definition stop : M unit :=
  modify (fun w => set_self (ff_set_doloop false (self w)) w);;
  rs ← gets requests;
  for_each stop_one rs.

(** [ForceField.start]; the polling thread itself is not modelled, only
    that it exists. *)
Definition start : M unit :=
  ff ← gets self;
  if ff_thread ff then raise NameError
  else if ff_threaded ff then
    modify (fun w => set_self (ff_set_thread true (ff_set_doloop true (self w))) w)
  else mret tt.

(** ** numpy slices *)

(** A right-hand side of length [n] is taken as it is and one of length
    1 is broadcast; numpy raises [ValueError] for any other. *)
Definition np_fit (n : nat) (v : list float) : option (list float) :=
  if Nat.eqb (length v) n then Some v
  else match v with
       | [x] => Some (replicate n x)
       | _ => None
       end.

(** [buf[lo:hi] = v]. *)
Definition slice_assign (buf : list float) (lo hi : nat) (v : list float)
    : option (list float) :=
  let lo' := Nat.min lo (length buf) in
  let hi' := Nat.max (Nat.min hi (length buf)) lo' in
  v' ← np_fit (hi' - lo')%nat v;
  Some (take lo' buf ++ v' ++ drop hi' buf).

(** [buf[start:stop:3] += v]. *)
Definition strided_add (buf : list float) (start stop : nat) (v : list float)
    : option (list float) :=
  let stop' := Nat.min stop (length buf) in
  v' ← np_fit ((stop' - start + 2) / 3)%nat v;
  Some (imap (fun i x =>
          if (start <=? i)%nat && (i <? stop')%nat
             && ((i - start) mod 3 =? 0)%nat
          then match v' !! ((i - start) / 3)%nat with
               | Some y => (x + y)%float
               | None => x
               end
          else x) buf).

(** [a[k::3]]. *)
Fixpoint stride3 (k : nat) (a : list float) : list float :=
  match a with
  | [] => []
  | x :: a' =>
      match k with
      | O => x :: stride3 2 a'
      | S k' => stride3 k' a'
      end
  end.

(** [a * b] on one-dimensional arrays. *)
Definition np_mul (a b : list float) : option (list float) :=
  if Nat.eqb (length a) (length b) then Some (zip_with PrimFloat.mul a b)
  else match a, b with
       | [x], _ => Some (PrimFloat.mul x <$> b)
       | _, [y] => Some ((fun x => PrimFloat.mul x y) <$> a)
       | _, _ => None
       end.

Definition lift_option {A} (e : exn) (o : option A) : M A :=
  match o with Some a => mret a | None => raise e end.

Definition lift_sum {A} (o : exn + A) : M A :=
  match o with inr a => mret a | inl e => raise e end.

(** ** [FFCavPhFPSocket] *)

(** [PhotonDriverFabryPerot].  The numerics of the cavity are not
    modelled: the three evaluators are functions of the photon
    coordinates [pos_ph] kept by [split_atom_ph_coord] and of their
    arguments. *)
Record PhotonDriverFabryPerot := mkPh {
  apply_photon : bool;
  n_photon_3 : nat;
  get_ph_energy : list float -> list float -> list float -> float;
  get_ph_forces : list float -> list float -> list float -> list float;
  get_nuc_cav_forces :
    list float -> list float -> list float -> list float
    -> list float * list float
}.

(** [PhotonDriverFabryPerot.split_atom_ph_coord]: [pos[:-n]] and
    [pos[-n:]]; for [n = 0] these are [pos[:0]] and [pos[0:]]. *)
Definition split_atom_ph_coord (ph : PhotonDriverFabryPerot)
    (pos : list float) : list float * list float :=
  if apply_photon ph then
    if Nat.eqb (n_photon_3 ph) 0 then ([], pos)
    else (take (length pos - n_photon_3 ph) pos,
          drop (length pos - n_photon_3 ph) pos)
  else (pos, []).

(** The attributes that [FFCavPhFPSocket] adds to a [ForceField].
    [socket_poll] is [InterfaceSocket.poll], which works on the shared
    list of requests, and [np_sum] is numpy's summation of a float
    array; neither is among the sources. *)
Record FFCavPhFPSocket := mkFP {
  n_independent_bath : nat;
  charge_array : list float;
  ph : PhotonDriverFabryPerot;
  socket_poll : world -> world;
  np_sum : list float -> float;
  getallcount : Z
}.

Definition set_getallcount (n : Z) (me : FFCavPhFPSocket) : FFCavPhFPSocket :=
  mkFP (n_independent_bath me) (charge_array me) (ph me) (socket_poll me)
       (np_sum me) n.

(** [FFCavPhFPSocket.calc_dipole_xyz_mm]. *)
Definition dipole_of_bath (me : FFCavPhFPSocket) (pos : list float)
    (ndim_local idx : nat) : option (float * float * float) :=
  let pos_bath := take ndim_local (drop (ndim_local * idx) pos) in
  px ← np_mul (stride3 0 pos_bath) (charge_array me);
  py ← np_mul (stride3 1 pos_bath) (charge_array me);
  pz ← np_mul (stride3 2 pos_bath) (charge_array me);
  Some (np_sum me px, np_sum me py, np_sum me pz).

Definition calc_dipole_xyz_mm (me : FFCavPhFPSocket) (pos : list float)
    (n_bath : nat) : exn + (list float * list float * list float) :=
  if Nat.eqb n_bath 0 then inl ZeroDivisionError
  else
    let ndim_local := (length pos / n_bath)%nat in
    match mapM (dipole_of_bath me pos ndim_local) (seq 0 n_bath) with
    | Some ds =>
        inr (fmap (fun d => d.1.1) ds, fmap (fun d => d.1.2) ds, fmap snd ds)
    | None => inl ValueError
    end.

(** One turn of the loop of [queue] that builds the requests of the
    baths. *)
Definition new_local_request (me : FFCavPhFPSocket) (cell : Cell)
    (par_str : string) (reqid : Z) (pbcpos_atoms : list float)
    (ndim_local idx : nat) : M loc :=
  ff ← gets self;
  pbcpos_local ←
    alloc (ONdarray (take ndim_local (drop (ndim_local * idx) pbcpos_atoms)));
  ia ← match ff_iactive ff with
       | Some l => load_index l
       | None => raise TypeError
       end;
  iactive_local ← alloc (OIndex (take ndim_local ia));
  (if ff_dopbc ff then array_pbc cell pbcpos_local else mret tt);;
  h ← load_matrix (cell_h cell);
  hcopy ← alloc (OMatrix h);
  ih ← load_matrix (cell_ih cell);
  ihcopy ← alloc (OMatrix ih);
  t ← time_time;
  new_ForceRequest
    (mkReq (reqid * Z.of_nat (n_independent_bath me) + Z.of_nat idx)
           pbcpos_local (Some iactive_local) (hcopy, ihcopy) par_str None
           Queued (-1)%float t 0%float 0%float).

(** [softexit.trigger(...)] followed by [sys.exit()].  Modelled from the
    spec: the shutdown coordinator is not among the sources; a trigger
    sets its flag and the calling path ends without a result. *)
Definition softexit_trigger {A} : M A :=
  modify (set_triggered true);; raise SystemExit.

(** The busy wait on one request.  The other threads act while this one
    sleeps: the [n]-th sleep runs the [n]-th action of [sched]. *)
Fixpoint wait_done (sched : list (world -> world)) (r : loc)
    : M (list (world -> world)) :=
  req ← load_request r;
  match req_status req with
  | Done => mret sched
  | st =>
      trig ← gets softexit_triggered;
      if bool_decide (st = Exit) || trig then softexit_trigger
      else match sched with
           | [] => raise Blocked
           | act :: sched' => modify act;; wait_done sched' r
           end
  end.

(** The loop of [queue] that waits for the requests of the baths and
    releases each of them. *)
Fixpoint gather (sched : list (world -> world)) (newreq_lst : list loc)
    : M (list (world -> world)) :=
  match newreq_lst with
  | [] => mret sched
  | r :: rest =>
      sched' ← wait_done sched r;
      release r;;
      gather sched' rest
  end.

(** One turn of the loop that combines the results: [idx] is the index
    given by [enumerate]. *)
Definition merge_one (ndim_local : nat) (result_tot : Result) (idx : nat)
    (newreq : loc) : M Result :=
  req ← load_request newreq;
  match req_result req with
  | None => raise TypeError
  | Some res =>
      f ← lift_option ValueError
            (slice_assign (res_f result_tot) (ndim_local * idx)
                          (ndim_local * (idx + 1)) (res_f res));
      mret (mkResult (res_u result_tot + res_u res)%float f
                     (mat3_add (res_vir result_tot) (res_vir res))
                     (res_extra result_tot +:+ res_extra res))
  end.

Fixpoint merge_from (ndim_local : nat) (result_tot : Result) (idx : nat)
    (newreq_lst : list loc) : M Result :=
  match newreq_lst with
  | [] => mret result_tot
  | r :: rest =>
      result_tot' ← merge_one ndim_local result_tot idx r;
      merge_from ndim_local result_tot' (S idx) rest
  end.

(** Step 3 of [queue]: [result_tot] starts from zeros of the length of
    [pbcpos]. *)
Definition merge_results (npos ndim_local : nat) (newreq_lst : list loc)
    : M Result :=
  merge_from ndim_local (mkResult 0%float (np_zeros npos) mat3_zeros "") 0
             newreq_lst.

(** Steps 4 to 8 of [queue]: the cavity terms added to [result_tot]. *)
Definition add_photon (me : FFCavPhFPSocket) (pbcpos_atoms pbcpos_phs : list float)
    (result_tot : Result) : exn + Result :=
  if apply_photon (ph me) then
    let ndim_tot := length pbcpos_atoms in
    match calc_dipole_xyz_mm me pbcpos_atoms (n_independent_bath me) with
    | inl e => inl e
    | inr (dx_array, dy_array, dz_array) =>
        let e_ph := get_ph_energy (ph me) pbcpos_phs dx_array dy_array in
        let f_ph := get_ph_forces (ph me) pbcpos_phs dx_array dy_array in
        let '(fx_cav, fy_cav) :=
          get_nuc_cav_forces (ph me) pbcpos_phs dx_array dy_array
                             (charge_array me) in
        match
          f1 ← strided_add (res_f result_tot) 0 ndim_tot fx_cav;
          f2 ← strided_add f1 1 ndim_tot fy_cav;
          slice_assign f2 ndim_tot (length f2) f_ph
        with
        | Some f3 =>
            inr (mkResult (res_u result_tot + e_ph)%float f3
                          (res_vir result_tot) (res_extra result_tot))
        | None => inl ValueError
        end
    end
  else inr result_tot.

(** The request that [queue] returns, built from the combined result
    and from the first and the last request of the baths. *)
Definition aggregate_request (cell : Cell) (par_str : string) (reqid : Z)
    (pbcpos : loc) (result_tot : Result) (newreq_lst : list loc) : M loc :=
  iactive ← gets (fun w => ff_iactive (self w));
  h ← load_matrix (cell_h cell);
  hcopy ← alloc (OMatrix h);
  ih ← load_matrix (cell_ih cell);
  ihcopy ← alloc (OMatrix ih);
  last_ ← match last newreq_lst with
          | Some l => load_request l
          | None => raise IndexError
          end;
  first ← match head newreq_lst with
          | Some l => load_request l
          | None => raise IndexError
          end;
  new_ForceRequest
    (mkReq reqid pbcpos iactive (hcopy, ihcopy) par_str (Some result_tot)
           (req_status last_) (req_start first) (req_t_queued first)
           (req_t_dispatched first) (req_t_finished last_)).

(** Steps 3 to 8 and the final request: what [queue] does once every
    request of the baths is done and released. *)
Definition combine (me : FFCavPhFPSocket) (cell : Cell) (par_str : string)
    (reqid : Z) (pbcpos : loc) (q_atoms q_phs : list float)
    (npos ndim_local : nat) (newreq_lst : list loc) : M loc :=
  merged ← merge_results npos ndim_local newreq_lst;
  result_tot ← lift_sum (add_photon me q_atoms q_phs merged);
  aggregate_request cell par_str reqid pbcpos result_tot newreq_lst.

(** [FFCavPhFPSocket.queue].  It returns the aggregate request; the
    model also returns the new value of [_getallcount]. *)
Definition FP_queue (me : FFCavPhFPSocket) (sched : list (world -> world))
    (atoms : Atoms) (cell : Cell) (reqid : Z) : M (loc * FFCavPhFPSocket) :=
  ff ← gets self;
  let par_str := par_str_of (ff_pars ff) in
  q ← load_ndarray (atoms_q atoms);
  pbcpos ← alloc (ONdarray q);
  init_iactive (length q);;
  let '(pbcpos_atoms, pbcpos_phs) := split_atom_ph_coord (ph me) q in
  let ndim_tot := length pbcpos_atoms in
  if Nat.eqb (n_independent_bath me) 0 then raise ZeroDivisionError
  else
    let ndim_local := (ndim_tot / n_independent_bath me)%nat in
    newreq_lst ←
      mapM (new_local_request me cell par_str reqid pbcpos_atoms ndim_local)
           (seq 0 (n_independent_bath me));
    modify (fun w =>
      set_self (ff_set_requests (requests w ++ newreq_lst) (self w)) w);;
    let me' :=
      set_getallcount (getallcount me + Z.of_nat (length newreq_lst)) me in
    (if ff_threaded ff then mret tt else modify (socket_poll me));;
    gather sched newreq_lst;;
    newreq ← combine me cell par_str reqid pbcpos pbcpos_atoms pbcpos_phs
                     (length q) ndim_local newreq_lst;
    mret (newreq, me').

(** ** [FFCavPh] *)

(** [self.name] as far as [__init__] accepts it: ["psi4"],
    ["run_qe_driver.sh"], a name containing ["run_qc_driver"], and
    ["qchem-neo"]. *)
Inductive backend := Psi4 | RunQeDriver | RunQcDriver | QchemNeo.

(** What a force evaluation yields for one bath: energy, force, dipole
    and dipole derivatives.  The arithmetic that turns file contents
    into these numbers is not modelled. *)
Record driver_output := mkOut {
  out_E : float;
  out_force : list float;
  out_mu : vec3;
  out_dipder : list float
}.

(** What the external program has left in its files for one bath when
    they are read: nothing readable ([np.loadtxt] raises), arrays of the
    wrong sizes, or good arrays.  Arrays of the wrong sizes come with
    the exception that they raise where the code uses them without a
    look at their sizes, if they raise one there: the [IndexError] of
    [mue_info[2]] on a dipole file of fewer than three numbers, for
    instance. *)
Inductive driver_files :=
  | FilesMissing
  | FilesMalformed (x : driver_output) (raises : option exn)
  | FilesGood (x : driver_output).

(** The attributes of [FFCavPh] used by [evaluate].  The external
    programs are an oracle: [cp_driver n idx] is what the [n]-th run
    leaves for bath [idx]; [cp_runs] counts the runs, that is the calls
    of [calc_bare_nuclear_force] that start a program.  [cp_photon_terms]
    stands for the cavity terms of [evaluate] (class [photons], which is
    not among the sources). *)
Record FFCavPh := mkCavPh {
  cp_name : backend;
  cp_n_independent_bath : nat;
  cp_apply_photon : bool;
  cp_error_flag : bool;
  cp_iter : Z;
  cp_runs : nat;
  cp_driver : nat -> nat -> driver_files;
  cp_photon_terms : list float -> driver_output -> float * list float
}.

Definition set_error_flag (b : bool) (me : FFCavPh) : FFCavPh :=
  mkCavPh (cp_name me) (cp_n_independent_bath me) (cp_apply_photon me) b
          (cp_iter me) (cp_runs me) (cp_driver me) (cp_photon_terms me).

Definition set_iter (n : Z) (me : FFCavPh) : FFCavPh :=
  mkCavPh (cp_name me) (cp_n_independent_bath me) (cp_apply_photon me)
          (cp_error_flag me) n (cp_runs me) (cp_driver me)
          (cp_photon_terms me).

Definition set_runs (n : nat) (me : FFCavPh) : FFCavPh :=
  mkCavPh (cp_name me) (cp_n_independent_bath me) (cp_apply_photon me)
          (cp_error_flag me) (cp_iter me) n (cp_driver me)
          (cp_photon_terms me).

Inductive calc_result :=
  | CalcValue (x : driver_output)
  | CalcRaises (e : exn).

(** [return 0, 0] and [return 0, 0, 0, 0, 0, 0]. *)
Definition out_zero : driver_output := mkOut 0%float [] vec3_zeros [].

Definition out_add (tot x : driver_output) : driver_output :=
  mkOut (out_E tot + out_E x)%float (out_force tot ++ out_force x)
        (vec3_add (out_mu tot) (out_mu x)) (out_dipder tot ++ out_dipder x).

(** The loop over the baths of the ["run_qc_driver"] branch: a failed
    read sets the flag and returns, a good one clears it.  After the
    loop [calc_bare_nuclear_force_dipder] clears the flag once more,
    where [calc_bare_nuclear_force] has the comparison
    [self.error_flag == False], which does nothing. *)
Fixpoint qc_read_baths (dipder : bool) (files : nat -> driver_files)
    (baths : list nat) (tot : driver_output) (me : FFCavPh)
    : FFCavPh * calc_result :=
  match baths with
  | [] => (if dipder then set_error_flag false me else me, CalcValue tot)
  | idx :: rest =>
      match files idx with
      | FilesMissing => (set_error_flag true me, CalcValue out_zero)
      | FilesMalformed _ _ => (set_error_flag true me, CalcValue out_zero)
      | FilesGood x =>
          qc_read_baths dipder files rest (out_add tot x)
                        (set_error_flag false me)
      end
  end.

(** The branches without an error flag ([psi4], [run_qe_driver.sh]):
    a failure there is an exception that nothing catches, and nothing
    looks at the sizes of the arrays. *)
Fixpoint plain_read_baths (files : nat -> driver_files) (baths : list nat)
    (tot : driver_output) : calc_result :=
  match baths with
  | [] => CalcValue tot
  | idx :: rest =>
      match files idx with
      | FilesMissing => CalcRaises OSError
      | FilesMalformed _ (Some e) => CalcRaises e
      | FilesMalformed x None | FilesGood x =>
          plain_read_baths files rest (out_add tot x)
      end
  end.

(** [calc_bare_nuclear_force] ([dipder = false]) and
    [calc_bare_nuclear_force_dipder] ([dipder = true]).  A combination
    of name and bath count that no branch takes starts no program and
    makes the function return [None], which the caller cannot unpack.
    On the ["qchem-neo"] branch the [try] covers the four [np.loadtxt]
    only: the two [print] of the dipoles after it index
    [mue_info[0..2]] and [mun_info[0..2]] and may raise. *)
Definition calc_bare_nuclear_force (dipder : bool) (me : FFCavPh)
    : FFCavPh * calc_result :=
  let files := cp_driver me (cp_runs me) in
  let n := cp_n_independent_bath me in
  let ran := set_runs (S (cp_runs me)) me in
  match cp_name me with
  | Psi4 =>
      if Nat.eqb n 0 then (me, CalcRaises TypeError)
      else (ran, plain_read_baths files (seq 0 n) out_zero)
  | RunQeDriver =>
      if Nat.eqb n 1 then (ran, plain_read_baths files [0%nat] out_zero)
      else (me, CalcRaises TypeError)
  | RunQcDriver =>
      if Nat.eqb n 0 then (me, CalcRaises TypeError)
      else qc_read_baths dipder files (seq 0 n) out_zero ran
  | QchemNeo =>
      if dipder || negb (Nat.eqb n 1) then (me, CalcRaises TypeError)
      else match files 0%nat with
           | FilesMissing => (set_error_flag true ran, CalcValue out_zero)
           | FilesMalformed _ (Some e) => (ran, CalcRaises e)
           | FilesMalformed x None | FilesGood x => (ran, CalcValue x)
           end
  end.

Inductive retry_result :=
  | Got (x : driver_output)
  | Escalated
  | Raised (e : exn)
  | OutOfFuel.

(** The loop [while self.error_flag == True] of [evaluate], entered with
    [count_retry] retries made and [cur] the values of the latest
    evaluation.  [Escalated] stands for the call of [softexit.trigger].
    The recursion is on [fuel]; [evaluate] gives it 50, which is never
    used up (lemma [retry_fuel_enough]). *)
Fixpoint retry (dipder : bool) (fuel : nat) (count_retry : Z) (me : FFCavPh)
    (cur : driver_output) : FFCavPh * retry_result :=
  if cp_error_flag me then
    match fuel with
    | O => (me, OutOfFuel)
    | S fuel' =>
        let '(me', res) := calc_bare_nuclear_force dipder me in
        match res with
        | CalcRaises e => (me', Raised e)
        | CalcValue x =>
            let count_retry := count_retry + 1 in
            if 50 <=? count_retry then (me', Escalated)
            else retry dipder fuel' count_retry me' x
        end
    end
  else (me, Got cur).

(** The force evaluation of [evaluate] with its retries: lines 2.2 of
    the branch with photons and 2 of the branch without. *)
Definition evaluate_forces (me : FFCavPh) : FFCavPh * retry_result :=
  let dipder := cp_apply_photon me in
  let '(me1, res) := calc_bare_nuclear_force dipder me in
  match res with
  | CalcRaises e => (me1, Raised e)
  | CalcValue x => retry dipder 50 0 me1 x
  end.

(** [FFCavPh.evaluate]. *)
Definition evaluate (me : FFCavPh) (r : loc) : M FFCavPh :=
  req ← load_request r;
  q ← load_ndarray (req_pos req);
  _ ← load_matrix (req_cell req).1;
  let '(me', rr) := evaluate_forces me in
  match rr with
  | Escalated => softexit_trigger
  | Raised e => raise e
  | OutOfFuel => raise Blocked
  | Got x =>
      let '(e, mf) :=
        if cp_apply_photon me then cp_photon_terms me q x
        else (out_E x, out_force x) in
      req ← load_request r;
      store r (ORequest (set_result (Some (mkResult e mf mat3_zeros "")) req));;
      req ← load_request r;
      store r (ORequest (set_status Done req));;
      t ← time_time;
      req ← load_request r;
      store r (ORequest (set_t_finished t req));;
      mret (set_iter (cp_iter me' + 1) me')
  end.

(** The body of [FFCavPh.poll] for one request, and [FFCavPh.poll]. *)
Definition CavPh_poll_one (me : FFCavPh) (r : loc) : M FFCavPh :=
  req ← load_request r;
  match req_status req with
  | Queued =>
      store r (ORequest (set_status Running req));;
      evaluate me r
  | _ => mret me
  end.

Fixpoint CavPh_poll_from (me : FFCavPh) (rs : list loc) : M FFCavPh :=
  match rs with
  | [] => mret me
  | r :: rest => me' ← CavPh_poll_one me r; CavPh_poll_from me' rest
  end.

Definition CavPh_poll (me : FFCavPh) : M FFCavPh :=
  rs ← gets requests;
  CavPh_poll_from me rs.

(** ** The operations of the dispatch core as a transition system *)

(** What a caller can do with a [ForceField].  An exception leaves the
    object as it was when the exception was raised, and the caller goes
    on from there. *)
Inductive op :=
  | OpQueue (atoms : Atoms) (cell : Cell) (reqid : Z)
  | OpPoll
  | OpRelease (request : loc)
  | OpStop
  | OpStart.

Definition step (o : op) (w : world) : world :=
  match o with
  | OpQueue atoms cell reqid => final (queue atoms cell reqid w)
  | OpPoll => final (poll w)
  | OpRelease r => final (release r w)
  | OpStop => final (stop w)
  | OpStart => final (start w)
  end.

Definition run (ops : list op) (w : world) : world :=
  fold_left (fun w o => step o w) ops w.

(** A world in which a [ForceField] has just been built: there is no
    request yet and the active indices are not computed. *)
Definition initial (w : world) : Prop :=
  requests w = [] /\ ff_iactive (self w) = None.

Definition reachable (w : world) : Prop :=
  exists w0 ops, initial w0 /\ w = run ops w0.

(** [queue] called on each configuration in turn; the requests it
    returned, in order. *)
Fixpoint queue_all (cfgs : list (Atoms * Cell * Z)) : M (list loc) :=
  match cfgs with
  | [] => mret []
  | (atoms, cell, reqid) :: rest =>
      r ← queue atoms cell reqid;
      rs ← queue_all rest;
      mret (r :: rs)
  end.

(** * Notions used in the statements *)

Local Open Scope nat_scope.

(** Two ways a request may change while it stays at its address: the
    operations other than [stop] keep every request that is not
    [Queued]; every operation keeps a request that is [Exit]. *)
Definition kept_unless_queued (r r' : ForceRequest) : Prop :=
  req_pos r' = req_pos r /\ req_active r' = req_active r
  /\ req_cell r' = req_cell r
  /\ (req_status r <> Queued -> r' = r).

Definition kept_if_exit (r r' : ForceRequest) : Prop :=
  req_pos r' = req_pos r /\ req_active r' = req_active r
  /\ req_cell r' = req_cell r
  /\ (req_status r = Exit -> r' = r).

Definition obj_evolves (Q : ForceRequest -> ForceRequest -> Prop)
    (o o' : obj) : Prop :=
  match o with
  | ORequest r => exists r', o' = ORequest r' /\ Q r r'
  | _ => o' = o
  end.

Definition heap_evolves (Q : ForceRequest -> ForceRequest -> Prop)
    (h h' : list obj) : Prop :=
  forall l o, h !! l = Some o -> exists o', h' !! l = Some o' /\ obj_evolves Q o o'.

Definition config_kept (f f' : ForceField) : Prop :=
  ff_pars f' = ff_pars f /\ ff_dopbc f' = ff_dopbc f
  /\ ff_active f' = ff_active f /\ ff_threaded f' = ff_threaded f
  /\ (forall l, ff_iactive f = Some l -> ff_iactive f' = Some l).

Definition evolves (Q : ForceRequest -> ForceRequest -> Prop)
    (w w' : world) : Prop :=
  heap_evolves Q (heap w) (heap w') /\ config_kept (self w) (self w')
  /\ clock w' = clock w.

(** A step that at most rewrites the request at [r]. *)
Definition updates_at (Q : ForceRequest -> ForceRequest -> Prop) (r : loc)
    (w w' : world) : Prop :=
  self w' = self w /\ clock w' = clock w
  /\ (heap w' = heap w
      \/ exists req req', heap w !! r = Some (ORequest req)
           /\ heap w' = <[r:=ORequest req']> (heap w) /\ Q req req').

(** What [poll] leaves in a request that was [Queued]. *)
Definition polled (t1 t2 : float) (n : nat) (req : ForceRequest) : ForceRequest :=
  set_t_finished t2
    (set_status Done
       (set_result (Some (mkResult 0%float (np_zeros n) mat3_zeros ""))
          (set_t_dispatched t1 req))).

Definition is_request (h : list obj) (r : loc) : Prop :=
  exists req, h !! r = Some (ORequest req).

(** The array [activehere] that the first call of [queue] computes. *)
Definition activehere_of (active : list Z) (npos : nat) : list Z :=
  match active with
  | [] => []
  | a0 :: _ => if (a0 =? -1)%Z then np_arange npos else expand_active active
  end.

Definition no_request (extra : list obj) : Prop :=
  forall l r, extra !! l <> Some (ORequest r).

(** What [build_request] does to the world, whatever its outcome: it
    only adds objects to the store.  When it returns, these are the copy
    of the positions (folded if [dopbc]), the index array if this is the
    first call, the copies of the two cell matrices, and the request. *)
Record built (w : world) (atoms : Atoms) (cell : Cell) (reqid : Z)
    (o : outcome loc) : Prop := {
  built_requests : requests (final o) = requests w;
  built_config : config_kept (self w) (self (final o));
  built_clock : clock (final o) = clock w;
  built_heap :
    match o with
    | Ret r w' =>
        exists q s idx h ih,
          heap w !! atoms_q atoms = Some (ONdarray q)
          /\ heap w' !! cell_h cell = Some (OMatrix h)
          /\ heap w' !! cell_ih cell = Some (OMatrix ih)
          /\ s = (if ff_dopbc (self w) then cell_fold cell h ih q else q)
          /\ length s = length q
          /\ no_request idx
          /\ heap w' = heap w ++ [ONdarray s] ++ idx
               ++ [OMatrix h; OMatrix ih;
                   ORequest
                     (mkReq reqid (length (heap w)) (ff_iactive (self w'))
                        (length (heap w) + length idx + 1,
                         length (heap w) + length idx + 2)
                        (par_str_of (ff_pars (self w))) None Queued
                        (-1)%float (clock w (ticks w)) 0%float 0%float)]
          /\ r = length (heap w) + length idx + 3
          /\ is_Some (ff_iactive (self w'))
          /\ (ff_iactive (self w) = None ->
              ff_iactive (self w') = Some (S (length (heap w)))
              /\ idx = [OIndex (activehere_of (ff_active (self w)) (length q))]
              /\ sanity_check (activehere_of (ff_active (self w)) (length q))
                   (length q) = None)
          /\ (is_Some (ff_iactive (self w)) -> idx = [])
    | Raise e w' =>
        exists extra, no_request extra /\ heap w' = heap w ++ extra
    end
}.

Definition append_request (r : loc) (w : world) : world :=
  set_self (ff_set_requests (requests w ++ [r]) (self w)) w.

(** The invariant of the queue: no request is listed twice and every
    entry is the address of a request. *)
Definition wf (w : world) : Prop :=
  NoDup (requests w) /\ forall r, r ∈ requests w -> is_request (heap w) r.

(** ** Worlds of the examples *)

(** A clock that ticks once per reading. *)
Definition example_clock (n : nat) : float :=
  PrimFloat.of_uint63 (Uint63.of_Z (Z.of_nat n)).

(** Two atoms, and a cell whose folding shifts every coordinate by 4. *)
Definition example_positions : list float :=
  [1%float; 2%float; 3%float; 4%float; 5%float; 6%float].

Definition example_cell : Cell :=
  mkCell 1 2 (fun _ _ p => (fun x => (x - 4)%float) <$> p).

Definition example_atoms : Atoms := mkAtoms 0.

(** The caller's arrays are at the addresses 0, 1 and 2; the force
    field has just been built. *)
Definition example_world (active : list Z) (threaded : bool) : world :=
  mkWorld [ONdarray example_positions; OMatrix mat3_zeros; OMatrix mat3_zeros]
          (ForceField_init 1%float "ff" None true active threaded)
          example_clock 0 false.

(** The same after one call of [queue]: the request is at address 7. *)
Definition example_queued (threaded : bool) : world :=
  step (OpQueue example_atoms example_cell 0) (example_world [(-1)%Z] threaded).

(** What C4 says of one configuration and the request returned for it. *)
Definition done_with_zeros (w' : world) (cfg : Atoms * Cell * Z) (r : loc)
    : Prop :=
  exists q req,
    heap w' !! atoms_q cfg.1.1 = Some (ONdarray q)
    /\ heap w' !! r = Some (ORequest req)
    /\ req_status req = Done
    /\ req_result req
       = Some (mkResult 0%float (np_zeros (length q)) mat3_zeros "").

Definition example_cfgs : list (Atoms * Cell * Z) :=
  [(example_atoms, example_cell, 0%Z); (example_atoms, example_cell, 1%Z)].

(** When the sanity check of [queue] fails with the sizing error, for
    a list of active atoms that does not start with -1: the expanded
    list is longer than the positions, or its last index is beyond
    them. *)
Definition sizing_error (active : list Z) (npos : nat) : Prop :=
  npos < 3 * length active
  \/ exists n, last active = Some n
       /\ (Z.of_nat npos - 1 < int64 (int64 (3 * n) + 2))%Z.

(** ** An external program that fails once *)

Definition example_output : driver_output :=
  mkOut 1%float [0.5%float; 0%float; 0%float] vec3_zeros [].

(** The files of the first [k] runs cannot be read; every later run
    leaves good files. *)
Definition good_from (k run bath : nat) : driver_files :=
  if Nat.ltb run k then FilesMissing else FilesGood example_output.

Definition example_cavph (name : backend) (k : nat) : FFCavPh :=
  mkCavPh name 1 false false 0 0 (good_from k)
          (fun _ x => (out_E x, out_force x)).

(** The files of a run raise nothing where the code uses them without
    a look at their sizes. *)
Definition raises_nothing (f : driver_files) : Prop :=
  forall x e, f <> FilesMalformed x (Some e).

(** A ["qchem-neo"] program whose first run leaves nothing readable,
    whose second run leaves good files, and whose third run leaves a
    dipole file of two numbers. *)
Definition example_short_dipole : FFCavPh :=
  mkCavPh QchemNeo 1 false false 0 0
          (fun run _ =>
             match run with
             | 0 => FilesMissing
             | 2 => FilesMalformed example_output (Some IndexError)
             | _ => FilesGood example_output
             end)
          (fun _ x => (out_E x, out_force x)).

(** ** The fan-in of [FFCavPhFPSocket.queue] *)

(** The requests at the addresses [cs] hold the results [ress]. *)
Definition results_of (h : list obj) (cs : list loc) (ress : list Result)
    : Prop :=
  Forall2 (fun c res => exists req,
             h !! c = Some (ORequest req) /\ req_result req = Some res)
          cs ress.

(** What repeated [+=] from [0.0] and from [np.zeros((3, 3))] gives. *)
Definition energy_sum (us : list float) : float :=
  fold_left PrimFloat.add us 0%float.

Definition virial_sum (virs : list mat3) : mat3 :=
  fold_left mat3_add virs mat3_zeros.

(** [buf[n * i : n * (i + 1)]] for a slice within [buf]. *)
Definition block (n i : nat) (buf : list float) : list float :=
  take n (drop (n * i) buf).

(** [cs] are the requests that the loop over the baths of
    [FFCavPhFPSocket.queue] has built, in the order of the baths. *)
Definition bath_requests (me : FFCavPhFPSocket) (cell : Cell)
    (par_str : string) (reqid : Z) (q_atoms : list float) (cs : list loc)
    : Prop :=
  exists w1 w2,
    mapM (new_local_request me cell par_str reqid q_atoms
            (length q_atoms / n_independent_bath me))
         (seq 0 (n_independent_bath me)) w1
    = Ret cs w2.

(** The result [res] is the combined energy [u] and force buffer [f]
    with the terms of the cavity: the photonic energy is added to the
    energy; the cavity forces [fx] and [fy], one item for each atom,
    are added to the x and to the y components of the atomic part of
    the buffer, whose z components stay; the photonic forces replace
    the rest of the buffer. *)
Definition cavity_terms (me : FFCavPhFPSocket) (q_atoms q_phs : list float)
    (u : float) (f : list float) (res : Result) : Prop :=
  exists dx dy dz fx fy fx' fy' f_ph,
    calc_dipole_xyz_mm me q_atoms (n_independent_bath me) = inr (dx, dy, dz)
    /\ get_nuc_cav_forces (ph me) q_phs dx dy (charge_array me) = (fx, fy)
    /\ np_fit ((length q_atoms + 2) / 3) fx = Some fx'
    /\ np_fit ((length q_atoms - 1 + 2) / 3) fy = Some fy'
    /\ np_fit (length f - length q_atoms) (get_ph_forces (ph me) q_phs dx dy)
       = Some f_ph
    /\ res_u res = (u + get_ph_energy (ph me) q_phs dx dy)%float
    /\ drop (length q_atoms) (res_f res) = f_ph
    /\ forall k, k < length q_atoms ->
         (k mod 3 = 0 ->
          exists x y, f !! k = Some x /\ fx' !! (k / 3) = Some y
                      /\ res_f res !! k = Some (x + y)%float)
         /\ (k mod 3 = 1 ->
             exists x y, f !! k = Some x /\ fy' !! (k / 3) = Some y
                         /\ res_f res !! k = Some (x + y)%float)
         /\ (k mod 3 = 2 -> res_f res !! k = f !! k).

(** ** A cavity with two baths *)

(** Two baths of one atom each, followed by three photonic
    coordinates. *)
Definition example_fp_positions : list float :=
  [1%float; 2%float; 3%float; 4%float; 5%float; 6%float;
   7%float; 8%float; 9%float].

(** A driver at the other end of the socket: it answers a queued
    request with the energy 1, the positions as forces and a unit
    virial, and the request of identifier [n] is finished at the time
    [10 - n], so that the first bath is the last to finish. *)
Definition example_serve (w : world) (r : loc) : world :=
  match heap w !! r with
  | Some (ORequest req) =>
      match req_status req, heap w !! req_pos req with
      | Queued, Some (ONdarray pos) =>
          let unit_vir :=
            M3 (V3 1 0 0)%float (V3 0 1 0)%float (V3 0 0 1)%float in
          let t := PrimFloat.of_uint63 (Uint63.of_Z (10 - req_id req)) in
          set_heap
            (<[r := ORequest
                      (set_t_finished t
                         (set_status Done
                            (set_result (Some (mkResult 1%float pos unit_vir ""))
                               (set_t_dispatched 5%float req))))]> (heap w)) w
      | _, _ => w
      end
  | _ => w
  end.

Definition example_socket_poll (w : world) : world :=
  foldl example_serve w (requests w).

Definition example_ph (enabled : bool) : PhotonDriverFabryPerot :=
  mkPh enabled 3 (fun _ _ _ => 0.25%float) (fun pos_ph _ _ => pos_ph)
       (fun _ _ _ _ => ([0.5%float; 0.5%float], [0.25%float; 0.25%float])).

Definition example_fp (enabled : bool) : FFCavPhFPSocket :=
  mkFP 2 [1%float] (example_ph enabled) example_socket_poll
       (fun l => fold_left PrimFloat.add l 0%float) 0.

Definition example_fp_world : world :=
  mkWorld [ONdarray example_fp_positions; OMatrix mat3_zeros;
           OMatrix mat3_zeros]
          (ForceField_init 1%float "ff" None false [(-1)%Z] false)
          example_clock 0 false.

(** * Other classes *)

(** ** [FFDebye] *)

(** A numpy array of floats of any shape, its items in row-major
    order. *)
Record ndarray := mkNd { nd_shape : list nat; nd_data : list float }.

(** The attributes that [FFDebye] adds to a [ForceField].  [np.dot]
    adds up products in an order that numpy does not fix: [db_dot_row i]
    is the product of the row [i] of a matrix with a vector and
    [db_dot] the product of two vectors. *)
Record FFDebye := mkDebye {
  db_H : ndarray;
  db_xref : ndarray;
  db_vref : float;
  db_dot_row : nat -> list float -> list float -> float;
  db_dot : list float -> list float -> float
}.

(** [np.dot(H, d)] for [H] of shape [(n, n)] and [d] of shape [(n,)]. *)
Definition np_dot_matvec (me : FFDebye) (n : nat) (H d : list float)
    : list float :=
  (fun i => db_dot_row me i (take n (drop (i * n) H)) d) <$> seq 0 n.

(** [FFDebye.evaluate]. *)
Definition Debye_evaluate (me : FFDebye) (r : loc) : M unit :=
  req ← load_request r;
  q ← load_ndarray (req_pos req);
  let n3 := length q in
  if negb (bool_decide (nd_shape (db_H me) = [n3; n3])) then raise ValueError
  else if negb (bool_decide (nd_shape (db_xref me) = [n3])) then
    raise ValueError
  else
    let d := zip_with PrimFloat.sub q (nd_data (db_xref me)) in
    let mf := np_dot_matvec me n3 (nd_data (db_H me)) d in
    req ← load_request r;
    store r (ORequest (set_result
      (Some (mkResult (db_vref me + 0.5 * db_dot me d mf)%float
                      (PrimFloat.opp <$> mf) mat3_zeros "")) req));;
    req ← load_request r;
    store r (ORequest (set_status Done req));;
    t ← time_time;
    req ← load_request r;
    store r (ORequest (set_t_finished t req)).

(** The body of [FFDebye.poll] for one request, and [FFDebye.poll]. *)
Definition Debye_poll_one (me : FFDebye) (r : loc) : M unit :=
  req ← load_request r;
  match req_status req with
  | Queued =>
      store r (ORequest (set_status Running req));;
      Debye_evaluate me r
  | _ => mret tt
  end.

Definition Debye_poll (me : FFDebye) : M unit :=
  rs ← gets requests;
  for_each (Debye_poll_one me) rs.

(** [ForceField.queue] on a [FFDebye]: [self.poll()] is
    [FFDebye.poll].  [FFDebye.__init__] initialises the base class with
    [dopbc=False] and without its argument [threaded], so that such a
    force field never folds the positions and is never threaded. *)
Definition Debye_queue (me : FFDebye) (atoms : Atoms) (cell : Cell)
    (reqid : Z) : M loc :=
  newreq ← build_request atoms cell reqid;
  modify (fun w => set_self (ff_set_requests (requests w ++ [newreq]) (self w)) w);;
  threaded ← gets (fun w => ff_threaded (self w));
  (if threaded : bool then mret tt else Debye_poll me);;
  mret newreq.

(** ** [ipi/interfaces/dipole.py] *)

Module Dipole.

(** The exceptions of this class: reading an attribute that no
    statement has set yet, and numpy's refusal of shapes. *)
Inductive error := AttributeError | ValueError.

(** An instance of [dipole].  An attribute that has not been assigned
    is [None]; [pos] is the array of shape (N, 3) that [update_pos]
    keeps.  The attributes of the pulse other than those that
    [set_charges] reads and writes are left out. *)
Record dipole := mkDipole {
  have_not_set : bool;
  run_photon : bool;
  not_have_charge_array : bool;
  charge_array : option (list float);
  have_incoming_pulse : option bool;
  pulse_all_atoms : option bool;
  add_pulse_direction : option Z;
  pulse_atoms : option (list Z);
  pulse_atoms_force_index : option (list Z);
  charges : option (list float);
  pos : option (list vec3)
}.

(** A method: it may change the instance and then raise. *)
Definition D (A : Type) : Type := dipole -> (A + error) * dipole.

Definition ret {A} (a : A) : D A := fun d => (inl a, d).
Definition fail {A} (e : error) : D A := fun d => (inr e, d).
Definition bind {A B} (m : D A) (k : A -> D B) : D B :=
  fun d => match m d with
           | (inl a, d') => k a d'
           | (inr e, d') => (inr e, d')
           end.
Definition get_attr {A} (f : dipole -> option A) : D A :=
  fun d => match f d with Some a => (inl a, d) | None => (inr AttributeError, d) end.
Definition update (f : dipole -> dipole) : D unit := fun d => (inl tt, f d).

Notation "x <- m ;; k" := (bind m (fun x => k))
  (at level 100, m at next level, right associativity).

Definition set_charges_attr (c : list float) (d : dipole) : dipole :=
  mkDipole (have_not_set d) (run_photon d) (not_have_charge_array d)
           (charge_array d) (have_incoming_pulse d) (pulse_all_atoms d)
           (add_pulse_direction d) (pulse_atoms d) (pulse_atoms_force_index d)
           (Some c) (pos d).

Definition set_have_not_set (b : bool) (d : dipole) : dipole :=
  mkDipole b (run_photon d) (not_have_charge_array d)
           (charge_array d) (have_incoming_pulse d) (pulse_all_atoms d)
           (add_pulse_direction d) (pulse_atoms d) (pulse_atoms_force_index d)
           (charges d) (pos d).

Definition set_pulse_atoms (a idx : list Z) (d : dipole) : dipole :=
  mkDipole (have_not_set d) (run_photon d) (not_have_charge_array d)
           (charge_array d) (have_incoming_pulse d) (pulse_all_atoms d)
           (add_pulse_direction d) (Some a) (Some idx) (charges d) (pos d).

Definition set_pos (p : list vec3) (d : dipole) : dipole :=
  mkDipole (have_not_set d) (run_photon d) (not_have_charge_array d)
           (charge_array d) (have_incoming_pulse d) (pulse_all_atoms d)
           (add_pulse_direction d) (pulse_atoms d) (pulse_atoms_force_index d)
           (charges d) (Some p).

(** [__init__] when [photon_params.json] cannot be read, and when it
    can and has no ["add_pulse"]: [data] is then its ["charge_array"],
    if it has one. *)
Definition init (data : option (option (list float))) : dipole :=
  match data with
  | None =>
      mkDipole true false true None None None None None None None None
  | Some None =>
      mkDipole true true true None (Some false) None None None None None None
  | Some (Some ca) =>
      mkDipole true true false (Some ca) (Some false) None None None None None
               None
  end.

(** [np.reshape(pos, (-1, 3))]: [None] stands for the [ValueError] of a
    size that is not a multiple of 3. *)
Fixpoint reshape3 (l : list float) : option (list vec3) :=
  match l with
  | [] => Some []
  | x :: y :: z :: l' => cons (V3 x y z) <$> reshape3 l'
  | _ => None
  end.

(** [update_pos]. *)
Definition update_pos (p : list float) : D unit :=
  match reshape3 p with
  | Some rows => update (set_pos rows)
  | None => fail ValueError
  end.

(** [a[k::3] = x] for a scalar [x]. *)
Definition assign_stride3 (k : nat) (x : float) (a : list float)
    : list float :=
  imap (fun i y => if (k <=? i) && ((i - k) mod 3 =? 0) then x else y) a.

(** The partial charges of the q-TIP4P/F water model that
    [set_charges] writes into [charges[0::3]], [charges[1::3]] and
    [charges[2::3]]. *)
#[warnings="-inexact-float"]
Definition charge_O : float := (-0.8472)%float.

#[warnings="-inexact-float"]
Definition charge_H : float := 0.4236%float.

Definition water_charges (zeros : list float) : list float :=
  assign_stride3 2 charge_H
    (assign_stride3 1 charge_H (assign_stride3 0 charge_O zeros)).

(** [set_charges]. *)
Definition set_charges : D unit :=
  fun d =>
    if have_not_set d then
      (p <- get_attr pos ;;
       _ <- update (set_charges_attr (replicate (length p) 0%float)) ;;
       _ <- (if not_have_charge_array d then
               update (fun d =>
                 set_charges_attr (water_charges (default [] (charges d))) d)
             else
               ca <- get_attr charge_array ;; update (set_charges_attr ca)) ;;
       _ <- update (set_have_not_set false) ;;
       pulse <- get_attr have_incoming_pulse ;;
       if pulse : bool then
         all_atoms <- get_attr pulse_all_atoms ;;
         if all_atoms : bool then
           p <- get_attr pos ;;
           let atoms := Z.of_nat <$> seq 0 (length p) in
           dir <- get_attr add_pulse_direction ;;
           update (set_pulse_atoms atoms ((fun x => x * 3 + dir)%Z <$> atoms))
         else ret tt
       else ret tt) d
    else ret tt d.

(** [charges * pos[:, k]], with numpy's broadcasting. *)
Definition charges_times (col : vec3 -> float) : D (list float) :=
  c <- get_attr charges ;;
  p <- get_attr pos ;;
  match np_mul c (col <$> p) with
  | Some v => ret v
  | None => fail ValueError
  end.

Section Methods.

(** [np.sum] of a float array: the order in which numpy adds is not
    modelled. *)
Variable np_sum : list float -> float.

(** [calc_dipoles_x]. *)
Definition calc_dipoles_x : D (list float) :=
  _ <- set_charges ;; charges_times vx.

(** [calc_dipoles_x_tot], [calc_dipoles_y_tot], [calc_dipoles_z_tot]. *)
Definition calc_dipoles_tot (col : vec3 -> float) : D float :=
  _ <- set_charges ;; v <- charges_times col ;; ret (np_sum v).

Definition calc_dipoles_x_tot : D float := calc_dipoles_tot vx.
Definition calc_dipoles_y_tot : D float := calc_dipoles_tot vy.
Definition calc_dipoles_z_tot : D float := calc_dipoles_tot vz.

(** [a[lo:hi]] for Python integers. *)
Definition py_slice {A} (lo hi : Z) (a : list A) : list A :=
  let len := Z.of_nat (length a) in
  let norm i := Z.max 0 (Z.min len (if (i <? 0)%Z then i + len else i)) in
  let lo' := Z.to_nat (norm lo) in
  let hi' := Z.to_nat (norm hi) in
  take (hi' - lo') (drop lo' a).

(** [calc_dipoles_x_which] and its two siblings: the dipole of the
    three atoms of the molecule [index]. *)
Definition calc_dipoles_which (col : vec3 -> float) (index : Z) : D float :=
  _ <- set_charges ;;
  c <- get_attr charges ;;
  p <- get_attr pos ;;
  let lo := (index * 3)%Z in
  let hi := (index * 3 + 3)%Z in
  match np_mul (py_slice lo hi c) (col <$> py_slice lo hi p) with
  | Some v => ret (np_sum v)
  | None => fail ValueError
  end.

(** [calc_dmudx] and [calc_dmudy]. *)
Definition calc_dmudx : D (list float) := get_attr charges.

End Methods.

(** [np.sum] by additions from the left, for the examples. *)
Definition example_sum (l : list float) : float :=
  fold_left PrimFloat.add l 0%float.

End Dipole.

(** * More notions used in the statements *)

(** ** The requests of the baths *)

(** What one turn of the loop over the baths adds to the store. *)
Definition bath_objects (me : FFCavPhFPSocket) (par_str : string) (reqid : Z)
    (idx : nat) (w : world) (s : list float) (ia : list Z) (h ih : mat3)
    : list obj :=
  [ONdarray s; OIndex ia; OMatrix h; OMatrix ih;
   ORequest
     (mkReq (reqid * Z.of_nat (n_independent_bath me) + Z.of_nat idx)%Z
            (length (heap w)) (Some (length (heap w) + 1))
            (length (heap w) + 2, length (heap w) + 3) par_str None Queued
            (-1)%float (clock w (ticks w)) 0%float 0%float)].

(** What the loop over the baths has built for the bath of index [idx]
    at the address [c]: a request that waits, with the identifier
    [reqid * n_independent_bath + idx], whose positions are an array of
    its own as long as the block of the bath, and are that block when
    the positions are not folded. *)
Definition bath_request_at (me : FFCavPhFPSocket) (par_str : string)
    (reqid : Z) (q_atoms : list float) (n : nat) (dopbc : bool)
    (h : list obj) (idx : nat) (c : loc) : Prop :=
  exists req s,
    h !! c = Some (ORequest req)
    /\ req_id req = (reqid * Z.of_nat (n_independent_bath me) + Z.of_nat idx)%Z
    /\ req_status req = Queued
    /\ req_result req = None
    /\ req_pars req = par_str
    /\ h !! req_pos req = Some (ONdarray s)
    /\ length s = length (block n idx q_atoms)
    /\ (dopbc = false -> s = block n idx q_atoms).

(** ** The wait for a bath *)

(** The world after the other threads have made the steps [used]
    during the sleeps of the wait. *)
Definition after_steps (used : list (world -> world)) (w : world) : world :=
  fold_left (fun w act => act w) used w.

Definition status_at (w : world) (r : loc) (st : status) : Prop :=
  exists req, heap w !! r = Some (ORequest req) /\ req_status req = st.

(** ** The runs of the external program *)

(** The files that a run of the external program has left are good
    for each of the [n] baths, or are not for one of them. *)
Definition all_good (files : nat -> driver_files) (n : nat) : Prop :=
  forall i, i < n -> exists x, files i = FilesGood x.

Definition some_bad (files : nat -> driver_files) (n : nat) : Prop :=
  exists i, i < n /\ forall x, files i <> FilesGood x.

Definition good_output (f : driver_files) : driver_output :=
  match f with FilesGood x => x | _ => out_zero end.

(** The values of the baths put together, in the order of the baths. *)
Definition bath_total (files : nat -> driver_files) (baths : list nat)
    (tot : driver_output) : driver_output :=
  fold_left (fun tot i => out_add tot (good_output (files i))) baths tot.

(** What [evaluate] stores in a request whose forces it has got. *)
Definition evaluated (me : FFCavPh) (q : list float) (x : driver_output)
    (t : float) (req : ForceRequest) : ForceRequest :=
  let '(e, mf) :=
    if cp_apply_photon me then cp_photon_terms me q x
    else (out_E x, out_force x) in
  set_t_finished t
    (set_status Done
       (set_result (Some (mkResult e mf mat3_zeros ""))
          (set_status Running req))).

(** ** A Debye crystal *)

(** What [FFDebye.evaluate] leaves in a request of [n] coordinates. *)
Definition Debye_done (me : FFDebye) (q : list float) (t : float)
    (req : ForceRequest) : ForceRequest :=
  let d := zip_with PrimFloat.sub q (nd_data (db_xref me)) in
  let mf := np_dot_matvec me (length q) (nd_data (db_H me)) d in
  set_t_finished t
    (set_status Done
       (set_result
          (Some (mkResult (db_vref me + 0.5 * db_dot me d mf)%float
                          (PrimFloat.opp <$> mf) mat3_zeros ""))
          (set_status Running req))).

(** The sizes of the Hessian and of the reference fit [n]
    coordinates. *)
Definition Debye_fits (me : FFDebye) (n : nat) : Prop :=
  nd_shape (db_H me) = [n; n] /\ nd_shape (db_xref me) = [n].

(** A Debye crystal of two atoms. *)
Definition example_debye : FFDebye :=
  mkDebye (mkNd [6; 6] (replicate 36 1%float)) (mkNd [6] (replicate 6 0%float))
          0%float
          (fun _ a b => fold_left PrimFloat.add (zip_with PrimFloat.mul a b) 0%float)
          (fun a b => fold_left PrimFloat.add (zip_with PrimFloat.mul a b) 0%float).

(** * Properties *)

(** ** Membership and removal *)

Lemma ForceRequest_eq_spec (a b : loc) : ForceRequest_eq a b = true <-> a = b.
Proof. unfold ForceRequest_eq. apply Nat.eqb_eq. Qed.

Lemma py_in_spec (x : loc) (l : list loc) : py_in x l = true <-> x ∈ l.
Proof.
  unfold py_in. induction l as [|y l IH]; simpl.
  - split; [discriminate | intros H; inversion H].
  - rewrite orb_true_iff, IH, ForceRequest_eq_spec, elem_of_cons.
    split; intros [H|H]; auto.
Qed.

Lemma py_in_false (x : loc) (l : list loc) : py_in x l = false <-> x ∉ l.
Proof.
  rewrite <- py_in_spec. destruct (py_in x l); split; intros; congruence.
Qed.

Lemma py_remove_in (x : loc) (l : list loc) :
  x ∈ l ->
  exists l', py_remove x l = Some l'
    /\ length l = S (length l')
    /\ (forall y, y <> x -> y ∈ l -> y ∈ l')
    /\ (forall y, y ∈ l' -> y ∈ l)
    /\ (NoDup l -> (x ∉ l') /\ NoDup l').
Proof.
  induction l as [|y l IH]; intros Hin; [inversion Hin|].
  simpl. destruct (ForceRequest_eq y x) eqn:E.
  - apply ForceRequest_eq_spec in E. subst y. exists l.
    split; [done|]. split; [done|]. split; [|split].
    + intros z Hz Hzl. apply elem_of_cons in Hzl as [?|?]; [congruence | done].
    + intros z Hz. apply elem_of_cons. by right.
    + intros Hnd. by apply NoDup_cons in Hnd as [? ?].
  - assert (y <> x) as Hne.
    { intros ->. unfold ForceRequest_eq in E. by rewrite Nat.eqb_refl in E. }
    apply elem_of_cons in Hin as [Hin|Hin]; [congruence|].
    destruct (IH Hin) as (l' & -> & Hlen & Hkeep & Hsub & Hnd).
    exists (y :: l'). simpl.
    split; [done|]. split; [by rewrite Hlen|]. split; [|split].
    + intros z Hz Hzl. apply elem_of_cons in Hzl as [->|Hzl];
        apply elem_of_cons; auto.
    + intros z Hz. apply elem_of_cons in Hz as [->|Hz];
        apply elem_of_cons; auto.
    + intros Hnd'. apply NoDup_cons in Hnd' as [Hy Hnd'].
      destruct (Hnd Hnd') as [Hx Hl']. split.
      * intros Hx'. apply elem_of_cons in Hx' as [?|?]; [congruence | done].
      * apply NoDup_cons. split; [|done]. intros Hy'. apply Hy. by apply Hsub.
Qed.

(** [release] never raises. *)
Lemma release_cases (r : loc) (w : world) :
  ((r ∉ requests w) /\ release r w = Ret tt w)
  \/ (r ∈ requests w /\ exists rs',
        py_remove r (requests w) = Some rs'
        /\ release r w = Ret tt (set_self (ff_set_requests rs' (self w)) w)).
Proof.
  unfold release, mbind, M_bind, gets, modify. simpl.
  destruct (py_in r (requests w)) eqn:E.
  - right. apply py_in_spec in E. split; [done|].
    destruct (py_remove_in r _ E) as (rs' & Hrm & _). rewrite Hrm. eauto.
  - left. apply py_in_false in E. split; [done|]. reflexivity.
Qed.

(** ** How the store changes *)

Lemma kept_unless_queued_refl r : kept_unless_queued r r.
Proof. by repeat split. Qed.

Lemma kept_unless_queued_trans r1 r2 r3 :
  kept_unless_queued r1 r2 -> kept_unless_queued r2 r3 -> kept_unless_queued r1 r3.
Proof.
  intros (Hp & Ha & Hc & Hk) (Hp' & Ha' & Hc' & Hk'). split; [congruence|].
  split; [congruence|]. split; [congruence|].
  intros Hs. specialize (Hk Hs). subst r2. auto.
Qed.

Lemma kept_if_exit_refl r : kept_if_exit r r.
Proof. by repeat split. Qed.

Lemma kept_if_exit_trans r1 r2 r3 :
  kept_if_exit r1 r2 -> kept_if_exit r2 r3 -> kept_if_exit r1 r3.
Proof.
  intros (Hp & Ha & Hc & Hk) (Hp' & Ha' & Hc' & Hk'). split; [congruence|].
  split; [congruence|]. split; [congruence|].
  intros Hs. specialize (Hk Hs). subst r2. auto.
Qed.

Lemma kept_unless_queued_weaken r r' :
  kept_unless_queued r r' -> kept_if_exit r r'.
Proof.
  intros (Hp & Ha & Hc & Hk). repeat split; auto.
  intros Hs. apply Hk. congruence.
Qed.

Lemma config_kept_refl f : config_kept f f.
Proof. by repeat split. Qed.

Lemma config_kept_trans f1 f2 f3 :
  config_kept f1 f2 -> config_kept f2 f3 -> config_kept f1 f3.
Proof.
  intros (? & ? & ? & ? & Hi) (? & ? & ? & ? & Hi').
  repeat split; try congruence. auto.
Qed.

Section Evolves.
Variable Q : ForceRequest -> ForceRequest -> Prop.
Hypothesis Q_refl : forall r, Q r r.
Hypothesis Q_trans : forall r1 r2 r3, Q r1 r2 -> Q r2 r3 -> Q r1 r3.

Lemma obj_evolves_refl o : obj_evolves Q o o.
Proof using Q_refl. destruct o; simpl; eauto. Qed.

Lemma obj_evolves_trans o1 o2 o3 :
  obj_evolves Q o1 o2 -> obj_evolves Q o2 o3 -> obj_evolves Q o1 o3.
Proof using Q_trans.
  destruct o1; simpl; try (intros -> ?; done).
  intros (r' & -> & H1). simpl. intros (r'' & -> & H2). eauto.
Qed.

Lemma heap_evolves_refl h : heap_evolves Q h h.
Proof using Q_refl. intros l o H. eauto using obj_evolves_refl. Qed.

Lemma heap_evolves_trans h1 h2 h3 :
  heap_evolves Q h1 h2 -> heap_evolves Q h2 h3 -> heap_evolves Q h1 h3.
Proof using Q_trans.
  intros H12 H23 l o H. destruct (H12 l o H) as (o' & H' & E1).
  destruct (H23 l o' H') as (o'' & H'' & E2).
  eauto using obj_evolves_trans.
Qed.

Lemma heap_evolves_app h0 h extra :
  heap_evolves Q h0 h -> heap_evolves Q h0 (h ++ extra).
Proof.
  intros H l o Hl. destruct (H l o Hl) as (o' & H' & E).
  exists o'. split; [|done]. by apply lookup_app_l_Some.
Qed.

Lemma heap_evolves_insert_fresh h0 h l o :
  heap_evolves Q h0 h -> length h0 <= l -> heap_evolves Q h0 (<[l:=o]> h).
Proof.
  intros H Hl l' o' Hl'. destruct (H l' o' Hl') as (o'' & H' & E).
  exists o''. split; [|done]. rewrite list_lookup_insert_ne; [done|].
  apply lookup_lt_Some in Hl'. lia.
Qed.

Lemma heap_evolves_insert_request h0 h l r r' :
  heap_evolves Q h0 h -> h !! l = Some (ORequest r) -> Q r r' ->
  heap_evolves Q h0 (<[l:=ORequest r']> h).
Proof using Q_trans.
  intros H Hl HQ l' o' Hl'. destruct (H l' o' Hl') as (o'' & H' & E).
  destruct (decide (l = l')) as [->|Hne].
  - exists (ORequest r'). split.
    + apply list_lookup_insert_eq. by apply lookup_lt_Some in Hl.
    + rewrite Hl in H'. injection H' as <-.
      destruct o'; simpl in *; try discriminate.
      destruct E as (r1 & [= <-] & HQ'). eauto.
  - exists o''. split; [|done]. by rewrite list_lookup_insert_ne.
Qed.

Lemma evolves_refl w : evolves Q w w.
Proof using Q_refl.
  split; [apply heap_evolves_refl|]. split; [apply config_kept_refl|done].
Qed.

Lemma evolves_trans w1 w2 w3 :
  evolves Q w1 w2 -> evolves Q w2 w3 -> evolves Q w1 w3.
Proof using Q_trans.
  intros (H & C & K) (H' & C' & K'). split; [|split].
  - eapply heap_evolves_trans; eauto.
  - eapply config_kept_trans; eauto.
  - congruence.
Qed.

Lemma updates_at_evolves r w w' : updates_at Q r w w' -> evolves Q w w'.
Proof using Q_refl Q_trans.
  intros (Hs & Hc & [Hh|(req & req' & Hl & Hh & HQ)]).
  - split; [rewrite Hh; apply heap_evolves_refl|].
    split; [rewrite Hs; apply config_kept_refl|done].
  - split; [|split; [rewrite Hs; apply config_kept_refl|done]].
    rewrite Hh. eapply heap_evolves_insert_request; eauto.
    apply heap_evolves_refl.
Qed.

(** Whatever every turn of a loop preserves, the loop preserves. *)
Lemma for_each_evolves {A} (body : A -> M unit) (l : list A) :
  (forall x w, evolves Q w (final (body x w))) ->
  forall w, evolves Q w (final (for_each body l w)).
Proof using Q_refl Q_trans.
  intros Hbody. induction l as [|x l IH]; intros w; simpl.
  - apply evolves_refl.
  - unfold mbind, M_bind. specialize (Hbody x w).
    destruct (body x w) as [[] w'|e w']; simpl in *; [|done].
    eapply evolves_trans; eauto.
Qed.

End Evolves.

Lemma heap_evolves_mono (Q Q' : ForceRequest -> ForceRequest -> Prop) h h' :
  (forall r r', Q r r' -> Q' r r') -> heap_evolves Q h h' -> heap_evolves Q' h h'.
Proof.
  intros HQ H l o Hl. destruct (H l o Hl) as (o' & H' & E).
  exists o'. split; [done|]. destruct o; simpl in *; auto.
  destruct E as (r' & -> & ?). eauto.
Qed.

Lemma evolves_mono (Q Q' : ForceRequest -> ForceRequest -> Prop) w w' :
  (forall r r', Q r r' -> Q' r r') -> evolves Q w w' -> evolves Q' w w'.
Proof. intros HQ (H & ?). split; [|done]. eapply heap_evolves_mono; eauto. Qed.

Ltac msimpl :=
  repeat (unfold mbind, M_bind, mret, M_ret, gets, modify, raise, alloc,
            load_request, load_ndarray, load_matrix, load_index, load, store,
            time_time, lift_option, new_ForceRequest in *;
          cbn [heap self clock ticks softexit_triggered set_heap set_self
               set_ticks set_triggered final requests] in *).

Lemma poll_one_queued r w req a :
  heap w !! r = Some (ORequest req) -> req_status req = Queued ->
  heap w !! req_pos req = Some (ONdarray a) ->
  poll_one r w =
    Ret tt (set_heap
              (<[r:=ORequest (polled (clock w (ticks w)) (clock w (S (ticks w)))
                                     (length a) req)]> (heap w))
              (set_ticks (S (S (ticks w))) w)).
Proof.
  intros E Hst Hpos. pose proof (lookup_lt_Some _ _ _ E) as Hlt.
  assert (r <> req_pos req) as Hne by (intros Heq; rewrite <- Heq in Hpos; congruence).
  unfold poll_one. msimpl. rewrite E. cbn. rewrite Hst. msimpl.
  rewrite list_lookup_insert_eq by done. cbn.
  rewrite list_lookup_insert_ne by done. rewrite Hpos. cbn.
  rewrite list_lookup_insert_eq by (by rewrite length_insert). cbn.
  rewrite list_lookup_insert_eq by (by rewrite !length_insert). cbn.
  rewrite !list_insert_insert_eq. reflexivity.
Qed.

Lemma poll_one_not_queued r w req :
  heap w !! r = Some (ORequest req) -> req_status req <> Queued ->
  poll_one r w = Ret tt w.
Proof.
  intros E Hst. unfold poll_one. msimpl. rewrite E. cbn.
  destruct (req_status req); try reflexivity; by destruct Hst.
Qed.

Lemma polled_kept t1 t2 n req :
  req_status req = Queued -> kept_unless_queued req (polled t1 t2 n req).
Proof.
  intros Hst. split; [done|]. split; [done|]. split; [done|].
  intros H. by destruct H.
Qed.

Lemma poll_one_updates r w :
  updates_at kept_unless_queued r w (final (poll_one r w)).
Proof.
  destruct (heap w !! r) as [o|] eqn:E.
  2: { unfold poll_one. msimpl. rewrite E. cbn. by repeat split; auto. }
  destruct o as [| | |req];
    try (unfold poll_one; msimpl; rewrite E; cbn; by repeat split; auto).
  destruct (decide (req_status req = Queued)) as [Hst|Hst].
  2: { rewrite (poll_one_not_queued _ _ _ E Hst). cbn. by repeat split; auto. }
  destruct (heap w !! req_pos req) as [[a| | |]|] eqn:Hpos.
  { rewrite (poll_one_queued _ _ _ _ E Hst Hpos). cbn.
    split; [done|]. split; [done|]. right. eexists _, _.
    split; [done|]. split; [done|]. by apply polled_kept. }
  all: pose proof (lookup_lt_Some _ _ _ E) as Hlt.
  all: unfold poll_one; msimpl; rewrite E; cbn; rewrite Hst; msimpl.
  all: rewrite list_lookup_insert_eq by done; cbn.
  all: destruct (decide (r = req_pos req)) as [Heq|Hne];
    [rewrite <- Heq; rewrite list_lookup_insert_eq by done
    |rewrite list_lookup_insert_ne by done; rewrite Hpos]; cbn.
  all: split; [done|]; split; [done|]; right; eexists _, _.
  all: split; [done|]; split; [done|]; split; [done|]; split; [done|].
  all: split; [done|]; intros H; by destruct H.
Qed.

Lemma updates_at_other Q r w w' l :
  updates_at Q r w w' -> l <> r -> heap w' !! l = heap w !! l.
Proof.
  intros (_ & _ & [->|(req & req' & _ & -> & _)]) Hne; [done|].
  by rewrite list_lookup_insert_ne.
Qed.

Lemma updates_at_length Q r w w' :
  updates_at Q r w w' -> length (heap w') = length (heap w).
Proof.
  intros (_ & _ & [->|(req & req' & _ & -> & _)]); [done|].
  by rewrite length_insert.
Qed.

Lemma updates_at_mono (Q Q' : ForceRequest -> ForceRequest -> Prop) r w w' :
  (forall a b, Q a b -> Q' a b) -> updates_at Q r w w' -> updates_at Q' r w w'.
Proof.
  intros HQ (? & ? & [?|(req & req' & ? & ? & ?)]); split; [done| |done|].
  - split; [done|]. by left.
  - split; [done|]. right. eauto 10.
Qed.

(** A loop whose turn for [x] at most rewrites the request at [x]. *)
Lemma for_each_updates_frame Q (body : loc -> M unit) (rs : list loc) :
  (forall x w, updates_at Q x w (final (body x w))) ->
  forall w,
    self (final (for_each body rs w)) = self w
    /\ clock (final (for_each body rs w)) = clock w
    /\ length (heap (final (for_each body rs w))) = length (heap w)
    /\ forall l, l ∉ rs -> heap (final (for_each body rs w)) !! l = heap w !! l.
Proof.
  intros Hbody. induction rs as [|x rs IH]; intros w; simpl; [done|].
  unfold mbind, M_bind. pose proof (Hbody x w) as Hx.
  destruct (body x w) as [[] w1|e w1]; simpl in *.
  - destruct (IH w1) as (Hs & Hc & Hl & Hf). destruct Hx as (Hs1 & Hc1 & Hh1).
    split; [congruence|]. split; [congruence|]. split.
    + rewrite Hl. eapply updates_at_length. by split.
    + intros l Hl'. apply not_elem_of_cons in Hl' as [Hne Hl'].
      rewrite Hf by done.
      eapply (updates_at_other Q x w w1); [by split|done].
  - destruct Hx as (Hs1 & Hc1 & Hh1).
    split; [done|]. split; [done|]. split.
    + eapply updates_at_length. by split.
    + intros l Hl'. apply not_elem_of_cons in Hl' as [Hne Hl'].
      eapply (updates_at_other Q x w w1); [by split|done].
Qed.

Lemma set_status_exit_kept req : kept_if_exit req (set_status Exit req).
Proof.
  split; [done|]. split; [done|]. split; [done|].
  intros H. destruct req. simpl in *. by subst.
Qed.

Lemma stop_one_request r w req :
  heap w !! r = Some (ORequest req) ->
  stop_one r w = Ret tt (set_heap (<[r:=ORequest (set_status Exit req)]> (heap w)) w).
Proof. intros E. unfold stop_one. msimpl. by rewrite E. Qed.

Lemma stop_one_updates r w : updates_at kept_if_exit r w (final (stop_one r w)).
Proof.
  destruct (heap w !! r) as [o|] eqn:E.
  2: { unfold stop_one. msimpl. rewrite E. cbn. by repeat split; auto. }
  destruct o as [| | |req];
    try (unfold stop_one; msimpl; rewrite E; cbn; by repeat split; auto).
  rewrite (stop_one_request _ _ _ E). cbn. split; [done|]. split; [done|].
  right. eexists _, _. split; [done|]. split; [done|].
  apply set_status_exit_kept.
Qed.

(** [stop] marks every request of the list when these are requests. *)
Lemma for_each_stop_one rs : forall w,
  (forall r, r ∈ rs -> is_request (heap w) r) ->
  exists w', for_each stop_one rs w = Ret tt w'
    /\ forall r, r ∈ rs ->
         exists req, heap w' !! r = Some (ORequest req) /\ req_status req = Exit.
Proof.
  induction rs as [|x rs IH]; intros w Hreq.
  - exists w. split; [done|]. intros r Hr. inversion Hr.
  - destruct (Hreq x) as (req & E); [by apply elem_of_cons; left|].
    simpl. unfold mbind, M_bind. rewrite (stop_one_request _ _ _ E).
    set (w1 := set_heap _ w).
    destruct (IH w1) as (w' & Hrun & Hall).
    { intros r Hr. destruct (Hreq r) as (req' & E'); [by apply elem_of_cons; right|].
      subst w1. cbn. destruct (decide (x = r)) as [->|Hne].
      - eexists. apply list_lookup_insert_eq. by apply lookup_lt_Some in E.
      - exists req'. by rewrite list_lookup_insert_ne. }
    exists w'. split; [done|]. intros r Hr.
    destruct (decide (r ∈ rs)) as [Hin|Hnin]; [by apply Hall|].
    assert (r = x) as -> by (by apply elem_of_cons in Hr as [?|?]).
    destruct (for_each_updates_frame kept_if_exit stop_one rs stop_one_updates w1)
      as (_ & _ & _ & Hf).
    rewrite Hrun in Hf. cbn in Hf. rewrite Hf by done. subst w1. cbn.
    rewrite list_lookup_insert_eq by (by apply lookup_lt_Some in E). eauto.
Qed.

Lemma init_iactive_set n w ia :
  ff_iactive (self w) = Some ia -> init_iactive n w = Ret tt w.
Proof. intros H. unfold init_iactive. msimpl. by rewrite H. Qed.

Lemma init_iactive_unset n w :
  ff_iactive (self w) = None -> ff_active (self w) <> [] ->
  init_iactive n w =
    let ah := activehere_of (ff_active (self w)) n in
    let w1 := set_heap (heap w ++ [OIndex ah]) w in
    match sanity_check ah n with
    | Some e => Raise e w1
    | None => Ret tt (set_self (ff_set_iactive (Some (length (heap w))) (self w)) w1)
    end.
Proof.
  intros H Ha. unfold init_iactive, activehere_of. msimpl. rewrite H.
  destruct (ff_active (self w)) as [|a0 rest]; [done|]. msimpl.
  by destruct (sanity_check _ n).
Qed.

Lemma init_iactive_empty n w :
  ff_iactive (self w) = None -> ff_active (self w) = [] ->
  init_iactive n w = Raise IndexError w.
Proof. intros H Ha. unfold init_iactive. msimpl. by rewrite H, Ha. Qed.

(** Whatever [init_iactive] does: it adds at most the index array and
    sets at most [iactive]. *)
Lemma init_iactive_final n w :
  exists extra,
    heap (final (init_iactive n w)) = heap w ++ extra
    /\ (forall l r, extra !! l <> Some (ORequest r))
    /\ requests (final (init_iactive n w)) = requests w
    /\ config_kept (self w) (self (final (init_iactive n w)))
    /\ clock (final (init_iactive n w)) = clock w
    /\ ticks (final (init_iactive n w)) = ticks w
    /\ softexit_triggered (final (init_iactive n w)) = softexit_triggered w
    /\ match init_iactive n w with
       | Ret _ w' =>
           is_Some (ff_iactive (self w'))
           /\ (ff_iactive (self w) = None ->
               ff_iactive (self w') = Some (length (heap w))
               /\ extra = [OIndex (activehere_of (ff_active (self w)) n)]
               /\ sanity_check (activehere_of (ff_active (self w)) n) n = None)
           /\ (is_Some (ff_iactive (self w)) -> extra = [] /\ self w' = self w)
       | Raise _ w' => self w' = self w
       end.
Proof.
  destruct (ff_iactive (self w)) as [ia|] eqn:Hi.
  - rewrite (init_iactive_set n w ia Hi). exists []. cbn.
    rewrite app_nil_r, Hi. repeat split; eauto; try lia; try done.
    all: try by (intros l r H; rewrite lookup_nil in H).
  - destruct (decide (ff_active (self w) = [])) as [Ha|Ha].
    + rewrite (init_iactive_empty n w Hi Ha). exists []. cbn.
      rewrite app_nil_r. repeat split; eauto; try lia.
      all: try by (intros l r H; rewrite lookup_nil in H).
    + rewrite (init_iactive_unset n w Hi) by done.
      cbv zeta. exists [OIndex (activehere_of (ff_active (self w)) n)].
      destruct (sanity_check _ n) eqn:Hsc; cbn; repeat split; eauto.
      all: try by (intros [|[|l]] r H).
      all: try (intros l Hl; congruence).
      all: match goal with H : is_Some None |- _ => by destruct H end.
Qed.

Lemma array_pbc_run cell pos w h ih p :
  heap w !! cell_h cell = Some (OMatrix h) ->
  heap w !! cell_ih cell = Some (OMatrix ih) ->
  heap w !! pos = Some (ONdarray p) ->
  array_pbc cell pos w =
    if Nat.eqb (length (cell_fold cell h ih p)) (length p)
    then Ret tt (set_heap (<[pos:=ONdarray (cell_fold cell h ih p)]> (heap w)) w)
    else Raise ValueError w.
Proof.
  intros Hh Hih Hp. unfold array_pbc. msimpl. rewrite Hh. cbn.
  rewrite Hih. cbn. rewrite Hp. cbn.
  by destruct (Nat.eqb _ _).
Qed.

(** [array_pbc] writes to [pos] and nowhere else, and keeps its length. *)
Lemma array_pbc_final cell pos w p :
  heap w !! pos = Some (ONdarray p) ->
  exists s, length s = length p
    /\ final (array_pbc cell pos w) = set_heap (<[pos:=ONdarray s]> (heap w)) w
    /\ forall w', array_pbc cell pos w = Ret tt w' ->
         exists h ih, heap w !! cell_h cell = Some (OMatrix h)
           /\ heap w !! cell_ih cell = Some (OMatrix ih)
           /\ s = cell_fold cell h ih p.
Proof.
  intros Hp.
  assert (set_heap (<[pos:=ONdarray p]> (heap w)) w = w) as Hid.
  { rewrite list_insert_id by done. by destruct w. }
  destruct (heap w !! cell_h cell) as [[| |h|]|] eqn:Hh.
  3: destruct (heap w !! cell_ih cell) as [[| |ih|]|] eqn:Hih.
  5: { rewrite (array_pbc_run _ _ _ _ _ _ Hh Hih Hp).
       destruct (Nat.eqb _ _) eqn:E.
       - apply Nat.eqb_eq in E. exists (cell_fold cell h ih p).
         split; [done|]. split; [done|]. intros w' _. eauto.
       - exists p. split; [done|]. split; [by rewrite Hid|]. discriminate. }
  all: exists p; split; [done|].
  all: unfold array_pbc; msimpl; rewrite Hh; cbn; rewrite ?Hih; cbn.
  all: split; [by rewrite Hid|discriminate].
Qed.

Lemma no_request_nil : no_request [].
Proof. intros l r H. by rewrite lookup_nil in H. Qed.

Lemma no_request_cons o extra :
  (forall r, o <> ORequest r) -> no_request extra -> no_request (o :: extra).
Proof. intros Ho He [|l] r H; cbn in H; [naive_solver|by apply He in H]. Qed.

Lemma no_request_app e1 e2 : no_request e1 -> no_request e2 -> no_request (e1 ++ e2).
Proof.
  intros H1 H2 l r H. apply lookup_app_Some in H as [H|[_ H]]; [by apply H1 in H|by apply H2 in H].
Qed.

Lemma build_request_built atoms cell reqid w :
  built w atoms cell reqid (build_request atoms cell reqid w).
Proof.
  unfold build_request.
  change (gets self ≫= ?f) with (fun w0 => f (self w0) w0). cbv beta.
  unfold mbind at 1. unfold M_bind at 1.
  destruct (load_ndarray (atoms_q atoms) w) as [q w0|e w0] eqn:Hload.
  2: { unfold load_ndarray in Hload. msimpl.
       destruct (heap w !! atoms_q atoms) as [[]|]; cbn in Hload; simplify_eq.
       all: split; cbn; try done; try apply config_kept_refl.
       all: exists []; rewrite app_nil_r; split; [apply no_request_nil|done]. }
  assert (w0 = w /\ heap w !! atoms_q atoms = Some (ONdarray q)) as [-> Hq].
  { unfold load_ndarray in Hload. msimpl.
    destruct (heap w !! atoms_q atoms) as [[]|]; cbn in Hload; by simplify_eq. }
  clear Hload.
  unfold mbind at 1. unfold M_bind at 1. unfold alloc at 1.
  set (w1 := set_heap (heap w ++ [ONdarray q]) w).
  unfold mbind at 1. unfold M_bind at 1.
  destruct (init_iactive_final (length q) w1)
    as (idx & Hh2 & Hnr & Hr2 & Hc2 & Hk2 & Ht2 & Hx2 & Hs2).
  destruct (init_iactive (length q) w1) as [[] w2|e w2]; subst w1; cbn in *.
  2: { split; cbn; try done. exists ([ONdarray q] ++ idx). split.
       - apply no_request_app; [|done]. apply no_request_cons; [done|].
         apply no_request_nil.
       - by rewrite Hh2, <- app_assoc. }
  destruct Hs2 as (Hsome & Hnone & Hkeep).
  assert (heap w2 !! length (heap w) = Some (ONdarray q)) as Hpos.
  { rewrite Hh2, <- app_assoc. cbn. by rewrite list_lookup_middle. }
  assert (forall s', <[length (heap w):=ONdarray s']> (heap w2)
                     = heap w ++ [ONdarray s'] ++ idx) as Hins.
  { intros s'. rewrite Hh2, <- app_assoc.
    replace (length (heap w)) with (length (heap w) + 0) at 1 by lia.
    by rewrite insert_app_r. }
  assert (exists s, length s = length q
            /\ (ff_dopbc (self w) = false -> s = q)
            /\ let w3 := set_heap (heap w ++ [ONdarray s] ++ idx) w2 in
               (((if ff_dopbc (self w)
                  then array_pbc cell (length (heap w)) else mret ()) w2 = Ret tt w3
                 /\ (ff_dopbc (self w) = true ->
                     exists h ih, heap w2 !! cell_h cell = Some (OMatrix h)
                       /\ heap w2 !! cell_ih cell = Some (OMatrix ih)
                       /\ s = cell_fold cell h ih q))
                \/ exists e, (if ff_dopbc (self w)
                              then array_pbc cell (length (heap w))
                              else mret ()) w2 = Raise e w3))
    as (s & Hs & Hnofold & Hstage).
  { destruct (ff_dopbc (self w)).
    - destruct (array_pbc_final cell _ w2 q Hpos) as (s & Hs & Hfin & Hret).
      exists s. split; [done|]. split; [done|].
      cbv zeta. rewrite <- (Hins s), <- Hfin.
      destruct (array_pbc cell (length (heap w)) w2) as [[] ?|]; cbn; eauto.
    - exists q. split; [done|]. split; [done|]. left. split; [|done].
      unfold mret, M_ret. rewrite <- (Hins q).
      rewrite list_insert_id by done. by destruct w2. }
  cbv zeta in Hstage. set (w3 := set_heap _ w2) in Hstage.
  assert (no_request ([ONdarray s] ++ idx)) as Hnr3.
  { apply no_request_app; [|done]. apply no_request_cons; [done|].
    apply no_request_nil. }
  unfold mbind at 1. unfold M_bind at 1.
  destruct Hstage as [[-> Hfold]|[e ->]].
  2: { split; cbn; try done. exists ([ONdarray s] ++ idx). by split. }
  msimpl.
  match goal with
  | |- context [match ?x !! cell_h cell with _ => _ end] =>
      destruct (x !! cell_h cell) as [[?|?|h|?]|] eqn:Hh3
  end; cbn; try (split; cbn; try done; eexists; split; [exact Hnr3|done]).
  match goal with
  | |- context [match ?x !! cell_ih cell with _ => _ end] =>
      destruct (x !! cell_ih cell) as [[?|?|ih|?]|] eqn:Hih4
  end; cbn.
  1,2,4,5: split; cbn; try done; exists (([ONdarray s] ++ idx) ++ [OMatrix h]);
    (split; [|by repeat (rewrite <- app_assoc || cbn)]);
    (apply no_request_app; [done|]); (apply no_request_cons; [done|]);
    apply no_request_nil.
  split; cbn; try done.
  exists q, s, idx, h, ih.
  split; [done|].
  split. { by do 3 apply lookup_app_l_Some. }
  split. { by do 2 apply lookup_app_l_Some. }
  split.
  { destruct (ff_dopbc (self w)) eqn:Hd; [|by apply Hnofold].
    destruct (Hfold eq_refl) as (h' & ih' & Hh' & Hih' & ->).
    assert (cell_h cell <> length (heap w)) as Hne1 by congruence.
    assert (cell_ih cell <> length (heap w)) as Hne2 by congruence.
    rewrite <- (list_lookup_insert_ne _ (length (heap w)) _ (ONdarray (cell_fold cell h' ih' q)))
      in Hh' by done.
    rewrite <- (list_lookup_insert_ne _ (length (heap w)) _ (ONdarray (cell_fold cell h' ih' q)))
      in Hih' by done.
    rewrite Hins in Hh', Hih'. subst w3. cbn in Hh', Hih', Hh3, Hih4.
    rewrite Hh3 in Hh'. injection Hh' as <-.
    apply (lookup_app_l_Some _ [OMatrix h]) in Hih'.
    rewrite Hih4 in Hih'. by injection Hih' as <-. }
  split; [done|]. split; [done|].
  split.
  { rewrite Hk2, Ht2.
    replace (length ((heap w ++ ONdarray s :: idx) ++ [OMatrix h]))
      with (length (heap w) + length idx + 2)
      by (rewrite !length_app; cbn; lia).
    replace (length (heap w ++ ONdarray s :: idx))
      with (length (heap w) + length idx + 1)
      by (rewrite !length_app; cbn; lia).
    by repeat (rewrite <- app_assoc || cbn). }
  split. { repeat (rewrite length_app || cbn). lia. }
  split; [done|]. split.
  - intros Hn. destruct (Hnone Hn) as (H1 & H2 & H3).
    split; [|done]. rewrite H1. by rewrite length_app, Nat.add_comm.
  - intros Hn. by destruct (Hkeep Hn).
Qed.

Lemma for_each_app {A} (body : A -> M unit) (l1 l2 : list A) (w : world) :
  for_each body (l1 ++ l2) w =
    match for_each body l1 w with
    | Ret _ w' => for_each body l2 w'
    | Raise e w' => Raise e w'
    end.
Proof.
  revert w. induction l1 as [|x l1 IH]; intros w; [done|].
  simpl. unfold mbind, M_bind. destruct (body x w) as [[] w1|e w1]; [|done].
  apply IH.
Qed.

Lemma queue_unfold atoms cell reqid w :
  queue atoms cell reqid w =
    match build_request atoms cell reqid w with
    | Raise e w1 => Raise e w1
    | Ret r w1 =>
        if ff_threaded (self w1) then Ret r (append_request r w1)
        else match poll (append_request r w1) with
             | Ret _ w2 => Ret r w2
             | Raise e w2 => Raise e w2
             end
    end.
Proof.
  unfold queue. unfold mbind at 1. unfold M_bind at 1.
  destruct (build_request atoms cell reqid w) as [r w1|e w1]; [|done].
  unfold append_request. msimpl. cbn.
  destruct (ff_threaded (self w1)); [done|].
  match goal with |- context [poll ?x] => by destruct (poll x) as [[] ?|] end.
Qed.

Lemma poll_frame w :
  evolves kept_unless_queued w (final (poll w))
  /\ self (final (poll w)) = self w
  /\ length (heap (final (poll w))) = length (heap w)
  /\ forall l, l ∉ requests w -> heap (final (poll w)) !! l = heap w !! l.
Proof.
  unfold poll. msimpl.
  destruct (for_each_updates_frame kept_unless_queued poll_one (requests w)
              poll_one_updates w) as (Hs & Hc & Hl & Hf).
  split; [|done].
  apply for_each_evolves.
  - apply kept_unless_queued_refl.
  - apply kept_unless_queued_trans.
  - intros x w0. eapply updates_at_evolves; [apply kept_unless_queued_refl
      |apply kept_unless_queued_trans|apply poll_one_updates].
Qed.

Lemma stop_frame w :
  evolves kept_if_exit w (final (stop w))
  /\ requests (final (stop w)) = requests w
  /\ length (heap (final (stop w))) = length (heap w)
  /\ forall l, l ∉ requests w -> heap (final (stop w)) !! l = heap w !! l.
Proof.
  unfold stop. msimpl.
  set (w1 := set_self (ff_set_doloop false (self w)) w).
  destruct (for_each_updates_frame kept_if_exit stop_one (requests w)
              stop_one_updates w1) as (Hs & Hc & Hl & Hf).
  assert (evolves kept_if_exit w1 (final (for_each stop_one (requests w) w1))) as He.
  { apply for_each_evolves.
    - apply kept_if_exit_refl.
    - apply kept_if_exit_trans.
    - intros x w0. eapply updates_at_evolves; [apply kept_if_exit_refl
        |apply kept_if_exit_trans|apply stop_one_updates]. }
  split; [|split; [|done]].
  - destruct He as (Hh & Hcfg & Hck). split; [done|]. split; [|done].
    eapply config_kept_trans; [|exact Hcfg]. by repeat split.
  - change (requests w1) with (requests w). unfold requests in *. by rewrite Hs.
Qed.

Lemma evolves_append Q w w' r :
  evolves Q w w' -> evolves Q w (append_request r w').
Proof. intros (? & ? & ?). by split. Qed.

Lemma built_evolves Q w atoms cell reqid o :
  (forall r, Q r r) -> built w atoms cell reqid o -> evolves Q w (final o).
Proof.
  intros HQ [Hr Hc Hk Hh]. split; [|done].
  assert (exists extra, heap (final o) = heap w ++ extra) as [extra ->].
  { destruct o as [r w'|e w']; cbn in *.
    - destruct Hh as (q & s & idx & h & ih & _ & _ & _ & _ & _ & _ & -> & _).
      eauto.
    - destruct Hh as (extra & _ & ->). eauto. }
  apply heap_evolves_app. by apply heap_evolves_refl.
Qed.

Lemma queue_evolves atoms cell reqid w :
  evolves kept_unless_queued w (final (queue atoms cell reqid w)).
Proof.
  rewrite queue_unfold.
  pose proof (build_request_built atoms cell reqid w) as Hb.
  pose proof (built_evolves kept_unless_queued _ _ _ _ _
                kept_unless_queued_refl Hb) as He.
  destruct (build_request atoms cell reqid w) as [r w1|e w1]; [|done].
  cbn in He. destruct (ff_threaded (self w1)).
  { cbn. by apply evolves_append. }
  destruct (poll_frame (append_request r w1)) as (Hp & _).
  assert (evolves kept_unless_queued w (final (poll (append_request r w1)))).
  { eapply evolves_trans; [apply kept_unless_queued_trans| |exact Hp].
    by apply evolves_append. }
  by destruct (poll (append_request r w1)) as [[] ?|].
Qed.

Lemma release_frame r w :
  heap (final (release r w)) = heap w
  /\ config_kept (self w) (self (final (release r w)))
  /\ clock (final (release r w)) = clock w.
Proof.
  destruct (release_cases r w) as [[_ ->]|[_ (rs' & _ & ->)]]; cbn.
  - split; [done|]. split; [apply config_kept_refl|done].
  - split; [done|]. split; [|done]. by repeat split.
Qed.

Lemma start_frame w :
  heap (final (start w)) = heap w
  /\ requests (final (start w)) = requests w
  /\ config_kept (self w) (self (final (start w)))
  /\ clock (final (start w)) = clock w.
Proof.
  unfold start. msimpl. destruct (ff_thread (self w)); cbn.
  - split; [done|]. split; [done|]. split; [apply config_kept_refl|done].
  - destruct (ff_threaded (self w)); cbn.
    + split; [done|]. split; [done|]. split; [|done]. by repeat split.
    + split; [done|]. split; [done|]. split; [apply config_kept_refl|done].
Qed.

(** Every operation but [stop] keeps the requests that are not
    [Queued]; every operation keeps those that are [Exit]. *)
Lemma step_evolves_unless_stop o w :
  o <> OpStop -> evolves kept_unless_queued w (step o w).
Proof.
  intros Hne. destruct o as [atoms cell reqid| |r| |]; cbn; try done.
  - apply queue_evolves.
  - apply poll_frame.
  - destruct (release_frame r w) as (Hh & Hc & Hk). split; [|done].
    rewrite Hh. apply heap_evolves_refl, kept_unless_queued_refl.
  - destruct (start_frame w) as (Hh & _ & Hc & Hk). split; [|done].
    rewrite Hh. apply heap_evolves_refl, kept_unless_queued_refl.
Qed.

Lemma step_evolves o w : evolves kept_if_exit w (step o w).
Proof.
  assert (o = OpStop \/ o <> OpStop) as [->|Hne]
    by (destruct o; auto; right; discriminate).
  - apply stop_frame.
  - eapply evolves_mono; [apply kept_unless_queued_weaken|].
    by apply step_evolves_unless_stop.
Qed.

Lemma run_evolves ops : forall w, evolves kept_if_exit w (run ops w).
Proof.
  induction ops as [|o ops IH]; intros w; cbn.
  - apply evolves_refl, kept_if_exit_refl.
  - eapply evolves_trans; [apply kept_if_exit_trans|apply step_evolves|apply IH].
Qed.

Lemma run_evolves_unless_stop ops : forall w,
  OpStop ∉ ops -> evolves kept_unless_queued w (run ops w).
Proof.
  induction ops as [|o ops IH]; intros w Hns; cbn.
  - apply evolves_refl, kept_unless_queued_refl.
  - apply not_elem_of_cons in Hns as [Hne Hns].
    eapply evolves_trans; [apply kept_unless_queued_trans| |by apply IH].
    apply step_evolves_unless_stop. congruence.
Qed.

Lemma heap_evolves_is_request Q h h' r :
  heap_evolves Q h h' -> is_request h r -> is_request h' r.
Proof.
  intros He (req & Hr). destruct (He r _ Hr) as (o' & Ho' & Hev).
  cbn in Hev. destruct Hev as (r' & -> & _). by exists r'.
Qed.

Lemma wf_evolves Q w w' :
  wf w -> heap_evolves Q (heap w) (heap w') -> requests w' = requests w -> wf w'.
Proof.
  intros (Hnd & Hreq) He Hr. split; rewrite Hr; [done|].
  intros r Hin. eapply heap_evolves_is_request; eauto.
Qed.

Lemma wf_fresh w r : wf w -> length (heap w) <= r -> r ∉ requests w.
Proof.
  intros (_ & Hreq) Hle Hin. destruct (Hreq r Hin) as (req & Hl).
  apply lookup_lt_Some in Hl. lia.
Qed.

Lemma wf_append w r :
  wf w -> r ∉ requests w -> is_request (heap w) r -> wf (append_request r w).
Proof.
  intros (Hnd & Hreq) Hnin Hr. split; cbn.
  - apply NoDup_app. split; [done|]. split; [|apply NoDup_singleton].
    intros x Hx Hx'. apply list_elem_of_singleton in Hx'. by subst.
  - intros x Hx. apply elem_of_app in Hx as [Hx|Hx]; [by apply Hreq|].
    apply list_elem_of_singleton in Hx. by subst.
Qed.

Lemma lookup_built_request (h idx : list obj) (s a b c : obj) :
  (h ++ [s] ++ idx ++ [a; b; c]) !! (length h + length idx + 3) = Some c.
Proof.
  replace (h ++ [s] ++ idx ++ [a; b; c])
    with ((h ++ [s] ++ idx ++ [a; b]) ++ c :: [])
    by (by repeat (rewrite <- app_assoc || cbn)).
  apply list_lookup_middle. repeat (rewrite length_app || cbn). lia.
Qed.

(** After [build_request] has returned [r], the new request is at [r],
    a fresh address, and its positions are at a fresh address too. *)
Lemma built_request w atoms cell reqid r w1 :
  built w atoms cell reqid (Ret r w1) ->
  exists q s req,
    heap w !! atoms_q atoms = Some (ONdarray q)
    /\ length s = length q
    /\ heap w1 !! r = Some (ORequest req)
    /\ heap w1 !! length (heap w) = Some (ONdarray s)
    /\ length (heap w) < r
    /\ req_pos req = length (heap w)
    /\ req_status req = Queued
    /\ req_active req = ff_iactive (self w1)
    /\ heap_evolves eq (heap w) (heap w1).
Proof.
  intros [_ _ _ Hh]. cbn in Hh.
  destruct Hh
    as (q & s & idx & h & ih & Hq & _ & _ & _ & Hs & _ & Hheap & -> & _).
  exists q, s. eexists. split; [done|]. split; [done|].
  rewrite Hheap. split; [apply lookup_built_request|].
  split; [by rewrite list_lookup_middle|]. split; [lia|].
  split; [done|]. split; [done|]. split; [done|].
  apply heap_evolves_app, heap_evolves_refl. done.
Qed.

Lemma wf_queue atoms cell reqid w :
  wf w -> wf (final (queue atoms cell reqid w)).
Proof.
  intros Hwf. rewrite queue_unfold.
  pose proof (build_request_built atoms cell reqid w) as Hb.
  destruct (build_request atoms cell reqid w) as [r w1|e w1] eqn:Hbr.
  2: { cbn. destruct Hb as [Hr _ _ (extra & _ & Hh)]. cbn in *.
       eapply (wf_evolves eq); [done| |done]. rewrite Hh.
       apply heap_evolves_app, heap_evolves_refl. done. }
  destruct (built_request _ _ _ _ _ _ Hb)
    as (q & s & req & _ & _ & Hr & _ & Hlt & _ & _ & _ & Hev).
  destruct Hb as [Hreqs _ _ _]. cbn in Hreqs.
  assert (wf w1) as Hwf1 by (by eapply wf_evolves).
  assert (wf (append_request r w1)) as Hwf2.
  { apply wf_append; [done| |by eexists].
    rewrite Hreqs. apply wf_fresh; [done|lia]. }
  destruct (ff_threaded (self w1)); [done|].
  destruct (poll_frame (append_request r w1)) as ((He & _) & Hs & _).
  assert (wf (final (poll (append_request r w1)))).
  { eapply wf_evolves; [exact Hwf2|exact He|]. unfold requests. by rewrite Hs. }
  by destruct (poll (append_request r w1)) as [[] ?|].
Qed.

Lemma wf_release r w : wf w -> wf (final (release r w)).
Proof.
  intros (Hnd & Hreq).
  destruct (release_cases r w) as [[_ ->]|[Hin (rs' & Hrm & ->)]]; [done|].
  destruct (py_remove_in r _ Hin) as (l' & Hrm' & _ & _ & Hsub & Hnd').
  rewrite Hrm in Hrm'. injection Hrm' as <-. split; cbn.
  - by apply Hnd'.
  - intros x Hx. apply Hreq. by apply Hsub.
Qed.

Lemma wf_step o w : wf w -> wf (step o w).
Proof.
  intros Hwf. destruct o as [atoms cell reqid| |r| |]; cbn.
  - by apply wf_queue.
  - destruct (poll_frame w) as ((He & _) & Hs & _).
    eapply wf_evolves; [done|exact He|]. unfold requests. by rewrite Hs.
  - by apply wf_release.
  - destruct (stop_frame w) as ((He & _) & Hr & _). by eapply wf_evolves.
  - destruct (start_frame w) as (Hh & Hr & _).
    eapply (wf_evolves eq); [done| |done]. rewrite Hh.
    by apply heap_evolves_refl.
Qed.

Lemma wf_run ops : forall w, wf w -> wf (run ops w).
Proof.
  induction ops as [|o ops IH]; intros w Hwf; [done|].
  cbn. apply IH. by apply wf_step.
Qed.

Lemma initial_wf w : initial w -> wf w.
Proof.
  intros (Hr & _). split; rewrite Hr; [apply NoDup_nil_2|].
  intros r Hin. inversion Hin.
Qed.

Lemma reachable_wf w : reachable w -> wf w.
Proof. intros (w0 & ops & Hi & ->). by apply wf_run, initial_wf. Qed.

Lemma reachable_step o w : reachable w -> reachable (step o w).
Proof.
  intros (w0 & ops & Hi & ->). exists w0, (ops ++ [o]). split; [done|].
  unfold run. by rewrite fold_left_app.
Qed.

(** In serial mode the request that [queue] returns has been polled
    before [queue] returns. *)
Lemma queue_serial atoms cell reqid w r w' :
  wf w -> ff_threaded (self w) = false ->
  queue atoms cell reqid w = Ret r w' ->
  exists q t1 t2 req,
    heap w !! atoms_q atoms = Some (ONdarray q)
    /\ req_status req = Queued
    /\ heap w' !! r = Some (ORequest (polled t1 t2 (length q) req))
    /\ length (heap w) < r.
Proof.
  intros Hwf Hthr. rewrite queue_unfold.
  pose proof (build_request_built atoms cell reqid w) as Hb.
  destruct (build_request atoms cell reqid w) as [r1 w1|e w1]; [|done].
  destruct (built_request _ _ _ _ _ _ Hb)
    as (q & s & req & Hq & Hlen & Hr & Hpos & Hlt & Hrp & Hst & _ & Hev).
  destruct Hb as [Hreqs (_ & _ & _ & Hthr1 & _) _ _]. cbn in Hreqs, Hthr1.
  rewrite Hthr1, Hthr.
  unfold poll. msimpl. cbn. rewrite Hreqs, for_each_app.
  set (w2 := append_request r1 w1).
  destruct (for_each_updates_frame kept_unless_queued poll_one (requests w)
              poll_one_updates w2) as (_ & _ & _ & Hf).
  destruct (for_each poll_one (requests w) w2) as [[] w3|e w3]; [|done].
  cbn in Hf. cbn.
  assert (heap w3 !! r1 = Some (ORequest req)) as Hr3.
  { rewrite Hf; [done|]. apply wf_fresh; [done|lia]. }
  assert (heap w3 !! req_pos req = Some (ONdarray s)) as Hpos3.
  { rewrite Hrp, Hf; [done|]. by apply wf_fresh. }
  unfold mbind, M_bind. rewrite (poll_one_queued _ _ _ _ Hr3 Hst Hpos3).
  cbn. intros [= <- <-]. exists q. eexists _, _, req.
  split; [done|]. split; [done|]. split; [|done]. cbn.
  rewrite list_lookup_insert_eq by (by apply lookup_lt_Some in Hr3).
  by rewrite Hlen.
Qed.

(** * The claims *)

(** C1. Equality of request records is identity: [a == b] holds exactly
    when [a] and [b] are the same object, and so does membership in a
    list.  Two records built from the same field values are two
    objects, unequal to each other.  [release] of a record that is not
    the queued one leaves the queued one in the queue, and removes
    nothing when the record given is not in the queue. *)
Theorem C1_identity_equality :
  (forall a b : loc, ForceRequest_eq a b = true <-> a = b)
  /\ (forall (a : loc) (rs : list loc), py_in a rs = true <-> a ∈ rs)
  /\ (forall d w, exists a b w',
        (a ← new_ForceRequest d; b ← new_ForceRequest d; mret (a, b)) w
          = Ret (a, b) w'
        /\ heap w' !! a = Some (ORequest d)
        /\ heap w' !! b = Some (ORequest d)
        /\ a <> b /\ ForceRequest_eq a b = false
        /\ py_in b [a] = false)
  /\ (forall w a b,
        a ∈ requests w -> b <> a ->
        a ∈ requests (final (release b w))
        /\ ((b ∉ requests w) -> release b w = Ret tt w)).
Proof.
  split; [apply ForceRequest_eq_spec|]. split; [apply py_in_spec|]. split.
  - intros d w. exists (length (heap w)), (S (length (heap w))). eexists.
    split.
    { unfold new_ForceRequest, alloc, mbind, M_bind, mret, M_ret. cbn.
      rewrite length_app. cbn. rewrite Nat.add_1_r. reflexivity. }
    cbn. split.
    { rewrite <- app_assoc. cbn. by rewrite list_lookup_middle. }
    split.
    { rewrite (list_lookup_middle _ [] _ (S (length (heap w)))); [done|].
      rewrite length_app. cbn. lia. }
    split; [lia|].
    assert (ForceRequest_eq (length (heap w)) (S (length (heap w))) = false) as E.
    { unfold ForceRequest_eq. apply Nat.eqb_neq. lia. }
    split; [done|]. unfold py_in. cbn. by rewrite E.
  - intros w a b Hin Hne.
    destruct (release_cases b w) as [[Hnin ->]|[Hb (rs' & Hrm & ->)]].
    + by split.
    + split; [|done]. cbn.
      destruct (py_remove_in b _ Hb) as (l' & Hrm' & _ & Hkeep & _).
      rewrite Hrm in Hrm'. injection Hrm' as <-. by apply Hkeep.
Qed.

Lemma C1_identity_equality_witness :
  7 ∈ requests (final (release 8 (example_queued true)))
  /\ ((8 ∉ requests (example_queued true)) ->
      release 8 (example_queued true) = Ret tt (example_queued true)).
Proof.
  apply (proj2 (proj2 (proj2 C1_identity_equality)) (example_queued true) 7 8).
  - apply py_in_spec. vm_compute. reflexivity.
  - lia.
Defined.

(** C3. [release] of a record that is not in the queue changes nothing
    and raises nothing; [release] never raises; and in a reachable
    state, releasing a queued record twice removes exactly one entry,
    the second call doing nothing. *)
Theorem C3_release_absent_is_noop :
  (forall w r, (r ∉ requests w) -> release r w = Ret tt w)
  /\ (forall w r, exists w', release r w = Ret tt w' /\ heap w' = heap w)
  /\ (forall w r, reachable w -> r ∈ requests w ->
        exists w1, release r w = Ret tt w1
          /\ length (requests w) = S (length (requests w1))
          /\ (r ∉ requests w1)
          /\ (forall x, x <> r -> x ∈ requests w -> x ∈ requests w1)
          /\ release r w1 = Ret tt w1).
Proof.
  split; [|split].
  - intros w r Hnin.
    destruct (release_cases r w) as [[_ ->]|[Hin _]]; [done|]. by destruct Hnin.
  - intros w r.
    destruct (release_cases r w) as [[_ ->]|[_ (rs' & _ & ->)]]; eauto.
  - intros w r Hreach Hin. apply reachable_wf in Hreach as (Hnd & _).
    destruct (release_cases r w) as [[Hnin _]|[_ (rs' & Hrm & ->)]]; [done|].
    destruct (py_remove_in r _ Hin) as (l' & Hrm' & Hlen & Hkeep & _ & Hnd').
    rewrite Hrm in Hrm'. injection Hrm' as <-.
    destruct (Hnd' Hnd) as (Hnin' & _).
    eexists. split; [done|]. cbn. split; [done|]. split; [done|].
    split; [done|].
    match goal with |- release r ?w1 = _ =>
      destruct (release_cases r w1) as [[_ ->]|[Hin' _]]; [done|] end.
    by destruct Hnin'.
Qed.

Lemma example_queued_reachable threaded : reachable (example_queued threaded).
Proof.
  exists (example_world [(-1)%Z] threaded),
         [OpQueue example_atoms example_cell 0].
  split; [by split|reflexivity].
Qed.

Lemma C3_release_absent_is_noop_witness :
  release 8 (example_queued true) = Ret tt (example_queued true)
  /\ exists w1, release 7 (example_queued true) = Ret tt w1
       /\ length (requests (example_queued true)) = S (length (requests w1))
       /\ (7 ∉ requests w1)
       /\ (forall x, x <> 7 -> x ∈ requests (example_queued true) -> x ∈ requests w1)
       /\ release 7 w1 = Ret tt w1.
Proof.
  split.
  - apply (proj1 C3_release_absent_is_noop).
    apply py_in_false. vm_compute. reflexivity.
  - apply (proj2 (proj2 C3_release_absent_is_noop)).
    + apply example_queued_reachable.
    + apply py_in_spec. vm_compute. reflexivity.
Defined.

Lemma heap_evolves_request Q h h' l r :
  heap_evolves Q h h' -> h !! l = Some (ORequest r) ->
  exists r', h' !! l = Some (ORequest r') /\ Q r r'.
Proof.
  intros He Hl. destruct (He l _ Hl) as (o' & Ho' & Hev). cbn in Hev.
  destruct Hev as (r' & -> & HQ). eauto.
Qed.

Lemma heap_evolves_ndarray Q h h' l a :
  heap_evolves Q h h' -> h !! l = Some (ONdarray a) -> h' !! l = Some (ONdarray a).
Proof.
  intros He Hl. destruct (He l _ Hl) as (o' & Ho' & Hev). cbn in Hev.
  by subst.
Qed.

Lemma heap_evolves_matrix Q h h' l m :
  heap_evolves Q h h' -> h !! l = Some (OMatrix m) -> h' !! l = Some (OMatrix m).
Proof.
  intros He Hl. destruct (He l _ Hl) as (o' & Ho' & Hev). cbn in Hev.
  by subst.
Qed.


(** [stop] sets every queued request to [Exit]. *)
Lemma stop_marks w l :
  wf w -> l ∈ requests w ->
  exists r', heap (final (stop w)) !! l = Some (ORequest r')
    /\ req_status r' = Exit.
Proof.
  intros (_ & Hreq) Hin. unfold stop.
  unfold mbind at 1. unfold M_bind at 1. unfold modify at 1.
  set (w1 := set_self (ff_set_doloop false (self w)) w).
  unfold mbind, M_bind, gets. change (requests w1) with (requests w).
  destruct (for_each_stop_one (requests w) w1) as (w' & Hrun & Hall).
  { intros r Hr. by apply Hreq. }
  rewrite Hrun. cbn. by apply Hall.
Qed.

(** C2, the part that fails: a request that is [Done] and still in the
    queue is set to [Exit] by [stop]. *)
Lemma C2_stop_overwrites_done :
  (exists r, heap (example_queued false) !! 7 = Some (ORequest r)
     /\ req_status r = Done)
  /\ (exists r', heap (step OpStop (example_queued false)) !! 7
                 = Some (ORequest r')
       /\ req_status r' = Exit).
Proof. split; eexists; (split; [vm_compute; reflexivity|reflexivity]). Qed.

(** C2, amended, for calls that do not overlap: in [run] every
    operation ends before the next one starts.  A request whose status
    is [Exit] is then changed by no operation ([queue], [poll],
    [release], [stop], [start]).  A request whose status is [Done] is
    changed by no operation other than [stop]; [stop] leaves it as it
    is when it has been released, and sets it to [Exit] when it is
    still in the queue.  A [stop] that runs inside [poll] is treated
    after this theorem. *)
Theorem C2_terminal_states (w : world) (l : loc) (r : ForceRequest) :
  heap w !! l = Some (ORequest r) ->
  (req_status r = Exit ->
   forall ops, heap (run ops w) !! l = Some (ORequest r))
  /\ (req_status r = Done ->
      forall ops, (OpStop ∉ ops) -> heap (run ops w) !! l = Some (ORequest r))
  /\ (req_status r = Done -> (l ∉ requests w) ->
      heap (step OpStop w) !! l = Some (ORequest r))
  /\ (req_status r = Done -> reachable w -> l ∈ requests w ->
      exists r', heap (step OpStop w) !! l = Some (ORequest r')
        /\ req_status r' = Exit).
Proof.
  intros Hl. split; [|split; [|split]].
  - intros Hst ops. destruct (run_evolves ops w) as (He & _).
    destruct (heap_evolves_request _ _ _ _ _ He Hl) as (r' & Hr' & _ & _ & _ & Hk).
    by rewrite (Hk Hst) in Hr'.
  - intros Hst ops Hns. destruct (run_evolves_unless_stop ops w Hns) as (He & _).
    destruct (heap_evolves_request _ _ _ _ _ He Hl) as (r' & Hr' & _ & _ & _ & Hk).
    rewrite Hk in Hr'; [done|]. by rewrite Hst.
  - intros _ Hnin. cbn. destruct (stop_frame w) as (_ & _ & _ & Hf).
    by rewrite Hf.
  - intros _ Hreach Hin. cbn. apply stop_marks; [|done]. by apply reachable_wf.
Qed.

Lemma C2_terminal_states_witness :
  exists r,
    heap (example_queued false) !! 7 = Some (ORequest r)
    /\ req_status r = Done
    /\ heap (run [OpPoll; OpRelease 7; OpPoll] (example_queued false)) !! 7
       = Some (ORequest r)
    /\ exists r', heap (step OpStop (example_queued false)) !! 7
                  = Some (ORequest r')
         /\ req_status r' = Exit.
Proof.
  eexists. split; [vm_compute; reflexivity|]. split; [reflexivity|].
  match goal with |- ?G /\ _ =>
    match G with heap _ !! _ = Some (ORequest ?r) =>
      pose proof (C2_terminal_states (example_queued false) 7 r
                    ltac:(vm_compute; reflexivity)) as (_ & Hdone & _ & Hstop)
    end end.
  split.
  - apply Hdone; [reflexivity|].
    intros Hin. repeat (apply elem_of_cons in Hin as [Hin|Hin]; [discriminate|]).
    inversion Hin.
  - apply Hstop; [reflexivity|apply example_queued_reachable|].
    apply py_in_spec. vm_compute. reflexivity.
Defined.

(** ** Calls that overlap *)

(** [poll_one] is its test followed by the assignments. *)
Lemma poll_one_split r w :
  poll_one r w = (b ← poll_test r; if b : bool then poll_answer r else mret tt) w.
Proof.
  unfold poll_one, poll_test, poll_answer. msimpl.
  destruct (heap w !! r) as [[| | |req]|] eqn:Hr; try done.
  destruct (req_status req) eqn:E; try done.
  cbn [heap set_ticks]. rewrite Hr. reflexivity.
Qed.

(** [queue] is its part before the test [self.iactive is None]
    followed by its part after it. *)
Lemma bind_assoc {A B C} (m : M A) (f : A -> M B) (g : B -> M C) w :
  ((m ≫= f) ≫= g) w = (m ≫= (fun x => f x ≫= g)) w.
Proof. unfold mbind, M_bind. by destruct (m w). Qed.

Lemma bind_ext {A B} (m : M A) (f g : A -> M B) w :
  (forall a w', f a w' = g a w') -> (m ≫= f) w = (m ≫= g) w.
Proof. intros H. unfold mbind, M_bind. destruct (m w); [apply H|done]. Qed.

Lemma gets_bind {A B} (f : world -> A) (k : A -> M B) w :
  (gets f ≫= k) w = k (f w) w.
Proof. reflexivity. Qed.

Lemma alloc_bind {B} (o : obj) (k : loc -> M B) w :
  (alloc o ≫= k) w = k (length (heap w)) (set_heap (heap w ++ [o]) w).
Proof. reflexivity. Qed.

Lemma load_ndarray_bind {B} (l : loc) (k : list float -> M B) w :
  (load_ndarray l ≫= k) w
  = match heap w !! l with
    | Some (ONdarray a) => k a w
    | _ => Raise TypeError w
    end.
Proof. unfold load_ndarray, load. msimpl. by destruct (heap w !! l) as [[]|]. Qed.

Lemma bind_cong {A B} (m m' : M A) (f g : A -> M B) w :
  m w = m' w ->
  (forall a w', m w = Ret a w' -> f a w' = g a w') ->
  (m ≫= f) w = (m' ≫= g) w.
Proof.
  intros Hm H. unfold mbind, M_bind. rewrite <- Hm.
  destruct (m w); [by apply H|done].
Qed.

Lemma init_iactive_split npos w :
  init_iactive npos w
  = (if match ff_iactive (self w) with None => true | Some _ => false end
     then build_iactive npos else mret tt) w.
Proof.
  unfold init_iactive, build_iactive. msimpl.
  by destruct (ff_iactive (self w)).
Qed.

Lemma ret_bind {A B} (a : A) (k : A -> M B) w : (mret a ≫= k) w = k a w.
Proof. reflexivity. Qed.

Lemma queue_split atoms cell reqid w :
  queue atoms cell reqid w
  = (x ← queue_begin atoms; queue_end cell reqid x) w.
Proof.
  unfold queue, build_request, queue_begin.
  rewrite !bind_assoc, !gets_bind, !bind_assoc, !load_ndarray_bind.
  destruct (heap w !! atoms_q atoms) as [[q| | |]|]; try reflexivity.
  rewrite !bind_assoc, !alloc_bind.
  set (w3 := set_heap (heap w ++ [ONdarray q]) w).
  rewrite !bind_assoc, !gets_bind.
  rewrite ret_bind.
  unfold queue_end. cbn [ql_is_None ql_npos ql_pbcpos ql_par_str].
  apply bind_cong; [apply init_iactive_split|]. intros [] w4 Hinit.
  destruct (init_iactive_final (length q) w3)
    as (extra & _ & _ & _ & (_ & Hpbc & _) & _).
  rewrite Hinit in Hpbc. cbn [final] in Hpbc.
  rewrite bind_assoc, gets_bind. rewrite Hpbc.
  change (ff_dopbc (self w3)) with (ff_dopbc (self w)).
  apply bind_ext. intros [] w5.
  repeat (rewrite bind_assoc; apply bind_ext; intros ? ?).
  reflexivity.
Qed.

(** The assignments of [poll] on a request, whatever its status. *)
Lemma poll_answer_ret r w req a :
  heap w !! r = Some (ORequest req) ->
  heap w !! req_pos req = Some (ONdarray a) ->
  poll_answer r w =
    Ret tt (set_heap
              (<[r:=ORequest (polled (clock w (ticks w)) (clock w (S (ticks w)))
                                     (length a) req)]> (heap w))
              (set_ticks (S (S (ticks w))) w)).
Proof.
  intros E Hpos. pose proof (lookup_lt_Some _ _ _ E) as Hlt.
  assert (r <> req_pos req) as Hne by (intros Heq; rewrite <- Heq in Hpos; congruence).
  unfold poll_answer. msimpl. rewrite E. cbn.
  rewrite list_lookup_insert_eq by done. cbn.
  rewrite list_lookup_insert_ne by done. rewrite Hpos. cbn.
  rewrite list_lookup_insert_eq by (by rewrite length_insert). cbn.
  rewrite list_lookup_insert_eq by (by rewrite !length_insert). cbn.
  rewrite !list_insert_insert_eq. reflexivity.
Qed.

Lemma stop_returns w :
  wf w -> exists w1, stop w = Ret tt w1.
Proof.
  intros (_ & Hreq). unfold stop.
  unfold mbind at 1. unfold M_bind at 1. unfold modify at 1.
  set (w1 := set_self (ff_set_doloop false (self w)) w).
  unfold mbind, M_bind, gets. change (requests w1) with (requests w).
  destruct (for_each_stop_one (requests w) w1) as (w' & Hrun & Hall).
  { intros r Hr. by apply Hreq. }
  rewrite Hrun. by exists w'.
Qed.

(** [stop] takes no lock.  When it runs between the test of [poll] on
    a request that waits and the assignments under that test, the
    request that [stop] has marked [Exit] ends [Done], with a result:
    its [Exit] is lost. *)
Theorem stop_during_poll (w : world) (r : loc) (req : ForceRequest)
    (q : list float) :
  wf w -> r ∈ requests w ->
  heap w !! r = Some (ORequest req) -> req_status req = Queued ->
  heap w !! req_pos req = Some (ONdarray q) ->
  poll_test r w = Ret true w
  /\ exists w1 w2 req1 req2,
       stop w = Ret tt w1
       /\ heap w1 !! r = Some (ORequest req1) /\ req_status req1 = Exit
       /\ poll_answer r w1 = Ret tt w2
       /\ heap w2 !! r = Some (ORequest req2)
       /\ req_status req2 = Done
       /\ req_result req2
          = Some (mkResult 0%float (np_zeros (length q)) mat3_zeros "").
Proof.
  intros Hwf Hin Hr Hst Hq. split.
  { unfold poll_test. msimpl. by rewrite Hr, Hst. }
  destruct (stop_returns w Hwf) as (w1 & Hstop).
  destruct (stop_marks w r Hwf Hin) as (req1 & Hr1 & Hst1).
  destruct (stop_frame w) as ((He & _) & _).
  rewrite Hstop in Hr1, He. cbn [final] in Hr1, He.
  destruct (heap_evolves_request _ _ _ _ _ He Hr) as (req1' & Hr1' & Hpos & _).
  assert (req1' = req1) as -> by congruence.
  pose proof (heap_evolves_ndarray _ _ _ _ _ He Hq) as Hq1.
  rewrite <- Hpos in Hq1.
  exists w1, (set_heap
                (<[r:=ORequest (polled (clock w1 (ticks w1))
                                       (clock w1 (S (ticks w1)))
                                       (length q) req1)]> (heap w1))
                (set_ticks (S (S (ticks w1))) w1)),
    req1, (polled (clock w1 (ticks w1)) (clock w1 (S (ticks w1)))
                  (length q) req1).
  split; [done|]. split; [done|]. split; [done|].
  split; [by apply (poll_answer_ret r w1 req1 q)|].
  cbn [heap set_heap]. split; [|split; reflexivity].
  apply list_lookup_insert_eq. by apply lookup_lt_Some in Hr1.
Qed.

Lemma stop_during_poll_witness :
  exists req req2 w1 w2,
    heap (example_queued true) !! 7 = Some (ORequest req)
    /\ req_status req = Queued
    /\ poll_test 7 (example_queued true) = Ret true (example_queued true)
    /\ stop (example_queued true) = Ret tt w1
    /\ poll_answer 7 w1 = Ret tt w2
    /\ heap w2 !! 7 = Some (ORequest req2)
    /\ req_status req2 = Done.
Proof.
  assert (exists req q, heap (example_queued true) !! 7 = Some (ORequest req)
                      /\ req_status req = Queued
                      /\ heap (example_queued true) !! req_pos req
                         = Some (ONdarray q)) as (req & q & Hr & Hst & Hpos).
  { eexists _, _. split; [vm_compute; reflexivity|]. split; [reflexivity|].
    vm_compute. reflexivity. }
  destruct (stop_during_poll (example_queued true) 7 req q)
    as (Htest & w1 & w2 & req1 & req2 & Hstop & _ & _ & Hans & Hr2 & Hst2 & _).
  - apply reachable_wf, example_queued_reachable.
  - apply py_in_spec. vm_compute. reflexivity.
  - exact Hr.
  - exact Hst.
  - exact Hpos.
  - by exists req, req2, w1, w2.
Defined.

Lemma queue_all_frame cfgs : forall w,
  evolves kept_unless_queued w (final (queue_all cfgs w))
  /\ (wf w -> wf (final (queue_all cfgs w))).
Proof.
  induction cfgs as [|[[atoms cell] reqid] cfgs IH]; intros w.
  - split; [|done]. apply evolves_refl, kept_unless_queued_refl.
  - cbn. unfold mbind, M_bind.
    pose proof (queue_evolves atoms cell reqid w) as He.
    pose proof (wf_queue atoms cell reqid w) as Hw.
    destruct (queue atoms cell reqid w) as [r w1|e w1]; [|done].
    cbn in He, Hw. destruct (IH w1) as (He1 & Hw1).
    destruct (queue_all cfgs w1) as [rs w2|e w2]; cbn in *.
    + split; [|by auto]. eapply evolves_trans; eauto.
      apply kept_unless_queued_trans.
    + split; [|by auto]. eapply evolves_trans; eauto.
      apply kept_unless_queued_trans.
Qed.

(** C4. In serial mode ([threaded] false) with the base backend, when
    [queue] has been called on N configurations in turn and has
    returned each time, every one of the N requests is [Done], with
    energy 0.0, a zero force array as long as the positions submitted,
    a zero virial and an empty extra string. *)
Theorem C4_serial_submit_polls (cfgs : list (Atoms * Cell * Z)) :
  forall (w : world) (rs : list loc) (w' : world),
    reachable w -> ff_threaded (self w) = false ->
    queue_all cfgs w = Ret rs w' ->
    Forall2 (done_with_zeros w') cfgs rs.
Proof.
  intros w rs w' Hreach. apply reachable_wf in Hreach. revert w rs w' Hreach.
  induction cfgs as [|[[atoms cell] reqid] cfgs IH]; intros w rs w' Hwf Hthr Hrun.
  - cbn in Hrun. injection Hrun as <- <-. constructor.
  - cbn in Hrun. unfold mbind, M_bind in Hrun.
    destruct (queue atoms cell reqid w) as [r w1|e w1] eqn:Hq; [|done].
    pose proof (queue_evolves atoms cell reqid w) as (He & (_ & _ & _ & Hthr1 & _) & _).
    pose proof (wf_queue atoms cell reqid w Hwf) as Hwf1.
    rewrite Hq in He, Hthr1, Hwf1. cbn in He, Hthr1, Hwf1.
    destruct (queue_all_frame cfgs w1) as ((He1 & _) & _).
    destruct (queue_all cfgs w1) as [rs1 w2|e w2] eqn:Hrest; [|done].
    cbn in Hrun, He1. injection Hrun as <- <-.
    constructor.
    + destruct (queue_serial _ _ _ _ _ _ Hwf Hthr Hq)
        as (q & t1 & t2 & req & Hq0 & Hst & Hr & _).
      exists q, (polled t1 t2 (length q) req). cbn.
      split.
      { eapply heap_evolves_ndarray; [exact He1|].
        eapply heap_evolves_ndarray; [exact He|done]. }
      destruct (heap_evolves_request _ _ _ _ _ He1 Hr) as (r' & Hr' & _ & _ & _ & Hk).
      rewrite Hk in Hr' by done. by split.
    + eapply IH; [done| |done]. by rewrite Hthr1.
Qed.

Lemma example_world_reachable active threaded :
  reachable (example_world active threaded).
Proof. exists (example_world active threaded), []. by split. Qed.

Lemma C4_serial_submit_polls_witness :
  exists rs w',
    queue_all example_cfgs (example_world [(-1)%Z] false) = Ret rs w'
    /\ Forall2 (done_with_zeros w') example_cfgs rs.
Proof.
  eexists _, _. split; [vm_compute; reflexivity|].
  eapply (C4_serial_submit_polls example_cfgs (example_world [(-1)%Z] false)).
  - apply example_world_reachable.
  - reflexivity.
  - vm_compute. reflexivity.
Defined.

Lemma expand_active_length active :
  length (expand_active active) = 3 * length active.
Proof.
  unfold expand_active. induction active as [|n l IH]; [done|].
  cbn [flat_map]. rewrite length_app, IH. cbn. lia.
Qed.

Lemma int64_small z : (- 2 ^ 63 <= z < 2 ^ 63)%Z -> int64 z = z.
Proof. intros H. unfold int64. rewrite Z.mod_small; lia. Qed.

Lemma int64_range z : (- 2 ^ 63 <= int64 z < 2 ^ 63)%Z.
Proof.
  unfold int64. pose proof (Z.mod_pos_bound (z + 2 ^ 63) (2 ^ 64)). lia.
Qed.

Lemma expand_active_last active :
  last (expand_active active)
  = (fun n => int64 (int64 (3 * n) + 2)%Z) <$> last active.
Proof.
  unfold expand_active. induction active as [|n l IH]; [done|].
  cbn [flat_map]. rewrite last_app, IH.
  destruct l as [|m l]; [done|].
  change (last (n :: m :: l)) with (last (m :: l)).
  by destruct (last (m :: l)) eqn:E; [|apply last_None in E].
Qed.

Lemma sanity_check_sizing_error active npos :
  sizing_error active npos ->
  sanity_check (expand_active active) npos = Some ValueError.
Proof.
  intros Herr. unfold sanity_check.
  rewrite expand_active_length, expand_active_last.
  destruct (Z.ltb_spec (Z.of_nat npos) (Z.of_nat (3 * length active)))
    as [Hlt|Hge]; [done|].
  destruct Herr as [Hlen|(n & Hlast & Hn)]; [lia|].
  rewrite Hlast. cbn [fmap option_fmap option_map].
  destruct (Z.ltb_spec (Z.of_nat npos - 1) (int64 (int64 (3 * n) + 2)));
    [done|lia].
Qed.

(** The check passes in every other case, whatever the indices before
    the last one are. *)
Lemma sanity_check_passes active npos :
  active <> [] -> ~ sizing_error active npos ->
  sanity_check (expand_active active) npos = None.
Proof.
  intros Hne Hno. unfold sanity_check.
  rewrite expand_active_length, expand_active_last.
  destruct (Z.ltb_spec (Z.of_nat npos) (Z.of_nat (3 * length active)))
    as [Hlt|Hge].
  { destruct Hno. left. lia. }
  destruct (last active) as [n|] eqn:Hlast.
  - cbn [fmap option_fmap option_map].
    destruct (Z.ltb_spec (Z.of_nat npos - 1) (int64 (int64 (3 * n) + 2)))
      as [Hlt|Hge']; [|done].
    destruct Hno. right. by exists n.
  - by apply last_None in Hlast.
Qed.

Lemma sorted_last_ge (l : list Z) n :
  Sorted Z.le l -> n ∈ l -> exists m, last l = Some m /\ (n <= m)%Z /\ m ∈ l.
Proof.
  intros Hs. apply Sorted_StronglySorted in Hs; [|intros ???; lia].
  revert n. induction l as [|a l IH]; intros n Hin; [inversion Hin|].
  apply StronglySorted_inv in Hs as [Hs Hall].
  destruct l as [|b l].
  - apply list_elem_of_singleton in Hin. exists a.
    split; [reflexivity|]. split; [lia|]. apply elem_of_cons. by left.
  - change (last (a :: b :: l)) with (last (b :: l)).
    apply elem_of_cons in Hin as [->|Hin].
    + destruct (IH Hs b) as (m & Hm & Hle & Hmin); [apply elem_of_cons; by left|].
      exists m. split; [done|]. apply Forall_cons in Hall as [Hab _].
      split; [lia|]. apply elem_of_cons. by right.
    + destruct (IH Hs n Hin) as (m & Hm & Hle & Hmin).
      exists m. split; [done|]. split; [done|]. apply elem_of_cons. by right.
Qed.

(** An ascending list that holds an out-of-range index fails the
    check, as long as the coordinates of its indices fit [int64]. *)
Lemma sorted_out_of_range_sizing_error active npos n :
  Sorted Z.le active -> Forall (fun m => (3 * m + 2 < 2 ^ 63)%Z) active ->
  n ∈ active -> (Z.of_nat npos <= 3 * n)%Z ->
  sizing_error active npos.
Proof.
  intros Hs Hfit Hin Hn. right.
  destruct (sorted_last_ge _ _ Hs Hin) as (m & Hm & Hle & Hmin).
  exists m. split; [done|].
  pose proof (proj1 (Forall_forall _ _) Hfit m Hmin) as Hm63. cbv beta in Hm63.
  rewrite (int64_small (3 * m)) by lia. rewrite int64_small by lia. lia.
Qed.

(** C5: the sanity check of [queue] looks at the number of expanded
    indices and at the last of them only, as [int64] arithmetic has
    left it.  So an index beyond the atoms is accepted when it is not
    the last one, and when its coordinate index wraps around.  For the
    2 atoms of the example, the first [queue] with the active atoms
    [5; 0], and with the active atom [2 ^ 62], returns a request that
    is in the queue, and the index array of the force field holds the
    coordinates 15, 16, 17 of atom 5, or the negative indices that
    [3 * 2 ^ 62] has wrapped to. *)
Theorem C5_out_of_range_index_accepted :
  heap (example_world [5; 0]%Z true) !! atoms_q example_atoms
  = Some (ONdarray example_positions)
  /\ length example_positions = 6
  /\ (exists w', queue example_atoms example_cell 0
                       (example_world [5; 0]%Z true) = Ret 7 w'
        /\ requests w' = [7]
        /\ ff_iactive (self w') = Some 4
        /\ heap w' !! 4 = Some (OIndex [15; 16; 17; 0; 1; 2]%Z))
  /\ (exists w', queue example_atoms example_cell 0
                       (example_world [2 ^ 62]%Z true) = Ret 7 w'
        /\ requests w' = [7]
        /\ ff_iactive (self w') = Some 4
        /\ heap w' !! 4
           = Some (OIndex [- 2 ^ 62; - 2 ^ 62 + 1; - 2 ^ 62 + 2]%Z)).
Proof.
  split; [reflexivity|]. split; [reflexivity|].
  split; eexists; (split; [vm_compute; reflexivity|]);
    (split; [reflexivity|]); (split; [reflexivity|]); vm_compute; reflexivity.
Qed.

(** What the sanity check does catch.  On the first [queue], when the
    list of active atoms (not starting with -1) expands to more indices
    than there are coordinates, or when the coordinate index of its
    last atom, as [int64] arithmetic leaves it, is beyond the
    coordinates, [queue] fails with [ValueError]: no request is built,
    the queue is unchanged and the active indices stay unset.  This
    covers every ascending list that holds an out-of-range index and
    whose coordinate indices fit [int64]. *)
Theorem sizing_check_raises (atoms : Atoms) (cell : Cell) (reqid : Z)
    (w : world) (q : list float) (a0 : Z) (rest : list Z) :
  ff_iactive (self w) = None ->
  heap w !! atoms_q atoms = Some (ONdarray q) ->
  ff_active (self w) = a0 :: rest -> a0 <> (-1)%Z ->
  sizing_error (ff_active (self w)) (length q)
  \/ (Sorted Z.le (ff_active (self w))
      /\ Forall (fun m => (3 * m + 2 < 2 ^ 63)%Z) (ff_active (self w))
      /\ exists n, n ∈ ff_active (self w) /\ (Z.of_nat (length q) <= 3 * n)%Z) ->
  exists w',
    queue atoms cell reqid w = Raise ValueError w'
    /\ requests w' = requests w
    /\ ff_iactive (self w') = None
    /\ heap w' = heap w ++ [ONdarray q; OIndex (expand_active (ff_active (self w)))].
Proof.
  intros Hi Hq Ha Ha0 Herr.
  assert (sizing_error (ff_active (self w)) (length q)) as Hsz.
  { destruct Herr as [?|(Hs & Hfit & n & Hin & Hn)]; [done|].
    by eapply sorted_out_of_range_sizing_error. }
  apply sanity_check_sizing_error in Hsz.
  assert (activehere_of (ff_active (self w)) (length q)
          = expand_active (ff_active (self w))) as Hah.
  { unfold activehere_of. rewrite Ha.
    destruct (Z.eqb_spec a0 (-1)); [done|reflexivity]. }
  unfold queue, build_request.
  change (gets self ≫= ?f) with (fun w0 => f (self w0) w0). cbv beta.
  unfold mbind at 1. unfold M_bind at 1. unfold mbind at 1. unfold M_bind at 1.
  unfold load_ndarray, load, mbind at 1, M_bind at 1. rewrite Hq.
  unfold mret at 1. unfold M_ret at 1.
  unfold mbind at 1. unfold M_bind at 1. unfold alloc at 1.
  unfold mbind at 1. unfold M_bind at 1.
  rewrite init_iactive_unset; [|done|cbn; by rewrite Ha].
  cbn [self set_heap]. rewrite Hah, Hsz.
  eexists. split; [reflexivity|]. cbn. split; [done|]. split; [done|].
  by rewrite <- app_assoc.
Qed.

Lemma sizing_check_raises_witness :
  exists w',
    queue example_atoms example_cell 0 (example_world [0; 2]%Z true)
      = Raise ValueError w'
    /\ requests w' = []
    /\ ff_iactive (self w') = None
    /\ heap w' = heap (example_world [0; 2]%Z true)
                 ++ [ONdarray example_positions; OIndex [0; 1; 2; 6; 7; 8]%Z].
Proof.
  apply (sizing_check_raises example_atoms example_cell 0
           (example_world [0; 2]%Z true) example_positions 0%Z [2%Z]).
  - reflexivity.
  - reflexivity.
  - reflexivity.
  - discriminate.
  - right. split; [|split].
    + repeat constructor. cbn. lia.
    + repeat constructor; cbn; lia.
    + exists 2%Z. split; [|cbn; lia]. apply elem_of_cons. right.
      apply elem_of_cons. by left.
Defined.

(** When [queue] returns, [build_request] has returned the same
    request, and what follows has at most polled the queue. *)
Lemma queue_ret atoms cell reqid w r w' :
  queue atoms cell reqid w = Ret r w' ->
  exists w1,
    build_request atoms cell reqid w = Ret r w1
    /\ heap_evolves kept_unless_queued (heap w1) (heap w')
    /\ length (heap w') = length (heap w1)
    /\ self w' = self (append_request r w1).
Proof.
  rewrite queue_unfold.
  destruct (build_request atoms cell reqid w) as [r1 w1|e w1]; [|done].
  destruct (ff_threaded (self w1)).
  - intros [= <- <-]. exists w1. split; [done|]. split; [|done].
    apply heap_evolves_refl, kept_unless_queued_refl.
  - destruct (poll_frame (append_request r1 w1)) as ((He & _) & Hs & Hl & _).
    destruct (poll (append_request r1 w1)) as [[] w2|e w2]; [|done].
    intros [= <- <-]. exists w1. by repeat split.
Qed.





Lemma lookup_built_h (h idx : list obj) (s a b c : obj) :
  (h ++ [s] ++ idx ++ [a; b; c]) !! (length h + length idx + 1) = Some a.
Proof.
  replace (h ++ [s] ++ idx ++ [a; b; c])
    with ((h ++ [s] ++ idx) ++ a :: [b; c])
    by (by repeat (rewrite <- app_assoc || cbn)).
  apply list_lookup_middle. repeat (rewrite length_app || cbn). lia.
Qed.

Lemma lookup_built_ih (h idx : list obj) (s a b c : obj) :
  (h ++ [s] ++ idx ++ [a; b; c]) !! (length h + length idx + 2) = Some b.
Proof.
  replace (h ++ [s] ++ idx ++ [a; b; c])
    with ((h ++ [s] ++ idx ++ [a]) ++ b :: [c])
    by (by repeat (rewrite <- app_assoc || cbn)).
  apply list_lookup_middle. repeat (rewrite length_app || cbn). lia.
Qed.

(** C10. [queue] changes no array and no matrix that was in the store
    before the call, so the caller sees its positions and its cell as
    they were, with or without folding.  When [queue] returns, the
    positions of the new request are a new array, holding the folded
    positions if [dopbc] and the positions as given otherwise, and the
    two cell matrices of the request are new matrices equal to the
    caller's. *)
Theorem C10_queue_keeps_caller_arrays (atoms : Atoms) (cell : Cell)
    (reqid : Z) (w : world) :
  (forall l a, heap w !! l = Some (ONdarray a) ->
     heap (final (queue atoms cell reqid w)) !! l = Some (ONdarray a))
  /\ (forall l m, heap w !! l = Some (OMatrix m) ->
        heap (final (queue atoms cell reqid w)) !! l = Some (OMatrix m))
  /\ (forall r w' h ih,
        queue atoms cell reqid w = Ret r w' ->
        heap w !! cell_h cell = Some (OMatrix h) ->
        heap w !! cell_ih cell = Some (OMatrix ih) ->
        exists q req,
          heap w !! atoms_q atoms = Some (ONdarray q)
          /\ heap w' !! r = Some (ORequest req)
          /\ length (heap w) <= req_pos req
          /\ length (heap w) <= (req_cell req).1
          /\ length (heap w) <= (req_cell req).2
          /\ heap w' !! req_pos req
             = Some (ONdarray (if ff_dopbc (self w)
                               then cell_fold cell h ih q else q))
          /\ heap w' !! (req_cell req).1 = Some (OMatrix h)
          /\ heap w' !! (req_cell req).2 = Some (OMatrix ih)).
Proof.
  destruct (queue_evolves atoms cell reqid w) as (He & _).
  split; [|split].
  - intros l a Hl. by eapply heap_evolves_ndarray.
  - intros l m Hl. by eapply heap_evolves_matrix.
  - intros r w' h ih Hq Hh Hih.
    destruct (queue_ret _ _ _ _ _ _ Hq) as (w1 & Hb & He1 & Hlen & Hs).
    pose proof (build_request_built atoms cell reqid w) as Hbuilt.
    pose proof (built_evolves kept_unless_queued _ _ _ _ _
                  kept_unless_queued_refl Hbuilt) as (He0 & _).
    destruct Hbuilt as [_ _ _ Hheap]. rewrite Hb in Hheap, He0. cbn in Hheap, He0.
    destruct Hheap as (q & s & idx & h1 & ih1 & Hq0 & Hh1 & Hih1 & -> & _ & _
                       & Hheap & -> & _).
    rewrite (heap_evolves_matrix _ _ _ _ _ He0 Hh) in Hh1. injection Hh1 as <-.
    rewrite (heap_evolves_matrix _ _ _ _ _ He0 Hih) in Hih1. injection Hih1 as <-.
    assert (heap w1 !! (length (heap w) + length idx + 3) = Some (ORequest
              (mkReq reqid (length (heap w)) (ff_iactive (self w1))
                 (length (heap w) + length idx + 1,
                  length (heap w) + length idx + 2)
                 (par_str_of (ff_pars (self w))) None Queued (-1)%float
                 (clock w (ticks w)) 0%float 0%float))) as Hr.
    { rewrite Hheap. apply lookup_built_request. }
    destruct (heap_evolves_request _ _ _ _ _ He1 Hr)
      as (r' & Hr' & Hp & _ & Hc & _).
    exists q, r'. split; [done|]. split; [done|].
    rewrite Hp, Hc. cbn. split; [lia|]. split; [lia|]. split; [lia|].
    split; [|split].
    + eapply heap_evolves_ndarray; [exact He1|]. rewrite Hheap.
      by rewrite list_lookup_middle.
    + eapply heap_evolves_matrix; [exact He1|]. rewrite Hheap.
      apply lookup_built_h.
    + eapply heap_evolves_matrix; [exact He1|]. rewrite Hheap.
      apply lookup_built_ih.
Qed.

Lemma C10_queue_keeps_caller_arrays_witness :
  let w := example_world [(-1)%Z] false in
  exists q req,
    heap w !! atoms_q example_atoms = Some (ONdarray q)
    /\ heap (example_queued false) !! 7 = Some (ORequest req)
    /\ length (heap w) <= req_pos req
    /\ length (heap w) <= (req_cell req).1
    /\ length (heap w) <= (req_cell req).2
    /\ heap (example_queued false) !! req_pos req
       = Some (ONdarray (if ff_dopbc (self w)
                         then cell_fold example_cell mat3_zeros mat3_zeros q
                         else q))
    /\ heap (example_queued false) !! (req_cell req).1 = Some (OMatrix mat3_zeros)
    /\ heap (example_queued false) !! (req_cell req).2 = Some (OMatrix mat3_zeros).
Proof.
  cbv zeta.
  apply (proj2 (proj2 (C10_queue_keeps_caller_arrays example_atoms example_cell
                         0%Z (example_world [(-1)%Z] false)))).
  - vm_compute. reflexivity.
  - reflexivity.
  - reflexivity.
Defined.

(** ** The retry loop of [FFCavPh.evaluate] *)

Lemma qc_read_baths_runs dipder files baths : forall tot me,
  cp_runs (qc_read_baths dipder files baths tot me).1 = cp_runs me.
Proof.
  induction baths as [|idx baths IH]; intros tot me; cbn.
  - by destruct dipder.
  - destruct (files idx); try done. by rewrite IH.
Qed.

(** A force evaluation is at most one more run of the external
    program. *)
Lemma calc_runs dipder me :
  cp_runs me <= cp_runs (calc_bare_nuclear_force dipder me).1
  <= S (cp_runs me).
Proof.
  unfold calc_bare_nuclear_force. cbn.
  destruct (cp_name me); cbn.
  - destruct (Nat.eqb _ 0); cbn; lia.
  - destruct (Nat.eqb _ 1); cbn; lia.
  - destruct (Nat.eqb _ 0); [cbn; lia|]. rewrite qc_read_baths_runs. cbn. lia.
  - destruct (dipder || _); [cbn; lia|].
    destruct (cp_driver _ _ _) as [|x [e|]|x]; cbn; lia.
Qed.

(** The loop never uses up the 50 turns that [evaluate] gives it, and
    makes at most [50 - count_retry] evaluations. *)
Lemma retry_fuel_enough dipder fuel : forall count me cur,
  (0 <= count < 50)%Z -> Z.to_nat (50 - count) <= fuel ->
  (retry dipder fuel count me cur).2 <> OutOfFuel
  /\ cp_runs (retry dipder fuel count me cur).1
     <= cp_runs me + Z.to_nat (50 - count).
Proof.
  induction fuel as [|fuel IH]; intros count me cur Hc Hf; [lia|].
  cbn. destruct (cp_error_flag me); [|cbn; split; [done|lia]].
  pose proof (calc_runs dipder me) as Hruns.
  destruct (calc_bare_nuclear_force dipder me) as [me' [x|e]]; cbn in Hruns.
  2: { cbn. split; [done|lia]. }
  destruct (Z.leb_spec 50 (count + 1)) as [Hge|Hlt]; cbn.
  { split; [done|lia]. }
  destruct (IH (count + 1)%Z me' x) as (Hne & Hle); [lia|lia|].
  split; [done|]. lia.
Qed.

Lemma evaluate_forces_bounded me :
  (evaluate_forces me).2 <> OutOfFuel
  /\ cp_runs (evaluate_forces me).1 <= cp_runs me + 51.
Proof.
  unfold evaluate_forces.
  pose proof (calc_runs (cp_apply_photon me) me) as Hruns.
  destruct (calc_bare_nuclear_force (cp_apply_photon me) me) as [me' [x|e]];
    cbn in Hruns.
  2: { cbn. split; [done|lia]. }
  destruct (retry_fuel_enough (cp_apply_photon me) 50 0 me' x) as (Hne & Hle);
    [lia|lia|].
  split; [done|]. lia.
Qed.

(** On the ["qchem-neo"] branch nothing clears the flag: once it is
    set, an evaluation either raises or leaves it set. *)
Lemma qchem_neo_keeps_flag me :
  cp_name me = QchemNeo -> cp_n_independent_bath me = 1 ->
  cp_error_flag me = true ->
  forall me' x,
    calc_bare_nuclear_force false me = (me', CalcValue x) ->
    cp_name me' = QchemNeo /\ cp_n_independent_bath me' = 1
    /\ cp_error_flag me' = true /\ cp_runs me' = S (cp_runs me)
    /\ cp_driver me' = cp_driver me
    /\ raises_nothing (cp_driver me (cp_runs me) 0).
Proof.
  intros Hn Hb Hf me' x. unfold calc_bare_nuclear_force. cbn. rewrite Hn, Hb. cbn.
  destruct (cp_driver me (cp_runs me) 0) as [|y [e|]|y]; intros [= <- <-]; cbn;
    by repeat split.
Qed.

Lemma qchem_neo_returns me :
  cp_name me = QchemNeo -> cp_n_independent_bath me = 1 ->
  raises_nothing (cp_driver me (cp_runs me) 0) ->
  exists me' x, calc_bare_nuclear_force false me = (me', CalcValue x).
Proof.
  intros Hn Hb Hp. unfold calc_bare_nuclear_force. cbn. rewrite Hn, Hb. cbn.
  destruct (cp_driver me (cp_runs me) 0) as [|y [e|]|y]; try by eexists _, _.
  by destruct (Hp y e).
Qed.

Lemma qchem_neo_raises me x e :
  cp_name me = QchemNeo -> cp_n_independent_bath me = 1 ->
  cp_driver me (cp_runs me) 0 = FilesMalformed x (Some e) ->
  calc_bare_nuclear_force false me
  = (set_runs (S (cp_runs me)) me, CalcRaises e).
Proof.
  intros Hn Hb Hm. unfold calc_bare_nuclear_force. cbn.
  by rewrite Hn, Hb, Hm.
Qed.

(** With the flag set, the loop of the ["qchem-neo"] branch never ends
    with values. *)
Lemma qchem_neo_retry_never_got fuel : forall count me cur x,
  cp_name me = QchemNeo -> cp_n_independent_bath me = 1 ->
  cp_error_flag me = true ->
  (retry false fuel count me cur).2 <> Got x.
Proof.
  induction fuel as [|fuel IH]; intros count me cur x Hn Hb Hf; cbn;
    rewrite Hf; [done|].
  destruct (calc_bare_nuclear_force false me) as [me' [y|e]] eqn:Hc; [|done].
  destruct (qchem_neo_keeps_flag me Hn Hb Hf me' y Hc)
    as (Hn' & Hb' & Hf' & _).
  destruct (50 <=? count + 1)%Z; [done|]. by apply IH.
Qed.

Lemma qchem_neo_retry_escalates fuel : forall count me cur,
  cp_name me = QchemNeo -> cp_n_independent_bath me = 1 ->
  cp_error_flag me = true ->
  (0 <= count < 50)%Z -> Z.to_nat (50 - count) <= fuel ->
  (forall j, j < Z.to_nat (50 - count) ->
     raises_nothing (cp_driver me (cp_runs me + j) 0)) ->
  (retry false fuel count me cur).2 = Escalated
  /\ cp_runs (retry false fuel count me cur).1
     = cp_runs me + Z.to_nat (50 - count).
Proof.
  induction fuel as [|fuel IH]; intros count me cur Hn Hb Hf Hc Hfuel Hp; [lia|].
  cbn. rewrite Hf.
  destruct (qchem_neo_returns me Hn Hb) as (me' & x & Hcalc).
  { rewrite <- (Nat.add_0_r (cp_runs me)). apply Hp. lia. }
  rewrite Hcalc.
  destruct (qchem_neo_keeps_flag me Hn Hb Hf me' x Hcalc)
    as (Hn' & Hb' & Hf' & Hr' & Hd' & _).
  destruct (Z.leb_spec 50 (count + 1)) as [Hge|Hlt]; cbn.
  { split; [done|]. rewrite Hr'. lia. }
  destruct (IH (count + 1)%Z me' x Hn' Hb' Hf') as (He & Hruns); [lia|lia| |].
  { intros j Hj. rewrite Hd', Hr'.
    replace (S (cp_runs me) + j) with (cp_runs me + S j) by lia.
    apply Hp. lia. }
  split; [done|]. rewrite Hruns, Hr'. lia.
Qed.

Lemma qchem_neo_retry_raises fuel : forall count me cur k x e,
  cp_name me = QchemNeo -> cp_n_independent_bath me = 1 ->
  cp_error_flag me = true ->
  (0 <= count < 50)%Z -> Z.to_nat (50 - count) <= fuel ->
  k < Z.to_nat (50 - count) ->
  (forall j, j < k -> raises_nothing (cp_driver me (cp_runs me + j) 0)) ->
  cp_driver me (cp_runs me + k) 0 = FilesMalformed x (Some e) ->
  (retry false fuel count me cur).2 = Raised e
  /\ cp_runs (retry false fuel count me cur).1 = cp_runs me + k + 1.
Proof.
  induction fuel as [|fuel IH]; intros count me cur k x e Hn Hb Hf Hc Hfuel Hk
    Hp Hbad; [lia|].
  cbn. rewrite Hf. destruct k as [|k].
  { rewrite Nat.add_0_r in Hbad.
    rewrite (qchem_neo_raises me x e Hn Hb Hbad). cbn. split; [done|lia]. }
  destruct (qchem_neo_returns me Hn Hb) as (me' & y & Hcalc).
  { rewrite <- (Nat.add_0_r (cp_runs me)). apply Hp. lia. }
  rewrite Hcalc.
  destruct (qchem_neo_keeps_flag me Hn Hb Hf me' y Hcalc)
    as (Hn' & Hb' & Hf' & Hr' & Hd' & _).
  destruct (Z.leb_spec 50 (count + 1)) as [Hge|Hlt]; [lia|].
  destruct (IH (count + 1)%Z me' y k x e Hn' Hb' Hf') as (He & Hruns);
    [lia|lia|lia| | |].
  { intros j Hj. rewrite Hd', Hr'.
    replace (S (cp_runs me) + j) with (cp_runs me + S j) by lia.
    apply Hp. lia. }
  { rewrite Hd', Hr'. by replace (S (cp_runs me) + k) with (cp_runs me + S k) by lia. }
  split; [done|]. rewrite Hruns, Hr'. lia.
Qed.

Lemma qchem_neo_missing me :
  cp_name me = QchemNeo -> cp_n_independent_bath me = 1 ->
  cp_driver me (cp_runs me) 0 = FilesMissing ->
  calc_bare_nuclear_force false me
  = (set_error_flag true (set_runs (S (cp_runs me)) me), CalcValue out_zero).
Proof.
  intros Hn Hb Hmiss. unfold calc_bare_nuclear_force. cbn.
  by rewrite Hn, Hb, Hmiss.
Qed.

(** C9, where the code departs from it: with the ["qchem-neo"] program
    and no photons, once the files of one run cannot be read, no
    re-run ends the retries, however good its files are: the
    evaluation never gets values and the request gets no result.  When
    the files of the 50 re-runs raise nothing where the dipoles are
    printed, the program is run 51 times and [softexit.trigger] is
    called; when those of the re-run [k] are the first that raise
    there, their exception ends the evaluation after [k + 1] runs. *)
Theorem C9_qchem_neo_failure_is_fatal (me : FFCavPh) :
  cp_name me = QchemNeo -> cp_n_independent_bath me = 1 ->
  cp_apply_photon me = false ->
  cp_driver me (cp_runs me) 0 = FilesMissing ->
  (forall x, (evaluate_forces me).2 <> Got x)
  /\ (forall r w, exists e w',
        evaluate me r w = Raise e w' /\ heap w' = heap w)
  /\ ((forall j, 1 <= j <= 50 ->
         raises_nothing (cp_driver me (cp_runs me + j) 0)) ->
      (evaluate_forces me).2 = Escalated
      /\ cp_runs (evaluate_forces me).1 = cp_runs me + 51)
  /\ (forall k x e, 1 <= k <= 50 ->
        (forall j, 1 <= j < k ->
           raises_nothing (cp_driver me (cp_runs me + j) 0)) ->
        cp_driver me (cp_runs me + k) 0 = FilesMalformed x (Some e) ->
        (evaluate_forces me).2 = Raised e
        /\ cp_runs (evaluate_forces me).1 = cp_runs me + k + 1).
Proof.
  intros Hn Hb Hp Hmiss.
  set (me1 := set_error_flag true (set_runs (S (cp_runs me)) me)).
  assert (evaluate_forces me = retry false 50 0 me1 out_zero) as Hev.
  { unfold evaluate_forces. by rewrite Hp, (qchem_neo_missing me Hn Hb Hmiss). }
  assert (forall x, (evaluate_forces me).2 <> Got x) as Hnever.
  { intros x. rewrite Hev. by apply qchem_neo_retry_never_got. }
  split; [done|]. split; [|split].
  - intros r w. unfold evaluate, softexit_trigger.
    pose proof (proj1 (evaluate_forces_bounded me)) as Hfuel.
    destruct (evaluate_forces me) as [me' rr]. cbn in Hnever, Hfuel.
    destruct rr as [x| |e|]; [exfalso; by apply (Hnever x)| | |]; msimpl.
    all: destruct (heap w !! r) as [[?|?|?|req]|] eqn:Hr; cbn;
      try (eexists _, _; split; reflexivity).
    all: destruct (heap w !! req_pos req) as [[q|?|?|?]|]; cbn;
      try (eexists _, _; split; reflexivity).
    all: destruct (heap w !! (req_cell req).1) as [[?|?|h|?]|]; cbn;
      eexists _, _; split; reflexivity.
  - intros Hgood. rewrite Hev.
    destruct (qchem_neo_retry_escalates 50 0 me1 out_zero) as (He & Hr);
      [done|done|done|lia|lia| |].
    { intros j Hj. cbn [me1 cp_runs cp_driver set_error_flag set_runs].
      replace (S (cp_runs me) + j) with (cp_runs me + S j) by lia.
      apply Hgood. lia. }
    split; [done|]. rewrite Hr. cbn [me1 cp_runs set_error_flag set_runs]. lia.
  - intros k x e Hk Hgood Hbad. rewrite Hev. destruct k as [|k]; [lia|].
    destruct (qchem_neo_retry_raises 50 0 me1 out_zero k x e) as (He & Hr);
      [done|done|done|lia|lia|lia| | |].
    { intros j Hj. cbn [me1 cp_runs cp_driver set_error_flag set_runs].
      replace (S (cp_runs me) + j) with (cp_runs me + S j) by lia.
      apply Hgood. lia. }
    { cbn [me1 cp_runs cp_driver set_error_flag set_runs].
      by replace (S (cp_runs me) + k) with (cp_runs me + S k) by lia. }
    split; [done|]. rewrite Hr. cbn [me1 cp_runs set_error_flag set_runs]. lia.
Qed.

Lemma C9_qchem_neo_failure_is_fatal_witness :
  ((evaluate_forces (example_cavph QchemNeo 1)).2 = Escalated
   /\ cp_runs (evaluate_forces (example_cavph QchemNeo 1)).1 = 51
   /\ exists e w',
        evaluate (example_cavph QchemNeo 1) 7 (example_queued true)
        = Raise e w'
        /\ heap w' = heap (example_queued true))
  /\ ((evaluate_forces example_short_dipole).2 = Raised IndexError
      /\ cp_runs (evaluate_forces example_short_dipole).1 = 3).
Proof.
  split.
  - destruct (C9_qchem_neo_failure_is_fatal (example_cavph QchemNeo 1))
      as (_ & H2 & H3 & _); try reflexivity.
    destruct H3 as (H3 & H4).
    { intros j Hj x e. cbn [example_cavph cp_driver cp_runs]. unfold good_from.
      by destruct (0 + j <? 1). }
    split; [done|]. split; [done|]. apply H2.
  - destruct (C9_qchem_neo_failure_is_fatal example_short_dipole)
      as (_ & _ & _ & H4); try reflexivity.
    apply (H4 2 example_output IndexError); [lia| |reflexivity].
    intros j Hj x e. assert (j = 1) as -> by lia. done.
Defined.

(** The same single failure with the ["run_qc_driver"] program: the
    second run is good, its values are returned, the flag is cleared
    and the request is [Done]. *)
Lemma run_qc_driver_recovers :
  evaluate_forces (example_cavph RunQcDriver 1)
  = (set_runs 2 (example_cavph RunQcDriver 1),
     Got (out_add out_zero example_output))
  /\ exists me' w' req,
       evaluate (example_cavph RunQcDriver 1) 7 (example_queued true)
         = Ret me' w'
       /\ cp_error_flag me' = false
       /\ heap w' !! 7 = Some (ORequest req)
       /\ req_status req = Done
       /\ req_result req
          = Some (mkResult (0 + 1)%float [0.5%float; 0%float; 0%float]
                           mat3_zeros "").
Proof.
  split; [reflexivity|]. eexists _, _, _.
  split; [vm_compute; reflexivity|]. split; [reflexivity|].
  split; [reflexivity|]. split; reflexivity.
Qed.

(** With the ["run_qc_driver"] program, when the first good run is the
    50th retry, the flag is cleared and [softexit.trigger] is called
    all the same. *)
Lemma run_qc_driver_fiftieth_retry :
  (evaluate_forces (example_cavph RunQcDriver 49)).2
    = Got (out_add out_zero example_output)
  /\ (evaluate_forces (example_cavph RunQcDriver 50)).2 = Escalated
  /\ cp_error_flag (evaluate_forces (example_cavph RunQcDriver 50)).1 = false.
Proof. split; [vm_compute; reflexivity|]. split; vm_compute; reflexivity. Qed.

(** * The fan-in of [FFCavPhFPSocket.queue] *)

(** ** Slices *)

Lemma np_fit_length n v v' : np_fit n v = Some v' -> length v' = n.
Proof.
  unfold np_fit. destruct (Nat.eqb_spec (length v) n) as [<-|Hne].
  - by intros [= <-].
  - destruct v as [|x [|y v]]; try done. intros [= <-]. apply length_replicate.
Qed.

Lemma np_fit_exact n v : length v = n -> np_fit n v = Some v.
Proof. intros <-. unfold np_fit. by rewrite Nat.eqb_refl. Qed.

Lemma slice_assign_length buf lo hi v buf' :
  slice_assign buf lo hi v = Some buf' -> length buf' = length buf.
Proof.
  unfold slice_assign.
  destruct (np_fit _ v) as [v'|] eqn:Hfit; [|done]. cbn. intros [= <-].
  apply np_fit_length in Hfit.
  rewrite !length_app, length_take, length_drop, Hfit. lia.
Qed.

Lemma slice_assign_before buf lo hi v buf' k :
  slice_assign buf lo hi v = Some buf' -> k < lo -> buf' !! k = buf !! k.
Proof.
  unfold slice_assign.
  destruct (np_fit _ v) as [v'|] eqn:Hfit; [|done]. cbn. intros [= <-] Hk.
  destruct (decide (k < length buf)) as [Hlt|Hge].
  - rewrite lookup_app_l by (rewrite length_take; lia).
    apply lookup_take_lt. lia.
  - rewrite (lookup_ge_None_2 buf) by lia. apply lookup_ge_None_2.
    apply np_fit_length in Hfit.
    rewrite !length_app, length_take, length_drop, Hfit. lia.
Qed.

(** An assignment of the right length within the array puts the block
    where the slice is. *)
Lemma slice_assign_block buf lo n v buf' :
  slice_assign buf lo (lo + n) v = Some buf' ->
  length v = n -> lo + n <= length buf ->
  take n (drop lo buf') = v.
Proof.
  unfold slice_assign. intros H Hv Hle.
  replace (Nat.min lo (length buf)) with lo in H by lia.
  replace (Nat.max (Nat.min (lo + n) (length buf)) lo) with (lo + n) in H by lia.
  replace (lo + n - lo) with n in H by lia.
  rewrite (np_fit_exact n v Hv) in H. cbn in H. injection H as <-.
  rewrite drop_app_length' by (rewrite length_take; lia).
  rewrite take_app_length' by done. done.
Qed.

Lemma strided_add_length buf start stop v buf' :
  strided_add buf start stop v = Some buf' -> length buf' = length buf.
Proof.
  unfold strided_add. destruct (np_fit _ v) as [v'|]; [|done]. cbn.
  intros [= <-]. apply length_imap.
Qed.

(** [buf[start:stop:3] += v] leaves alone every element that is not at
    [start], [start + 3], ... below [stop]. *)
Lemma strided_add_other buf start stop v buf' k :
  strided_add buf start stop v = Some buf' ->
  k < start \/ stop <= k \/ (k - start) mod 3 <> 0 ->
  buf' !! k = buf !! k.
Proof.
  unfold strided_add. cbv zeta. destruct (np_fit _ v) as [v'|]; [|done].
  cbn [mbind option_bind]. intros [= <-] Hk. rewrite list_lookup_imap.
  assert ((start <=? k) && (k <? Nat.min stop (length buf))
          && ((k - start) mod 3 =? 0) = false) as Hc.
  { destruct (Nat.leb_spec start k); [|done].
    destruct (Nat.ltb_spec k (Nat.min stop (length buf))); [|done].
    destruct (Nat.eqb_spec ((k - start) mod 3) 0); [|done]. lia. }
  destruct (buf !! k) as [x|] eqn:Hx; [|done].
  unfold fmap, option_fmap, option_map.
  match goal with
  | |- Some (if ?c then _ else _) = _ =>
      replace c with false by (symmetry; exact Hc)
  end.
  done.
Qed.

Lemma block_ext n i a b :
  (forall k, k < n * (i + 1) -> a !! k = b !! k) -> block n i a = block n i b.
Proof.
  intros H. unfold block. apply list_eq. intros j.
  destruct (decide (j < n)) as [Hj|Hj].
  - rewrite !lookup_take_lt, !lookup_drop by done. apply H. lia.
  - by rewrite !lookup_take_ge by lia.
Qed.

Lemma merge_one_ret n acc idx c w res w' :
  merge_one n acc idx c w = Ret res w' ->
  w' = w
  /\ exists req r f,
       heap w !! c = Some (ORequest req) /\ req_result req = Some r
       /\ slice_assign (res_f acc) (n * idx) (n * (idx + 1)) (res_f r) = Some f
       /\ res = mkResult (res_u acc + res_u r)%float f
                         (mat3_add (res_vir acc) (res_vir r))
                         (res_extra acc +:+ res_extra r).
Proof.
  unfold merge_one. msimpl.
  destruct (heap w !! c) as [[| | |req]|]; try done.
  destruct (req_result req) as [r|] eqn:Hr; [|done].
  destruct (slice_assign _ _ _ _) as [f|] eqn:Hf; [|done].
  intros [= <- <-]. split; [done|]. by exists req, r, f.
Qed.

(** The loop that combines the results reads the requests and changes
    nothing; each request holds a result; the energies and the virials
    are added up in the order of the list and the forces of the request
    of index [i] are stored at [n * i]. *)
Lemma merge_from_ret n cs : forall acc idx w res w',
  merge_from n acc idx cs w = Ret res w' ->
  w' = w
  /\ exists ress,
       results_of (heap w) cs ress
       /\ res_u res = fold_left PrimFloat.add (res_u <$> ress) (res_u acc)
       /\ res_vir res = fold_left mat3_add (res_vir <$> ress) (res_vir acc)
       /\ length (res_f res) = length (res_f acc)
       /\ (forall k, k < n * idx -> res_f res !! k = res_f acc !! k)
       /\ (n * (idx + length cs) <= length (res_f acc) ->
           forall i r, ress !! i = Some r -> length (res_f r) = n ->
                       block n (idx + i) (res_f res) = res_f r).
Proof.
  induction cs as [|c cs IH]; intros acc idx w res w'.
  - cbn. intros [= <- <-]. split; [done|]. exists []. repeat split; try done.
    constructor.
  - cbn [merge_from]. unfold mbind, M_bind.
    destruct (merge_one n acc idx c w) as [acc' w1|] eqn:H1; [|done].
    apply merge_one_ret in H1 as (-> & req & r0 & f & Hc & Hr & Hf & ->).
    intros H. apply IH in H as (-> & ress & Hress & Hu & Hv & Hlen & Hpre & Hblk).
    cbn [res_u res_f res_vir] in *.
    pose proof (slice_assign_length _ _ _ _ _ Hf) as Hflen.
    split; [done|]. exists (r0 :: ress). repeat split.
    + constructor; [by exists req|done].
    + done.
    + done.
    + lia.
    + intros k Hk. rewrite Hpre by lia.
      eapply slice_assign_before; [done|lia].
    + intros Hle i r Hi Hr'. cbn [length] in Hle. destruct i as [|i].
      * injection Hi as ->. rewrite Nat.add_0_r.
        rewrite (block_ext n idx _ f).
        -- unfold block. replace (n * (idx + 1)) with (n * idx + n) in Hf by lia.
           eapply slice_assign_block; [done..|lia].
        -- intros k Hk. apply Hpre. lia.
      * replace (idx + S i) with (S idx + i) by lia.
        apply Hblk; [lia|done..].
Qed.

Lemma merge_results_ret npos n cs w res w' :
  merge_results npos n cs w = Ret res w' ->
  w' = w
  /\ exists ress,
       results_of (heap w) cs ress
       /\ res_u res = energy_sum (res_u <$> ress)
       /\ res_vir res = virial_sum (res_vir <$> ress)
       /\ length (res_f res) = npos
       /\ (n * length cs <= npos ->
           forall i r, ress !! i = Some r -> length (res_f r) = n ->
                       block n i (res_f res) = res_f r).
Proof.
  unfold merge_results. intros H.
  apply merge_from_ret in H as (-> & ress & Hress & Hu & Hv & Hlen & _ & Hblk).
  cbn [res_u res_f res_vir] in *. unfold np_zeros in *.
  rewrite length_replicate in *.
  split; [done|]. by exists ress.
Qed.

(** Quotient and remainder by 3, for [lia]. *)
Ltac divmod3_at a :=
  lazymatch goal with
  | _ : a = 3 * (a / 3) + a mod 3 |- _ => fail
  | _ => pose proof (Nat.div_mod_eq a 3);
         pose proof (Nat.mod_upper_bound a 3 ltac:(lia))
  end.

Ltac divmod3 :=
  repeat match goal with
  | |- context [?a mod 3] => divmod3_at a
  | _ : context [?a mod 3] |- _ => divmod3_at a
  | |- context [?a / 3] => divmod3_at a
  | _ : context [?a / 3] |- _ => divmod3_at a
  end.

(** [buf[start:stop:3] += v] adds the item [(k - start) / 3] of the
    right-hand side to the element [k] of the slice. *)
Lemma strided_add_at buf start stop v buf' k :
  strided_add buf start stop v = Some buf' ->
  start <= k -> k < stop -> k < length buf -> (k - start) mod 3 = 0 ->
  exists v' x y,
    np_fit ((Nat.min stop (length buf) - start + 2) / 3) v = Some v'
    /\ buf !! k = Some x /\ v' !! ((k - start) / 3) = Some y
    /\ buf' !! k = Some (x + y)%float.
Proof.
  unfold strided_add. cbv zeta.
  destruct (np_fit _ v) as [v'|] eqn:Hfit; [|done].
  cbn [mbind option_bind]. intros [= <-] H1 H2 H3 H4.
  destruct (lookup_lt_is_Some_2 buf k H3) as [x Hx].
  assert ((k - start) / 3 < length v') as Hlt.
  { rewrite (np_fit_length _ _ _ Hfit). divmod3. lia. }
  destruct (lookup_lt_is_Some_2 v' _ Hlt) as [y Hy].
  exists v', x, y. repeat split; try done.
  rewrite list_lookup_imap, Hx.
  assert ((start <=? k) && (k <? Nat.min stop (length buf))
          && ((k - start) mod 3 =? 0) = true) as Hc.
  { rewrite H4. cbn. rewrite andb_true_r.
    apply andb_true_intro. split; [apply Nat.leb_le|apply Nat.ltb_lt]; lia. }
  unfold fmap, option_fmap, option_map.
  match goal with
  | |- Some (if ?c then _ else _) = _ =>
      replace c with true by (symmetry; exact Hc)
  end.
  match goal with
  | |- Some (match ?o with Some _ => _ | None => _ end) = _ =>
      replace o with (Some y) by (symmetry; exact Hy)
  end.
  done.
Qed.

Lemma slice_assign_tail buf lo v buf' :
  slice_assign buf lo (length buf) v = Some buf' -> lo <= length buf ->
  exists v', np_fit (length buf - lo) v = Some v' /\ drop lo buf' = v'.
Proof.
  unfold slice_assign. cbv zeta. intros H Hlo.
  replace (Nat.min lo (length buf)) with lo in H by lia.
  replace (Nat.max (Nat.min (length buf) (length buf)) lo)
    with (length buf) in H by lia.
  destruct (np_fit _ v) as [v'|] eqn:Hfit; [|done].
  cbn [mbind option_bind] in H. injection H as <-.
  exists v'. split; [done|].
  rewrite drop_app_length' by (rewrite length_take; lia).
  by rewrite drop_all, app_nil_r.
Qed.

(** Steps 4 to 8: the energy gets the photonic energy; in the atomic
    part of the forces the cavity forces are added to the x and the y
    components and the z components stay; the photonic forces fill the
    rest; the virial stays. *)
Lemma add_photon_ret me q_atoms q_phs merged res :
  add_photon me q_atoms q_phs merged = inr res ->
  length q_atoms <= length (res_f merged) ->
  res_vir res = res_vir merged
  /\ length (res_f res) = length (res_f merged)
  /\ if apply_photon (ph me) then
       exists dx dy dz fx fy fx' fy' f_ph,
         calc_dipole_xyz_mm me q_atoms (n_independent_bath me)
           = inr (dx, dy, dz)
         /\ get_nuc_cav_forces (ph me) q_phs dx dy (charge_array me) = (fx, fy)
         /\ np_fit ((length q_atoms + 2) / 3) fx = Some fx'
         /\ np_fit ((length q_atoms - 1 + 2) / 3) fy = Some fy'
         /\ np_fit (length (res_f merged) - length q_atoms)
                   (get_ph_forces (ph me) q_phs dx dy) = Some f_ph
         /\ res_u res = (res_u merged + get_ph_energy (ph me) q_phs dx dy)%float
         /\ drop (length q_atoms) (res_f res) = f_ph
         /\ forall k, k < length q_atoms ->
              (k mod 3 = 0 ->
               exists x y, res_f merged !! k = Some x /\ fx' !! (k / 3) = Some y
                           /\ res_f res !! k = Some (x + y)%float)
              /\ (k mod 3 = 1 ->
                  exists x y, res_f merged !! k = Some x
                              /\ fy' !! (k / 3) = Some y
                              /\ res_f res !! k = Some (x + y)%float)
              /\ (k mod 3 = 2 -> res_f res !! k = res_f merged !! k)
     else res = merged.
Proof.
  unfold add_photon. intros H Hle.
  destruct (apply_photon (ph me)); [|by injection H as <-].
  destruct (calc_dipole_xyz_mm _ _ _) as [e|[[dx dy] dz]]; [done|].
  destruct (get_nuc_cav_forces _ _ _ _ _) as [fx fy] eqn:Hcav.
  destruct (strided_add (res_f merged) _ _ fx) as [f1|] eqn:H1; [|done].
  cbn [mbind option_bind] in H.
  destruct (strided_add f1 _ _ fy) as [f2|] eqn:H2; [|done].
  cbn [mbind option_bind] in H.
  destruct (slice_assign f2 _ _ _) as [f3|] eqn:H3; [|done].
  injection H as <-. cbn [res_u res_f res_vir].
  pose proof (strided_add_length _ _ _ _ _ H1) as L1.
  pose proof (strided_add_length _ _ _ _ _ H2) as L2.
  pose proof (slice_assign_length _ _ _ _ _ H3) as L3.
  split; [done|]. split; [lia|].
  destruct (slice_assign_tail _ _ _ _ H3 ltac:(lia)) as (f_ph & Hph & Htail).
  assert (exists fx', np_fit ((length q_atoms + 2) / 3) fx = Some fx'
            /\ forall k, k < length q_atoms -> k mod 3 = 0 ->
                 exists x y, res_f merged !! k = Some x
                   /\ fx' !! (k / 3) = Some y /\ f1 !! k = Some (x + y)%float)
    as (fx' & Hfx & Hx).
  { destruct (np_fit ((length q_atoms + 2) / 3) fx) as [fx'|] eqn:Hfit.
    - exists fx'. split; [done|]. intros k Hk Hmod.
      destruct (strided_add_at _ _ _ _ _ k H1) as (v' & x & y & Hv & ? & ? & ?);
        [lia|lia|lia|by rewrite Nat.sub_0_r|].
      replace (Nat.min (length q_atoms) (length (res_f merged)) - 0 + 2)
        with (length q_atoms + 2) in Hv by lia.
      assert (v' = fx') as -> by congruence.
      rewrite Nat.sub_0_r in *. by exists x, y.
    - exfalso. unfold strided_add in H1. cbv zeta in H1.
      replace (Nat.min (length q_atoms) (length (res_f merged)) - 0 + 2)
        with (length q_atoms + 2) in H1 by lia.
      by rewrite Hfit in H1. }
  assert (exists fy', np_fit ((length q_atoms - 1 + 2) / 3) fy = Some fy'
            /\ forall k, k < length q_atoms -> k mod 3 = 1 ->
                 exists x y, f1 !! k = Some x
                   /\ fy' !! (k / 3) = Some y /\ f2 !! k = Some (x + y)%float)
    as (fy' & Hfy & Hy).
  { destruct (np_fit ((length q_atoms - 1 + 2) / 3) fy) as [fy'|] eqn:Hfit.
    - exists fy'. split; [done|]. intros k Hk Hmod.
      destruct (strided_add_at _ _ _ _ _ k H2) as (v' & x & y & Hv & ? & ? & ?);
        [divmod3; lia|lia|lia|divmod3; lia|].
      replace (Nat.min (length q_atoms) (length f1) - 1 + 2)
        with (length q_atoms - 1 + 2) in Hv by lia.
      assert (v' = fy') as -> by congruence.
      replace ((k - 1) / 3) with (k / 3) in * by (divmod3; lia).
      by exists x, y.
    - exfalso. unfold strided_add in H2. cbv zeta in H2.
      replace (Nat.min (length q_atoms) (length f1) - 1 + 2)
        with (length q_atoms - 1 + 2) in H2 by lia.
      by rewrite Hfit in H2. }
  exists dx, dy, dz, fx, fy, fx', fy', f_ph.
  rewrite L2, L1 in Hph.
  repeat split; try done.
  - intros Hmod. destruct (Hx k H Hmod) as (x & y & ? & ? & E1).
    exists x, y. repeat split; try done.
    rewrite (slice_assign_before _ _ _ _ _ k H3) by done.
    rewrite (strided_add_other _ _ _ _ _ k H2); [done|].
    divmod3. lia.
  - intros Hmod. destruct (Hy k H Hmod) as (x & y & E0 & ? & E2).
    exists x, y. repeat split; try done.
    + rewrite <- E0. symmetry. apply (strided_add_other _ _ _ _ _ k H1).
      right. right. rewrite Nat.sub_0_r. lia.
    + by rewrite (slice_assign_before _ _ _ _ _ k H3).
  - intros Hmod.
    rewrite (slice_assign_before _ _ _ _ _ k H3) by done.
    rewrite (strided_add_other _ _ _ _ _ k H2) by (divmod3; lia).
    apply (strided_add_other _ _ _ _ _ k H1).
    right. right. rewrite Nat.sub_0_r. lia.
Qed.

Lemma lookup_request_app (h : list obj) (m1 m2 : mat3) l r :
  ((h ++ [OMatrix m1]) ++ [OMatrix m2]) !! l = Some (ORequest r) ->
  h !! l = Some (ORequest r).
Proof.
  intros H. apply lookup_app_Some in H as [H|[_ H]].
  - apply lookup_app_Some in H as [H|[_ H]]; [done|].
    by destruct (l - length h) as [|[|n]].
  - by destruct (l - length (h ++ [OMatrix m1])) as [|[|n]].
Qed.

Lemma aggregate_request_ret cell par_str reqid pbcpos res cs w newreq w' :
  aggregate_request cell par_str reqid pbcpos res cs w = Ret newreq w' ->
  exists h ih l_first l_last first last_,
    head cs = Some l_first /\ last cs = Some l_last
    /\ heap w !! l_first = Some (ORequest first)
    /\ heap w !! l_last = Some (ORequest last_)
    /\ newreq = length (heap w) + 2
    /\ w' = set_heap
              (heap w ++
               [OMatrix h; OMatrix ih;
                ORequest
                  (mkReq reqid pbcpos (ff_iactive (self w))
                         (length (heap w), S (length (heap w))) par_str
                         (Some res) (req_status last_) (req_start first)
                         (req_t_queued first) (req_t_dispatched first)
                         (req_t_finished last_))]) w.
Proof.
  unfold aggregate_request. msimpl.
  destruct (heap w !! cell_h cell) as [[| |h|]|]; try done.
  match goal with
  | |- context [match ?x !! cell_ih cell with _ => _ end] =>
      destruct (x !! cell_ih cell) as [[| |ih|]|]; try done
  end.
  destruct (last cs) as [l_last|]; [|done].
  match goal with
  | |- context [match ?x !! l_last with _ => _ end] =>
      destruct (x !! l_last) as [[| | |last_]|] eqn:Hlast; try done
  end.
  destruct (head cs) as [l_first|]; [|done].
  match goal with
  | |- context [match ?x !! l_first with _ => _ end] =>
      destruct (x !! l_first) as [[| | |first]|] eqn:Hfirst; try done
  end.
  intros [= <- <-].
  apply lookup_request_app in Hlast, Hfirst.
  exists h, ih, l_first, l_last, first, last_.
  repeat split; try done.
  - rewrite !length_app. cbn. lia.
  - unfold set_heap. cbn. f_equal. rewrite !length_app. cbn.
    rewrite <- !app_assoc. cbn.
    by replace (length (heap w) + 1) with (S (length (heap w))) by lia.
Qed.

Lemma bind_ret {A B} (m : M A) (k : A -> M B) w b w' :
  (m ≫= k) w = Ret b w' -> exists a w1, m w = Ret a w1 /\ k a w1 = Ret b w'.
Proof.
  unfold mbind, M_bind. destruct (m w) as [a w1|]; [|done]. by exists a, w1.
Qed.

Lemma combine_ret me cell par_str reqid pbcpos q_atoms q_phs npos n cs w
    newreq w' :
  combine me cell par_str reqid pbcpos q_atoms q_phs npos n cs w
    = Ret newreq w' ->
  exists merged res,
    merge_results npos n cs w = Ret merged w
    /\ add_photon me q_atoms q_phs merged = inr res
    /\ aggregate_request cell par_str reqid pbcpos res cs w = Ret newreq w'.
Proof.
  unfold combine. intros H.
  apply bind_ret in H as (merged & w1 & Hm & H).
  destruct (merge_results_ret _ _ _ _ _ _ Hm) as (-> & _).
  apply bind_ret in H as (res & w2 & Hp & H).
  unfold lift_sum, raise, mret, M_ret in Hp.
  destruct (add_photon me q_atoms q_phs merged) as [e|res'] eqn:Ha;
    cbn in Hp; [done|].
  injection Hp as -> ->. by exists merged, res.
Qed.

Lemma mapM_length {A B} (f : A -> M B) (l : list A) : forall w bs w',
  mapM f l w = Ret bs w' -> length bs = length l.
Proof.
  induction l as [|a l IH]; intros w bs w'; cbn.
  - by intros [= <- <-].
  - intros H. apply bind_ret in H as (b & w1 & _ & H).
    apply bind_ret in H as (bs' & w2 & Hl & H). injection H as <- <-.
    cbn. f_equal. by eapply IH.
Qed.

(** A call of [FFCavPhFPSocket.queue] that returns has read the
    positions, made one request for each bath and combined them, in
    the store as it is when the last of them has been released. *)
Lemma FP_queue_ret me sched atoms cell reqid w newreq me' w' :
  FP_queue me sched atoms cell reqid w = Ret (newreq, me') w' ->
  exists q cs wg,
    heap w !! atoms_q atoms = Some (ONdarray q)
    /\ n_independent_bath me <> 0
    /\ bath_requests me cell (par_str_of (ff_pars (self w))) reqid
                     (split_atom_ph_coord (ph me) q).1 cs
    /\ length cs = n_independent_bath me
    /\ combine me cell (par_str_of (ff_pars (self w))) reqid (length (heap w))
               (split_atom_ph_coord (ph me) q).1
               (split_atom_ph_coord (ph me) q).2 (length q)
               (length (split_atom_ph_coord (ph me) q).1
                  / n_independent_bath me) cs wg
       = Ret newreq w'.
Proof.
  unfold FP_queue. intros H.
  apply bind_ret in H as (ff & w0 & [= <- <-] & H).
  apply bind_ret in H as (q & w0 & Hq & H).
  assert (heap w !! atoms_q atoms = Some (ONdarray q) /\ w0 = w) as [Hq' ->].
  { unfold load_ndarray in Hq. apply bind_ret in Hq as (o & w1 & Ho & Hq).
    unfold load in Ho. destruct (heap w !! atoms_q atoms) as [o'|]; [|done].
    injection Ho as -> ->. destruct o; try done. by injection Hq as -> ->. }
  apply bind_ret in H as (pbcpos & w1 & [= <- <-] & H).
  apply bind_ret in H as ([] & w1 & _ & H).
  destruct (split_atom_ph_coord (ph me) q) as [q_atoms q_phs] eqn:Hsp.
  destruct (Nat.eqb_spec (n_independent_bath me) 0) as [|Hk]; [done|].
  apply bind_ret in H as (cs & w2 & Hcs & H).
  pose proof Hcs as Hb.
  apply mapM_length in Hcs. rewrite length_seq in Hcs.
  apply bind_ret in H as ([] & w3 & _ & H).
  apply bind_ret in H as ([] & w4 & _ & H).
  apply bind_ret in H as (sched' & wg & _ & H).
  apply bind_ret in H as (r & w5 & Hc & H).
  injection H as <- <- <-.
  exists q, cs, wg. rewrite Hsp. repeat split; try done. by exists w1, w2.
Qed.

Lemma split_atom_ph_coord_length p q :
  length (split_atom_ph_coord p q).1 <= length q.
Proof.
  unfold split_atom_ph_coord. destruct (apply_photon p); [|done].
  destruct (n_photon_3 p =? 0); cbn; [lia|]. rewrite length_take. lia.
Qed.

Lemma results_of_app h h' cs ress :
  results_of h cs ress -> results_of (h ++ h') cs ress.
Proof.
  unfold results_of. intros H. eapply Forall2_impl; [exact H|].
  intros c res (req & Hc & Hr).
  exists req. split; [|done]. by apply lookup_app_l_Some.
Qed.

(** [FFCavPhFPSocket.queue], from the requests of the baths to the
    request that it returns. *)
Lemma FP_queue_fan_in me sched atoms cell reqid w newreq me' w' :
  FP_queue me sched atoms cell reqid w = Ret (newreq, me') w' ->
  exists q cs wg merged res h ih l_first l_last first last_ ress,
    heap w !! atoms_q atoms = Some (ONdarray q)
    /\ bath_requests me cell (par_str_of (ff_pars (self w))) reqid
                     (split_atom_ph_coord (ph me) q).1 cs
    /\ length cs = n_independent_bath me
    /\ head cs = Some l_first /\ last cs = Some l_last
    /\ heap wg !! l_first = Some (ORequest first)
    /\ heap wg !! l_last = Some (ORequest last_)
    /\ results_of (heap wg) cs ress
    /\ res_u merged = energy_sum (res_u <$> ress)
    /\ res_vir merged = virial_sum (res_vir <$> ress)
    /\ length (res_f merged) = length q
    /\ (forall i r, ress !! i = Some r ->
          length (res_f r)
          = length (split_atom_ph_coord (ph me) q).1 / n_independent_bath me ->
          block (length (split_atom_ph_coord (ph me) q).1
                   / n_independent_bath me) i (res_f merged) = res_f r)
    /\ add_photon me (split_atom_ph_coord (ph me) q).1
                  (split_atom_ph_coord (ph me) q).2 merged = inr res
    /\ newreq = length (heap wg) + 2
    /\ heap w' =
         heap wg ++
         [OMatrix h; OMatrix ih;
          ORequest
            (mkReq reqid (length (heap w)) (ff_iactive (self wg))
                   (length (heap wg), S (length (heap wg)))
                   (par_str_of (ff_pars (self w)))
                   (Some res) (req_status last_) (req_start first)
                   (req_t_queued first) (req_t_dispatched first)
                   (req_t_finished last_))].
Proof.
  intros H. apply FP_queue_ret in H as (q & cs & wg & Hq & Hk & Hb & Hcs & H).
  apply combine_ret in H as (merged & res & Hm & Hp & H).
  apply merge_results_ret in Hm as (_ & ress & Hress & Hu & Hv & Hlen & Hblk).
  apply aggregate_request_ret in H
    as (h & ih & l_first & l_last & first & last_ & ? & ? & ? & ? & ? & ->).
  exists q, cs, wg, merged, res, h, ih, l_first, l_last, first, last_, ress.
  repeat split; try done.
  apply Hblk. rewrite Hcs.
  pose proof (split_atom_ph_coord_length (ph me) q).
  pose proof (Nat.Div0.mul_div_le (length (split_atom_ph_coord (ph me) q).1)
                                  (n_independent_bath me)).
  lia.
Qed.

(** ** The claims on the fan-in *)

(** C6 as it is stated fails when the cavity is coupled. Two baths of
    one atom, whose requests come back with the forces (1, 2, 3) and
    (4, 5, 6): the request that [queue] returns holds the forces
    (1.5, 2.25, 3, 4.5, 5.25, 6, ...), so that the block of the first
    bath in it is not the force array of the first bath. *)
Lemma C6_cavity_forces_change_blocks :
  exists newreq me' w' agg res child r,
    FP_queue (example_fp true) [] example_atoms example_cell 0
             example_fp_world = Ret (newreq, me') w'
    /\ heap w' !! newreq = Some (ORequest agg)
    /\ req_result agg = Some res
    /\ heap w' !! 9 = Some (ORequest child)
    /\ req_id child = 0%Z
    /\ req_result child = Some r
    /\ length (res_f r) = 3
    /\ block 3 0 (res_f res) <> res_f r.
Proof.
  eexists _, _, _, _, _, _, _.
  split; [vm_compute; reflexivity|].
  split; [vm_compute; reflexivity|].
  split; [reflexivity|].
  split; [vm_compute; reflexivity|].
  split; [reflexivity|].
  split; [reflexivity|].
  split; [reflexivity|].
  intros H.
  apply (f_equal (fun l => match l with
                           | x :: _ => PrimFloat.eqb x 1%float
                           | [] => true
                           end)) in H.
  vm_compute in H. discriminate H.
Qed.

(** C6, amended. When [FFCavPhFPSocket.queue] returns, every request
    of the baths holds a result.  The loop that combines them gives a
    force buffer [merged] as long as the positions in which the forces
    of the bath [i], when there is one of them for each coordinate of
    the bath, are the block at [n * i], [n] being the number of
    coordinates of a bath.  The virial of the request returned is the
    sum of the virials of the baths.  When the cavity is not coupled
    its energy is the sum of the energies of the baths and its forces
    are [merged]; when it is, the photonic energy is added to that sum
    and the forces are [merged] with the cavity forces added to the x
    and the y components of the atoms and with the photonic forces at
    the end. *)
Theorem C6_fan_in_merge (me : FFCavPhFPSocket) (sched : list (world -> world))
    (atoms : Atoms) (cell : Cell) (reqid : Z) (w : world) (newreq : loc)
    (me' : FFCavPhFPSocket) (w' : world) :
  FP_queue me sched atoms cell reqid w = Ret (newreq, me') w' ->
  exists q cs ress merged agg res,
    let q_atoms := (split_atom_ph_coord (ph me) q).1 in
    let q_phs := (split_atom_ph_coord (ph me) q).2 in
    let n := length q_atoms / n_independent_bath me in
    heap w !! atoms_q atoms = Some (ONdarray q)
    /\ bath_requests me cell (par_str_of (ff_pars (self w))) reqid q_atoms cs
    /\ length cs = n_independent_bath me
    /\ results_of (heap w') cs ress
    /\ heap w' !! newreq = Some (ORequest agg)
    /\ req_result agg = Some res
    /\ length merged = length q
    /\ (forall i r, ress !! i = Some r -> length (res_f r) = n ->
                    block n i merged = res_f r)
    /\ res_vir res = virial_sum (res_vir <$> ress)
    /\ if apply_photon (ph me)
       then cavity_terms me q_atoms q_phs (energy_sum (res_u <$> ress))
                         merged res
       else res_u res = energy_sum (res_u <$> ress) /\ res_f res = merged.
Proof.
  intros H.
  apply FP_queue_fan_in in H
    as (q & cs & wg & merged & res & h & ih & l_first & l_last & first & last_
        & ress & Hq & Hb & Hcs & _ & _ & _ & _ & Hress & Hu & Hv & Hlen & Hblk
        & Hp & -> & Hw').
  pose proof (split_atom_ph_coord_length (ph me) q) as Hle.
  apply add_photon_ret in Hp as (Hvir & Hflen & Hp); [|lia].
  eexists q, cs, ress, (res_f merged), _, res. cbv zeta.
  split; [done|]. split; [done|]. split; [done|].
  split; [rewrite Hw'; by apply results_of_app|].
  split.
  { rewrite Hw'. rewrite lookup_app_r by lia.
    replace (length (heap wg) + 2 - length (heap wg)) with 2 by lia.
    reflexivity. }
  split; [reflexivity|]. split; [done|]. split; [done|].
  split; [congruence|].
  destruct (apply_photon (ph me)).
  - destruct Hp as (dx & dy & dz & fx & fy & fx' & fy' & f_ph & Hp).
    exists dx, dy, dz, fx, fy, fx', fy', f_ph. by rewrite <- Hu.
  - subst res. done.
Qed.

Lemma C6_fan_in_merge_witness :
  exists newreq me' w',
    FP_queue (example_fp true) [] example_atoms example_cell 0
             example_fp_world = Ret (newreq, me') w'
    /\ exists q cs ress merged agg res,
         heap example_fp_world !! 0 = Some (ONdarray q)
         /\ length cs = 2
         /\ results_of (heap w') cs ress
         /\ heap w' !! newreq = Some (ORequest agg)
         /\ req_result agg = Some res
         /\ length merged = length q
         /\ (forall i r, ress !! i = Some r -> length (res_f r) = 3 ->
                         block 3 i merged = res_f r)
         /\ res_vir res = virial_sum (res_vir <$> ress)
         /\ cavity_terms (example_fp true) (take 6 q) (drop 6 q)
                         (energy_sum (res_u <$> ress)) merged res.
Proof.
  destruct (FP_queue (example_fp true) [] example_atoms example_cell 0
                     example_fp_world) as [[newreq me'] w'|] eqn:Hrun;
    [|vm_compute in Hrun; discriminate Hrun].
  exists newreq, me', w'. split; [reflexivity|].
  destruct (C6_fan_in_merge (example_fp true) [] example_atoms example_cell 0
                            example_fp_world newreq me' w' Hrun)
    as (q & cs & ress & merged & agg & res & Hq & _ & Hcs & Hress & Hagg
        & Hres & Hlen & Hblk & Hvir & Hcav).
  injection Hq as <-.
  exists example_fp_positions, cs, ress, merged, agg, res.
  repeat split; assumption.
Defined.

(** C8 as it is stated fails. Of the two requests of the example the
    first is finished at the time 10 and the second at the time 9, so
    that the first is the last to finish; the request that [queue]
    returns has the time of the end of the second and the time of
    queueing of the first, which are those of neither. *)
Lemma C8_times_of_two_children :
  exists newreq me' w' agg c0 c1,
    FP_queue (example_fp true) [] example_atoms example_cell 0
             example_fp_world = Ret (newreq, me') w'
    /\ heap w' !! newreq = Some (ORequest agg)
    /\ heap w' !! 9 = Some (ORequest c0) /\ req_id c0 = 0%Z
    /\ heap w' !! 14 = Some (ORequest c1) /\ req_id c1 = 1%Z
    /\ PrimFloat.ltb (req_t_finished c1) (req_t_finished c0) = true
    /\ req_t_finished agg = req_t_finished c1
    /\ req_t_queued agg = req_t_queued c0
    /\ PrimFloat.ltb (req_t_queued c0) (req_t_queued c1) = true.
Proof.
  eexists _, _, _, _, _, _.
  split; [vm_compute; reflexivity|].
  split; [vm_compute; reflexivity|].
  split; [vm_compute; reflexivity|]. split; [reflexivity|].
  split; [vm_compute; reflexivity|]. split; [reflexivity|].
  repeat split; vm_compute; reflexivity.
Qed.

(** C8, amended. The request that [FFCavPhFPSocket.queue] returns is a
    request of its own, none of those of the baths, with the
    identifier given by the caller.  Its status and its time of the
    end are those of the request of the last bath, in the order in
    which the requests of the baths have been built, and its times of
    start, of queueing and of dispatch are those of the request of the
    first bath, whichever of them has finished last. *)
Theorem C8_aggregate_record (me : FFCavPhFPSocket)
    (sched : list (world -> world)) (atoms : Atoms) (cell : Cell) (reqid : Z)
    (w : world) (newreq : loc) (me' : FFCavPhFPSocket) (w' : world) :
  FP_queue me sched atoms cell reqid w = Ret (newreq, me') w' ->
  exists q cs l_first l_last first last_ agg,
    heap w !! atoms_q atoms = Some (ONdarray q)
    /\ bath_requests me cell (par_str_of (ff_pars (self w))) reqid
                     (split_atom_ph_coord (ph me) q).1 cs
    /\ head cs = Some l_first /\ last cs = Some l_last
    /\ heap w' !! l_first = Some (ORequest first)
    /\ heap w' !! l_last = Some (ORequest last_)
    /\ heap w' !! newreq = Some (ORequest agg)
    /\ (newreq ∉ cs)
    /\ req_id agg = reqid
    /\ req_status agg = req_status last_
    /\ req_t_finished agg = req_t_finished last_
    /\ req_start agg = req_start first
    /\ req_t_queued agg = req_t_queued first
    /\ req_t_dispatched agg = req_t_dispatched first.
Proof.
  intros H.
  apply FP_queue_fan_in in H
    as (q & cs & wg & merged & res & h & ih & l_first & l_last & first & last_
        & ress & Hq & Hb & Hcs & Hhd & Hlast & Hf & Hl & Hress & _ & _ & _ & _
        & _ & -> & Hw').
  eexists q, cs, l_first, l_last, first, last_, _.
  split; [done|]. split; [done|]. split; [done|]. split; [done|].
  split; [rewrite Hw'; by apply lookup_app_l_Some|].
  split; [rewrite Hw'; by apply lookup_app_l_Some|].
  split.
  { rewrite Hw'. rewrite lookup_app_r by lia.
    replace (length (heap wg) + 2 - length (heap wg)) with 2 by lia.
    reflexivity. }
  split; [|done].
  intros Hin. apply list_elem_of_lookup in Hin as [i Hi].
  destruct (Forall2_lookup_l _ _ _ _ _ Hress Hi) as (r & _ & req & Hc & _).
  apply lookup_lt_Some in Hc. lia.
Qed.

Lemma C8_aggregate_record_witness :
  exists newreq me' w',
    FP_queue (example_fp false) [] example_atoms example_cell 0
             example_fp_world = Ret (newreq, me') w'
    /\ exists cs l_first l_last first last_ agg,
         head cs = Some l_first /\ last cs = Some l_last
         /\ heap w' !! l_first = Some (ORequest first)
         /\ heap w' !! l_last = Some (ORequest last_)
         /\ heap w' !! newreq = Some (ORequest agg)
         /\ (newreq ∉ cs)
         /\ req_id agg = 0%Z
         /\ req_status agg = req_status last_
         /\ req_t_finished agg = req_t_finished last_
         /\ req_start agg = req_start first
         /\ req_t_queued agg = req_t_queued first
         /\ req_t_dispatched agg = req_t_dispatched first.
Proof.
  destruct (FP_queue (example_fp false) [] example_atoms example_cell 0
                     example_fp_world) as [[newreq me'] w'|] eqn:Hrun;
    [|vm_compute in Hrun; discriminate Hrun].
  exists newreq, me', w'. split; [reflexivity|].
  destruct (C8_aggregate_record (example_fp false) [] example_atoms
                                example_cell 0 example_fp_world newreq me' w'
                                Hrun)
    as (q & cs & l_first & l_last & first & last_ & agg & _ & _ & H).
  by exists cs, l_first, l_last, first, last_, agg.
Defined.

(** * Further properties *)

(** ** [ForceField] *)

Lemma py_remove_last (x : loc) (l : list loc) :
  x ∉ l -> py_remove x (l ++ [x]) = Some l.
Proof.
  induction l as [|y l IH]; intros Hnin; cbn.
  - unfold ForceRequest_eq. by rewrite Nat.eqb_refl.
  - apply not_elem_of_cons in Hnin as [Hne Hnin].
    unfold ForceRequest_eq. destruct (Nat.eqb_spec y x) as [->|_]; [done|].
    by rewrite IH.
Qed.

Lemma filter_other_id (x : loc) (l : list loc) :
  x ∉ l -> filter (fun y => y <> x) l = l.
Proof.
  induction l as [|y l IH]; intros Hnin; [done|].
  apply not_elem_of_cons in Hnin as [Hne Hnin].
  rewrite filter_cons_True by congruence. by rewrite IH.
Qed.

Lemma py_remove_filter (x : loc) (l : list loc) :
  NoDup l -> x ∈ l -> py_remove x l = Some (filter (fun y => y <> x) l).
Proof.
  induction l as [|y l IH]; intros Hnd Hin; [by inversion Hin|].
  apply NoDup_cons in Hnd as [Hy Hnd]. cbn [py_remove].
  destruct (ForceRequest_eq y x) eqn:E.
  - apply ForceRequest_eq_spec in E as ->.
    rewrite filter_cons_False by (intros H; by apply H).
    by rewrite filter_other_id.
  - assert (y <> x) as Hne.
    { intros ->. unfold ForceRequest_eq in E. by rewrite Nat.eqb_refl in E. }
    apply elem_of_cons in Hin as [->|Hin]; [done|].
    rewrite (IH Hnd Hin). rewrite filter_cons_True by done. done.
Qed.

(** [queue] appends the request that it returns, in both modes. *)
Lemma queue_ret_requests atoms cell reqid w r w1 :
  queue atoms cell reqid w = Ret r w1 ->
  requests w1 = requests w ++ [r] /\ length (heap w) < r.
Proof.
  rewrite queue_unfold.
  pose proof (build_request_built atoms cell reqid w) as Hb.
  destruct (build_request atoms cell reqid w) as [r1 wb|e wb]; [|done].
  destruct (built_request _ _ _ _ _ _ Hb)
    as (_ & _ & _ & _ & _ & _ & _ & Hlt & _).
  destruct Hb as [Hreqs _ _ _]. cbn in Hreqs.
  destruct (ff_threaded (self wb)).
  - intros [= <- <-]. cbn. by rewrite Hreqs.
  - destruct (poll_frame (append_request r1 wb)) as (_ & Hs & _).
    destruct (poll (append_request r1 wb)) as [[] w2|]; [|done].
    intros [= <- <-]. cbn in Hs. unfold requests. rewrite Hs. cbn.
    by rewrite Hreqs.
Qed.

(** A request that has just been submitted can be released: the queue
    is then as it was before the submission, and the store is as
    [queue] has left it. *)
Theorem queue_then_release (atoms : Atoms) (cell : Cell) (reqid : Z)
    (w : world) (r : loc) (w1 : world) :
  wf w ->
  queue atoms cell reqid w = Ret r w1 ->
  exists w2, release r w1 = Ret tt w2
    /\ requests w2 = requests w /\ heap w2 = heap w1.
Proof.
  intros Hwf Hq. destruct (queue_ret_requests _ _ _ _ _ _ Hq) as [Hreqs Hlt].
  assert (r ∉ requests w) as Hnin by (apply wf_fresh; [done|lia]).
  destruct (release_cases r w1) as [[Hn _]|[_ (rs' & Hrm & ->)]].
  - exfalso. apply Hn. rewrite Hreqs. apply elem_of_app. right.
    by apply list_elem_of_singleton.
  - rewrite Hreqs, (py_remove_last _ _ Hnin) in Hrm. injection Hrm as <-.
    by eexists.
Qed.

Lemma queue_then_release_witness :
  exists r w1 w2,
    queue example_atoms example_cell 1 (example_queued false) = Ret r w1
    /\ release r w1 = Ret tt w2
    /\ requests w2 = requests (example_queued false) /\ heap w2 = heap w1.
Proof.
  destruct (queue example_atoms example_cell 1 (example_queued false))
    as [r w1|] eqn:Hq; [|vm_compute in Hq; discriminate Hq].
  destruct (queue_then_release example_atoms example_cell 1
              (example_queued false) r w1) as (w2 & H);
    [apply reachable_wf, example_queued_reachable|exact Hq|].
  by exists r, w1, w2.
Defined.

(** [release] takes the request out of the queue and leaves the others
    in their order. *)
Theorem release_keeps_order (r : loc) (w : world) :
  wf w ->
  exists w', release r w = Ret tt w'
    /\ requests w' = filter (fun x => x <> r) (requests w)
    /\ heap w' = heap w.
Proof.
  intros (Hnd & _).
  destruct (release_cases r w) as [[Hn ->]|[Hin (rs' & Hrm & ->)]].
  - exists w. by rewrite filter_other_id.
  - rewrite (py_remove_filter _ _ Hnd Hin) in Hrm. injection Hrm as <-.
    by eexists.
Qed.

Lemma release_keeps_order_witness :
  exists w', release 7 (example_queued true) = Ret tt w'
    /\ requests w' = filter (fun x => x <> 7) (requests (example_queued true))
    /\ heap w' = heap (example_queued true).
Proof.
  apply (release_keeps_order 7 (example_queued true)).
  apply reachable_wf, example_queued_reachable.
Defined.



(** The first call of [queue] fails with [IndexError], not with the
    [ValueError] of its sanity check, when the list of active atoms is
    empty, and when there is no coordinate at all and the list is the
    default one: [activehere[-1]] is then read from an empty array.
    Nothing is queued and the active indices stay unset. *)
Theorem queue_index_error (atoms : Atoms) (cell : Cell) (reqid : Z)
    (w : world) (q : list float) :
  ff_iactive (self w) = None ->
  heap w !! atoms_q atoms = Some (ONdarray q) ->
  ff_active (self w) = []
  \/ (q = [] /\ exists rest, ff_active (self w) = (-1)%Z :: rest) ->
  exists w', queue atoms cell reqid w = Raise IndexError w'
    /\ requests w' = requests w
    /\ ff_iactive (self w') = None.
Proof.
  intros Hia Hq Hact. rewrite queue_unfold. unfold build_request.
  change (gets self ≫= ?f) with (fun w0 => f (self w0) w0). cbv beta.
  unfold mbind at 1. unfold M_bind at 1.
  assert (load_ndarray (atoms_q atoms) w = Ret q w) as ->.
  { unfold load_ndarray. msimpl. by rewrite Hq. }
  unfold mbind at 1. unfold M_bind at 1. unfold alloc at 1.
  unfold mbind at 1. unfold M_bind at 1.
  set (w1 := set_heap (heap w ++ [ONdarray q]) w).
  assert (exists w2, init_iactive (length q) w1 = Raise IndexError w2
            /\ requests w2 = requests w /\ ff_iactive (self w2) = None)
    as (w2 & -> & ? & ?); [|by exists w2].
  destruct Hact as [Ha|(-> & rest & Ha)].
  - exists w1. by rewrite init_iactive_empty.
  - rewrite init_iactive_unset by (cbn; congruence).
    cbn [self w1 set_heap]. rewrite Ha. cbn. eexists. by split.
Qed.

Lemma queue_index_error_witness :
  exists w',
    queue (mkAtoms 3) example_cell 0
          (set_heap (heap (example_world [(-1)%Z] false) ++ [ONdarray []])
                    (example_world [(-1)%Z] false))
    = Raise IndexError w'
    /\ requests w' = []
    /\ ff_iactive (self w') = None.
Proof.
  apply (queue_index_error (mkAtoms 3) example_cell 0
           (set_heap (heap (example_world [(-1)%Z] false) ++ [ONdarray []])
                     (example_world [(-1)%Z] false)) []);
    [reflexivity|reflexivity|].
  right. split; [reflexivity|]. by exists [].
Defined.

(** [start] raises [NameError] when the polling thread exists already.
    In threaded mode the first call makes the thread and sets the loop
    flag, and a second call raises; in serial mode no thread is made,
    so that [start] may be called again and again. *)
Theorem start_twice (w : world) :
  ff_thread (self w) = false ->
  if ff_threaded (self w)
  then exists w1, start w = Ret tt w1
         /\ ff_thread (self w1) = true /\ ff_doloop (self w1) = true
         /\ heap w1 = heap w /\ requests w1 = requests w
         /\ start w1 = Raise NameError w1
  else start w = Ret tt w.
Proof.
  intros Hth. unfold start. msimpl. rewrite Hth.
  destruct (ff_threaded (self w)) eqn:Hthr; [|done].
  eexists. split; [reflexivity|]. cbn. by repeat split.
Qed.

Lemma start_twice_witness :
  exists w1, start (example_world [(-1)%Z] true) = Ret tt w1
    /\ ff_thread (self w1) = true /\ ff_doloop (self w1) = true
    /\ heap w1 = heap (example_world [(-1)%Z] true)
    /\ requests w1 = requests (example_world [(-1)%Z] true)
    /\ start w1 = Raise NameError w1.
Proof. apply (start_twice (example_world [(-1)%Z] true)). reflexivity. Defined.

Lemma poll_one_ret r w w' :
  poll_one r w = Ret tt w' ->
  exists req, heap w' !! r = Some (ORequest req) /\ req_status req <> Queued.
Proof.
  intros H.
  destruct (heap w !! r) as [[| | |req]|] eqn:E;
    try (unfold poll_one in H; msimpl; rewrite E in H; done).
  pose proof (lookup_lt_Some _ _ _ E) as Hlt.
  destruct (decide (req_status req = Queued)) as [Hst|Hst].
  2: { rewrite (poll_one_not_queued _ _ _ E Hst) in H. injection H as <-.
       eauto. }
  destruct (decide (req_pos req = r)) as [Heq|Hne].
  { exfalso. unfold poll_one in H. msimpl. rewrite E in H. cbn in H.
    rewrite Hst in H. msimpl. rewrite list_lookup_insert_eq in H by done.
    cbn in H. rewrite Heq in H. rewrite list_lookup_insert_eq in H by done.
    done. }
  destruct (heap w !! req_pos req) as [[a| | |]|] eqn:Hp.
  - rewrite (poll_one_queued _ _ _ _ E Hst Hp) in H. injection H as <-. cbn.
    rewrite list_lookup_insert_eq by done. eexists. split; [done|]. done.
  - exfalso. unfold poll_one in H. msimpl. rewrite E in H. cbn in H.
    rewrite Hst in H. msimpl. rewrite list_lookup_insert_eq in H by done.
    cbn in H. rewrite list_lookup_insert_ne in H by done. by rewrite Hp in H.
  - exfalso. unfold poll_one in H. msimpl. rewrite E in H. cbn in H.
    rewrite Hst in H. msimpl. rewrite list_lookup_insert_eq in H by done.
    cbn in H. rewrite list_lookup_insert_ne in H by done. by rewrite Hp in H.
  - exfalso. unfold poll_one in H. msimpl. rewrite E in H. cbn in H.
    rewrite Hst in H. msimpl. rewrite list_lookup_insert_eq in H by done.
    cbn in H. rewrite list_lookup_insert_ne in H by done. by rewrite Hp in H.
  - exfalso. unfold poll_one in H. msimpl. rewrite E in H. cbn in H.
    rewrite Hst in H. msimpl. rewrite list_lookup_insert_eq in H by done.
    cbn in H. rewrite list_lookup_insert_ne in H by done. by rewrite Hp in H.
Qed.

Lemma for_each_poll_one_ret rs : forall w w1,
  for_each poll_one rs w = Ret tt w1 ->
  forall r, r ∈ rs ->
    exists req, heap w1 !! r = Some (ORequest req) /\ req_status req <> Queued.
Proof.
  induction rs as [|x rs IH]; intros w w1 H r Hin; [by inversion Hin|].
  cbn in H. unfold mbind, M_bind in H.
  destruct (poll_one x w) as [[] w'|] eqn:Hx; [|done].
  apply elem_of_cons in Hin as [->|Hin]; [|by eapply IH].
  destruct (poll_one_ret _ _ _ Hx) as (req & Hr & Hst).
  pose proof (for_each_evolves kept_unless_queued kept_unless_queued_refl
                kept_unless_queued_trans poll_one rs
                (fun y w0 => updates_at_evolves kept_unless_queued
                               kept_unless_queued_refl kept_unless_queued_trans
                               y w0 _ (poll_one_updates y w0)) w') as (He & _).
  rewrite H in He. cbn in He.
  destruct (He _ _ Hr) as (o' & Ho' & r' & -> & _ & _ & _ & Hk).
  rewrite (Hk Hst) in Ho'. eauto.
Qed.

Lemma for_each_poll_one_idle rs : forall w,
  (forall r, r ∈ rs ->
     exists req, heap w !! r = Some (ORequest req) /\ req_status req <> Queued) ->
  for_each poll_one rs w = Ret tt w.
Proof.
  induction rs as [|x rs IH]; intros w H; [done|].
  cbn. unfold mbind, M_bind.
  destruct (H x) as (req & Hx & Hst); [by left|].
  rewrite (poll_one_not_queued _ _ _ Hx Hst). apply IH.
  intros r Hin. apply H. by right.
Qed.

(** When [poll] has returned, no request of the queue is [Queued] any
    more, and polling again changes nothing: the clock is not even
    read. *)
Theorem poll_twice (w w1 : world) :
  poll w = Ret tt w1 ->
  (forall r, r ∈ requests w1 ->
     exists req, heap w1 !! r = Some (ORequest req) /\ req_status req <> Queued)
  /\ poll w1 = Ret tt w1.
Proof.
  intros H. destruct (poll_frame w) as (_ & Hs & _). rewrite H in Hs. cbn in Hs.
  unfold poll in *. msimpl. unfold requests in *. rewrite Hs.
  assert (forall r, r ∈ ff_requests (self w) ->
            exists req, heap w1 !! r = Some (ORequest req)
                        /\ req_status req <> Queued) as Hall.
  { intros r Hin. eapply for_each_poll_one_ret; [exact H|exact Hin]. }
  split; [done|]. by apply for_each_poll_one_idle.
Qed.

Lemma poll_twice_witness :
  exists w1, poll (example_queued true) = Ret tt w1
    /\ (forall r, r ∈ requests w1 ->
          exists req, heap w1 !! r = Some (ORequest req)
                      /\ req_status req <> Queued)
    /\ poll w1 = Ret tt w1.
Proof.
  destruct (poll (example_queued true)) as [[] w1|] eqn:Hp;
    [|vm_compute in Hp; discriminate Hp].
  exists w1. split; [reflexivity|].
  exact (poll_twice (example_queued true) w1 Hp).
Defined.

Lemma set_status_same req : set_status (req_status req) req = req.
Proof. by destruct req. Qed.

Lemma for_each_stop_one_idle rs : forall w,
  (forall r, r ∈ rs ->
     exists req, heap w !! r = Some (ORequest req) /\ req_status req = Exit) ->
  for_each stop_one rs w = Ret tt w.
Proof.
  induction rs as [|x rs IH]; intros w H; [done|].
  cbn. unfold mbind, M_bind.
  destruct (H x) as (req & Hx & Hst); [by left|].
  rewrite (stop_one_request _ _ _ Hx), <- Hst, set_status_same.
  rewrite list_insert_id by done.
  replace (set_heap (heap w) w) with w by (by destruct w).
  apply IH. intros r Hin. apply H. by right.
Qed.

(** [stop] marks every request of the queue [Exit] and clears the loop
    flag.  After it [poll] answers nothing, so that a request that was
    waiting never gets a result, and stopping again changes nothing. *)
Theorem stop_then_poll (w : world) :
  wf w ->
  exists w1, stop w = Ret tt w1
    /\ ff_doloop (self w1) = false
    /\ requests w1 = requests w
    /\ (forall r, r ∈ requests w ->
          exists req, heap w1 !! r = Some (ORequest req)
                      /\ req_status req = Exit)
    /\ poll w1 = Ret tt w1
    /\ stop w1 = Ret tt w1.
Proof.
  intros (_ & Hreq). unfold stop. msimpl.
  set (w0 := set_self (ff_set_doloop false (self w)) w).
  change (ff_requests (ff_set_doloop false (self w))) with (requests w).
  destruct (for_each_stop_one (requests w) w0) as (w1 & Hrun & Hexit);
    [done|].
  destruct (for_each_updates_frame kept_if_exit stop_one (requests w)
              stop_one_updates w0) as (Hs & _).
  rewrite Hrun in *. cbn in Hs. exists w1. split; [done|].
  assert (requests w1 = requests w) as Hreqs by (unfold requests; by rewrite Hs).
  split; [by rewrite Hs|]. split; [done|]. split; [done|]. split.
  - unfold poll. msimpl. apply for_each_poll_one_idle.
    intros r Hin. change (r ∈ requests w1) in Hin. rewrite Hreqs in Hin.
    destruct (Hexit r Hin) as (req & ? & Hst).
    exists req. split; [done|]. by rewrite Hst.
  - replace (set_self (ff_set_doloop false (self w1)) w1) with w1.
    + rewrite Hreqs. by apply for_each_stop_one_idle.
    + rewrite Hs. destruct w1 as [h s c t tr]. cbn in *. by subst.
Qed.

Lemma stop_then_poll_witness :
  exists w1, stop (example_queued true) = Ret tt w1
    /\ ff_doloop (self w1) = false
    /\ requests w1 = requests (example_queued true)
    /\ (forall r, r ∈ requests (example_queued true) ->
          exists req, heap w1 !! r = Some (ORequest req)
                      /\ req_status req = Exit)
    /\ poll w1 = Ret tt w1
    /\ stop w1 = Ret tt w1.
Proof.
  apply (stop_then_poll (example_queued true)).
  apply reachable_wf, example_queued_reachable.
Defined.

(** ** [FFCavPhFPSocket] *)

Lemma slice_assign_after buf lo hi v buf' k :
  slice_assign buf lo hi v = Some buf' -> lo <= hi -> hi <= k ->
  buf' !! k = buf !! k.
Proof.
  intros H Hlo Hk. pose proof (slice_assign_length _ _ _ _ _ H) as Hlen.
  destruct (decide (k < length buf)) as [Hlt|Hge].
  2: { rewrite (lookup_ge_None_2 buf) by lia. apply lookup_ge_None_2. lia. }
  unfold slice_assign in H. cbv zeta in H.
  replace (Nat.max (Nat.min hi (length buf)) (Nat.min lo (length buf)))
    with (Nat.min hi (length buf)) in H by lia.
  destruct (np_fit _ v) as [v'|] eqn:Hfit; [|done].
  cbn [mbind option_bind] in H. injection H as <-.
  apply np_fit_length in Hfit.
  rewrite lookup_app_r by (rewrite length_take; lia).
  rewrite lookup_app_r by (rewrite length_take; lia).
  rewrite lookup_drop. f_equal. rewrite length_take. lia.
Qed.

Lemma merge_from_after n cs : forall acc idx w res w',
  merge_from n acc idx cs w = Ret res w' ->
  forall k, n * (idx + length cs) <= k -> res_f res !! k = res_f acc !! k.
Proof.
  induction cs as [|c cs IH]; intros acc idx w res w' H k Hk.
  - cbn in H. by injection H as <- <-.
  - cbn [merge_from] in H. apply bind_ret in H as (acc' & w1 & H1 & H).
    apply merge_one_ret in H1 as (-> & req & r0 & f & _ & _ & Hf & ->).
    cbn [length] in Hk.
    rewrite (IH _ _ _ _ _ H k) by lia. cbn [res_f].
    apply (slice_assign_after _ _ _ _ _ _ Hf); lia.
Qed.

(** When the number of atomic coordinates is not a multiple of the
    number of baths, the coordinates after the last bath are sent to no
    bath; without the cavity the request that [queue] returns holds the
    force 0 for each of them. *)
Theorem uncovered_coordinates_get_zero (me : FFCavPhFPSocket)
    (sched : list (world -> world)) (atoms : Atoms) (cell : Cell) (reqid : Z)
    (w : world) (newreq : loc) (me' : FFCavPhFPSocket) (w' : world) :
  apply_photon (ph me) = false ->
  FP_queue me sched atoms cell reqid w = Ret (newreq, me') w' ->
  exists q agg res,
    heap w !! atoms_q atoms = Some (ONdarray q)
    /\ heap w' !! newreq = Some (ORequest agg)
    /\ req_result agg = Some res
    /\ length (res_f res) = length q
    /\ forall k,
         length q / n_independent_bath me * n_independent_bath me <= k ->
         k < length q ->
         res_f res !! k = Some 0%float.
Proof.
  intros Hph H.
  apply FP_queue_ret in H as (q & cs & wg & Hq & Hk & _ & Hcs & H).
  assert (split_atom_ph_coord (ph me) q = (q, [])) as Hsp
    by (unfold split_atom_ph_coord; by rewrite Hph).
  rewrite Hsp in H. cbn [fst snd] in H.
  apply combine_ret in H as (merged & res & Hm & Hp & H).
  unfold add_photon in Hp. rewrite Hph in Hp. injection Hp as <-.
  apply aggregate_request_ret in H
    as (h & ih & l_first & l_last & first & last_ & _ & _ & _ & _ & -> & ->).
  pose proof Hm as Hm'. unfold merge_results in Hm'.
  pose proof (merge_from_after _ _ _ _ _ _ _ Hm') as Hafter.
  apply merge_results_ret in Hm as (_ & ress & _ & _ & _ & Hlen & _).
  eexists q, _, merged. split; [done|]. split.
  { cbn. rewrite lookup_app_r by lia.
    replace (length (heap wg) + 2 - length (heap wg)) with 2 by lia.
    reflexivity. }
  split; [reflexivity|]. split; [done|].
  intros k Hk1 Hk2. rewrite Hafter by (rewrite Hcs; lia).
  cbn [res_f]. unfold np_zeros. by apply lookup_replicate_2.
Qed.

Lemma uncovered_coordinates_get_zero_witness :
  exists newreq me' w' agg res,
    FP_queue (example_fp false) [] example_atoms example_cell 0
             example_fp_world = Ret (newreq, me') w'
    /\ heap w' !! newreq = Some (ORequest agg)
    /\ req_result agg = Some res
    /\ length (res_f res) = 9
    /\ res_f res !! 8 = Some 0%float.
Proof.
  destruct (FP_queue (example_fp false) [] example_atoms example_cell 0
                     example_fp_world) as [[newreq me'] w'|] eqn:Hrun;
    [|vm_compute in Hrun; discriminate Hrun].
  destruct (uncovered_coordinates_get_zero (example_fp false) [] example_atoms
              example_cell 0 example_fp_world newreq me' w' eq_refl Hrun)
    as (q & agg & res & Hq & Hagg & Hres & Hlen & Hzero).
  injection Hq as <-.
  exists newreq, me', w', agg, res.
  split; [reflexivity|]. split; [done|]. split; [done|]. split; [done|].
  apply Hzero; cbn; lia.
Defined.

(** Each call of [queue] that returns has added the number of baths to
    [_getallcount]; nothing takes it down again. *)
Theorem getallcount_grows (me : FFCavPhFPSocket)
    (sched : list (world -> world)) (atoms : Atoms) (cell : Cell) (reqid : Z)
    (w : world) (newreq : loc) (me' : FFCavPhFPSocket) (w' : world) :
  FP_queue me sched atoms cell reqid w = Ret (newreq, me') w' ->
  me' = set_getallcount
          (getallcount me + Z.of_nat (n_independent_bath me))%Z me.
Proof.
  unfold FP_queue. intros H.
  apply bind_ret in H as (ff & w0 & [= <- <-] & H).
  apply bind_ret in H as (q & w0 & _ & H).
  apply bind_ret in H as (pbcpos & w1 & _ & H).
  apply bind_ret in H as ([] & w2 & _ & H).
  destruct (split_atom_ph_coord (ph me) q) as [q_atoms q_phs].
  destruct (Nat.eqb_spec (n_independent_bath me) 0) as [|Hk]; [done|].
  apply bind_ret in H as (cs & w3 & Hcs & H).
  apply mapM_length in Hcs. rewrite length_seq in Hcs.
  apply bind_ret in H as ([] & w4 & _ & H).
  apply bind_ret in H as ([] & w5 & _ & H).
  apply bind_ret in H as (sched' & wg & _ & H).
  apply bind_ret in H as (r & w6 & _ & H).
  injection H as <- <- <-. by rewrite Hcs.
Qed.

Lemma getallcount_grows_witness :
  exists newreq me' w',
    FP_queue (example_fp true) [] example_atoms example_cell 0
             example_fp_world = Ret (newreq, me') w'
    /\ getallcount me' = 2%Z.
Proof.
  destruct (FP_queue (example_fp true) [] example_atoms example_cell 0
                     example_fp_world) as [[newreq me'] w'|] eqn:Hrun;
    [|vm_compute in Hrun; discriminate Hrun].
  exists newreq, me', w'. split; [reflexivity|].
  by rewrite (getallcount_grows _ _ _ _ _ _ _ _ _ Hrun).
Defined.

(** With no bath at all [queue] fails with [ZeroDivisionError] where it
    divides the coordinates among the baths: it has copied the
    positions, and nothing is queued. *)
Theorem queue_without_bath (me : FFCavPhFPSocket)
    (sched : list (world -> world)) (atoms : Atoms) (cell : Cell) (reqid : Z)
    (w : world) (q : list float) (ia : loc) :
  n_independent_bath me = 0 ->
  heap w !! atoms_q atoms = Some (ONdarray q) ->
  ff_iactive (self w) = Some ia ->
  FP_queue me sched atoms cell reqid w
  = Raise ZeroDivisionError (set_heap (heap w ++ [ONdarray q]) w).
Proof.
  intros Hk Hq Hia. unfold FP_queue. msimpl. rewrite Hq. cbn.
  rewrite (init_iactive_set _ _ ia) by done. cbn.
  destruct (split_atom_ph_coord (ph me) q) as [q_atoms q_phs].
  by rewrite Hk.
Qed.

Lemma queue_without_bath_witness :
  exists w',
    FP_queue (mkFP 0 [1%float] (example_ph true) example_socket_poll
                   (fun l => fold_left PrimFloat.add l 0%float) 0)
             [] example_atoms example_cell 1 (example_queued true)
    = Raise ZeroDivisionError w'
    /\ requests w' = requests (example_queued true).
Proof.
  eexists. split.
  - apply (queue_without_bath _ [] example_atoms example_cell 1
             (example_queued true) example_positions 4); reflexivity.
  - reflexivity.
Defined.

(** [split_atom_ph_coord] loses no coordinate and keeps their order.
    With the cavity, the last [n_photon_3] coordinates are the photonic
    ones when there are that many; when [n_photon_3] is 0 the slices
    [pos[:-0]] and [pos[-0:]] make every coordinate photonic and leave
    no atom.  Without the cavity every coordinate is atomic. *)
Theorem split_atom_ph_coord_concat (p : PhotonDriverFabryPerot)
    (pos : list float) :
  (split_atom_ph_coord p pos).1 ++ (split_atom_ph_coord p pos).2 = pos
  /\ (apply_photon p = true -> 0 < n_photon_3 p <= length pos ->
      length (split_atom_ph_coord p pos).2 = n_photon_3 p)
  /\ (apply_photon p = true ->
      n_photon_3 p = 0 \/ length pos <= n_photon_3 p ->
      split_atom_ph_coord p pos = ([], pos))
  /\ (apply_photon p = false -> split_atom_ph_coord p pos = (pos, [])).
Proof.
  unfold split_atom_ph_coord. destruct (apply_photon p).
  2: { cbn. rewrite app_nil_r. by repeat split. }
  destruct (Nat.eqb_spec (n_photon_3 p) 0) as [H0|H0]; cbn.
  - split; [done|]. split; [lia|]. by split.
  - split; [apply take_drop|]. split.
    + intros _ Hn. rewrite length_drop. lia.
    + split; [|done]. intros _ [?|Hn]; [done|].
      replace (length pos - n_photon_3 p) with 0 by lia.
      by rewrite take_0, drop_0.
Qed.

Lemma stride3_length (a : list float) : forall k,
  k <= 2 -> length (stride3 k a) = (length a + 2 - k) / 3.
Proof.
  induction a as [|x a IH]; intros k Hk.
  - cbn [stride3 length]. symmetry. apply Nat.div_small. lia.
  - destruct k as [|k]; cbn [stride3 length].
    + rewrite IH by lia. divmod3. lia.
    + rewrite IH by lia. f_equal.
Qed.

Lemma np_mul_same_length a b :
  length a = length b -> is_Some (np_mul a b).
Proof. intros H. unfold np_mul. rewrite H, Nat.eqb_refl. eauto. Qed.

(** [calc_dipole_xyz_mm] fails with [ZeroDivisionError] when there is
    no bath.  Otherwise, when it returns, each of its three arrays
    holds one dipole for each bath; and it does return when every bath
    has as many atoms as there are charges. *)
Theorem calc_dipole_xyz_mm_shape (me : FFCavPhFPSocket) (pos : list float)
    (n_bath : nat) :
  (n_bath = 0 -> calc_dipole_xyz_mm me pos n_bath = inl ZeroDivisionError)
  /\ (forall dx dy dz,
        calc_dipole_xyz_mm me pos n_bath = inr (dx, dy, dz) ->
        length dx = n_bath /\ length dy = n_bath /\ length dz = n_bath)
  /\ (n_bath <> 0 ->
      length pos = n_bath * (3 * length (charge_array me)) ->
      exists dx dy dz, calc_dipole_xyz_mm me pos n_bath = inr (dx, dy, dz)).
Proof.
  unfold calc_dipole_xyz_mm. cbv zeta. split; [by intros ->|]. split.
  - intros dx dy dz H. destruct (Nat.eqb n_bath 0); [done|].
    destruct (mapM _ (seq 0 n_bath)) as [ds|] eqn:Hds; [|done].
    apply length_mapM in Hds. rewrite length_seq in Hds.
    injection H as <- <- <-. by rewrite !length_fmap.
  - intros Hn Hlen. destruct (Nat.eqb_spec n_bath 0) as [|_]; [done|].
    assert (is_Some (mapM (dipole_of_bath me pos (length pos / n_bath))
                          (seq 0 n_bath))) as [ds ->]; [|by eexists _, _, _].
    apply mapM_is_Some_2, Forall_forall. intros idx Hin.
    apply elem_of_seq in Hin. unfold compose, dipole_of_bath. cbv zeta.
    set (L := length (charge_array me)) in *.
    assert (length pos / n_bath = 3 * L) as ->.
    { rewrite Hlen, Nat.mul_comm. by apply Nat.div_mul. }
    assert (length (take (3 * L) (drop (3 * L * idx) pos)) = 3 * L) as Hb.
    { rewrite length_take, length_drop. nia. }
    destruct (np_mul_same_length (stride3 0 (take (3 * L) (drop (3 * L * idx) pos)))
                (charge_array me)) as [px ->].
    { rewrite stride3_length, Hb by lia. fold L. divmod3. lia. }
    destruct (np_mul_same_length (stride3 1 (take (3 * L) (drop (3 * L * idx) pos)))
                (charge_array me)) as [py ->].
    { rewrite stride3_length, Hb by lia. fold L. divmod3. lia. }
    destruct (np_mul_same_length (stride3 2 (take (3 * L) (drop (3 * L * idx) pos)))
                (charge_array me)) as [pz ->].
    { rewrite stride3_length, Hb by lia. fold L. divmod3. lia. }
    by eexists.
Qed.

Lemma load_matrix_ret l w m w' :
  load_matrix l w = Ret m w' -> w' = w /\ heap w !! l = Some (OMatrix m).
Proof.
  unfold load_matrix. msimpl. destruct (heap w !! l) as [[| |m'|]|]; try done.
  by intros [= <- <-].
Qed.

Lemma load_index_ret l w a w' :
  load_index l w = Ret a w' -> w' = w /\ heap w !! l = Some (OIndex a).
Proof.
  unfold load_index. msimpl. destruct (heap w !! l) as [[|a'| |]|]; try done.
  by intros [= <- <-].
Qed.

Lemma new_local_request_ret me cell par_str reqid q_atoms n idx w r w' :
  new_local_request me cell par_str reqid q_atoms n idx w = Ret r w' ->
  exists s ia h ih,
    length s = length (block n idx q_atoms)
    /\ (ff_dopbc (self w) = false -> s = block n idx q_atoms)
    /\ heap w' = heap w ++ bath_objects me par_str reqid idx w s ia h ih
    /\ r = length (heap w) + 4
    /\ self w' = self w
    /\ softexit_triggered w' = softexit_triggered w
    /\ clock w' = clock w
    /\ ticks w' = S (ticks w).
Proof.
  unfold new_local_request. intros H.
  apply bind_ret in H as (ff & w0 & [= <- <-] & H).
  apply bind_ret in H as (pos & w1 & [= <- <-] & H).
  apply bind_ret in H as (ia & w2 & Hia & H).
  assert (w2 = set_heap (heap w ++ [ONdarray (block n idx q_atoms)]) w) as ->.
  { destruct (ff_iactive (self w)); [|done].
    by apply load_index_ret in Hia as [-> _]. }
  clear Hia.
  apply bind_ret in H as (il & w3 & [= <- <-] & H).
  apply bind_ret in H as ([] & w4 & Hpbc & H).
  cbn [heap set_heap self] in *.
  set (h0 := heap w) in *.
  assert (exists s, length s = length (block n idx q_atoms)
            /\ (ff_dopbc (self w) = false -> s = block n idx q_atoms)
            /\ w4 = set_heap (h0 ++ [ONdarray s; OIndex (take n ia)]) w)
    as (s & Hs & Hsd & ->).
  { destruct (ff_dopbc (self w)).
    - match type of Hpbc with array_pbc _ _ ?w0 = _ =>
        destruct (array_pbc_final cell (length h0) w0 (block n idx q_atoms))
          as (s & Hs & Hfin & _) end.
      { cbn. rewrite <- app_assoc. by apply list_lookup_middle. }
      rewrite Hpbc in Hfin. cbn in Hfin. exists s. split; [done|].
      split; [done|]. rewrite Hfin. unfold set_heap. cbn. f_equal.
      rewrite <- app_assoc. cbn.
      by rewrite (insert_app_r_alt h0) , Nat.sub_diag by lia.
    - injection Hpbc as <-. exists (block n idx q_atoms).
      split; [done|]. split; [done|]. unfold set_heap. cbn. f_equal.
      by rewrite <- app_assoc. }
  apply bind_ret in H as (h & w5 & Hh & H).
  apply load_matrix_ret in Hh as [-> _].
  apply bind_ret in H as (hc & w6 & [= <- <-] & H).
  apply bind_ret in H as (ih & w7 & Hih & H).
  apply load_matrix_ret in Hih as [-> _].
  apply bind_ret in H as (ihc & w8 & [= <- <-] & H).
  apply bind_ret in H as (t & w9 & [= <- <-] & H).
  unfold new_ForceRequest, alloc in H. injection H as <- <-.
  exists s, (take n ia), h, ih. cbn.
  split; [done|]. split; [done|]. split.
  { unfold bath_objects. rewrite !length_app. cbn. fold h0.
    rewrite <- !app_assoc. cbn.
    by replace (length h0 + 2 + 1) with (length h0 + 3) by lia. }
  split; [rewrite !length_app; cbn; lia|]. done.
Qed.

Lemma bath_request_at_app me par_str reqid q_atoms n dopbc h extra idx c :
  bath_request_at me par_str reqid q_atoms n dopbc h idx c ->
  bath_request_at me par_str reqid q_atoms n dopbc (h ++ extra) idx c.
Proof.
  intros (req & s & Hc & ? & ? & ? & ? & Hp & ?). exists req, s.
  split; [by apply lookup_app_l_Some|]. do 4 (split; [done|]).
  split; [by apply lookup_app_l_Some|]. done.
Qed.

Lemma bath_loop me cell par_str reqid q_atoms n idxs : forall w cs w',
  mapM (new_local_request me cell par_str reqid q_atoms n) idxs w = Ret cs w' ->
  self w' = self w
  /\ softexit_triggered w' = softexit_triggered w
  /\ (exists extra, heap w' = heap w ++ extra)
  /\ forall j idx, idxs !! j = Some idx ->
       cs !! j = Some (length (heap w) + 5 * j + 4)
       /\ bath_request_at me par_str reqid q_atoms n (ff_dopbc (self w))
                          (heap w') idx (length (heap w) + 5 * j + 4).
Proof.
  induction idxs as [|i idxs IH]; intros w cs w' H.
  - cbn in H. injection H as <- <-. split; [done|]. split; [done|].
    split; [exists []; by rewrite app_nil_r|]. intros j idx Hj. by destruct j.
  - cbn [mapM] in H. apply bind_ret in H as (c & w1 & Hc & H).
    apply bind_ret in H as (cs' & w2 & Hcs & H). injection H as <- <-.
    apply new_local_request_ret in Hc
      as (s & ia & h & ih & Hs & Hsd & Hh & -> & Hself & Htr & _ & _).
    destruct (IH _ _ _ Hcs) as (Hself' & Htr' & (extra & Hh') & Hall).
    split; [congruence|]. split; [congruence|].
    split; [exists (bath_objects me par_str reqid i w s ia h ih ++ extra);
            by rewrite Hh', Hh, <- app_assoc|].
    intros [|j] idx Hj.
    + cbn in Hj. injection Hj as <-. rewrite Nat.mul_0_r, Nat.add_0_r.
      split; [done|]. rewrite Hh'. apply bath_request_at_app.
      eexists _, s. rewrite Hh. unfold bath_objects.
      split; [by rewrite lookup_app_r, Nat.add_sub' by lia|].
      do 4 (split; [done|]). split; [|done]. cbn [req_pos].
      by apply list_lookup_middle.
    + cbn in Hj. destruct (Hall j idx Hj) as (Hcj & Hb).
      assert (length (heap w1) + 5 * j + 4 = length (heap w) + 5 * S j + 4)
        as Hadr.
      { rewrite Hh, length_app. unfold bath_objects. cbn [length]. lia. }
      rewrite Hadr in Hcj, Hb. split; [done|]. by rewrite <- Hself.
Qed.

(** The loop over the baths of [queue] makes one request for each bath,
    each at a new address of the store and none in the queue yet; the
    request of the bath [i] waits with the identifier
    [reqid * n_independent_bath + i] and a copy of the block [i] of the
    atomic coordinates. *)
Theorem bath_requests_built (me : FFCavPhFPSocket) (cell : Cell)
    (par_str : string) (reqid : Z) (q_atoms : list float) (n : nat)
    (w : world) (cs : list loc) (w' : world) :
  mapM (new_local_request me cell par_str reqid q_atoms n)
       (seq 0 (n_independent_bath me)) w = Ret cs w' ->
  length cs = n_independent_bath me
  /\ NoDup cs
  /\ requests w' = requests w
  /\ forall i c, cs !! i = Some c ->
       heap w !! c = None
       /\ bath_request_at me par_str reqid q_atoms n (ff_dopbc (self w))
                          (heap w') i c.
Proof.
  intros H. pose proof (mapM_length _ _ _ _ _ H) as Hlen.
  rewrite length_seq in Hlen.
  destruct (bath_loop _ _ _ _ _ _ _ _ _ _ H) as (Hself & _ & _ & Hall).
  assert (forall i c, cs !! i = Some c -> c = length (heap w) + 5 * i + 4
            /\ bath_request_at me par_str reqid q_atoms n (ff_dopbc (self w))
                               (heap w') i c) as Hcs.
  { intros i c Hi. pose proof (lookup_lt_Some _ _ _ Hi) as Hlt.
    destruct (Hall i i) as (Hci & Hb); [apply lookup_seq; lia|].
    rewrite Hi in Hci. injection Hci as ->. done. }
  split; [done|]. split.
  { apply NoDup_alt. intros i j c Hi Hj.
    apply Hcs in Hi as [-> _]. apply Hcs in Hj as [Hj _]. lia. }
  split; [unfold requests; by rewrite Hself|].
  intros i c Hi. destruct (Hcs i c Hi) as (-> & Hb). split; [|done].
  apply lookup_ge_None_2. lia.
Qed.

Lemma bath_requests_built_witness :
  exists cs w',
    mapM (new_local_request (example_fp false) example_cell " " 0
            example_positions 3)
         (seq 0 2) (example_queued true) = Ret cs w'
    /\ length cs = 2
    /\ NoDup cs
    /\ forall i c, cs !! i = Some c ->
         bath_request_at (example_fp false) " " 0 example_positions 3 true
                         (heap w') i c.
Proof.
  destruct (mapM (new_local_request (example_fp false) example_cell " " 0
                    example_positions 3)
                 (seq 0 2) (example_queued true)) as [cs w'|] eqn:Hrun;
    [|vm_compute in Hrun; discriminate Hrun].
  destruct (bath_requests_built (example_fp false) example_cell " " 0
              example_positions 3 (example_queued true) cs w' Hrun)
    as (Hlen & Hnd & _ & Hall).
  exists cs, w'. split; [reflexivity|]. split; [done|]. split; [done|].
  intros i c Hi. by apply Hall.
Defined.



(** The wait of [queue] for one request changes nothing by itself:
    whatever has changed is what the other threads did while it slept.
    It returns only when it finds the request [Done].  It ends in
    [softexit.trigger] when it finds the request not [Done] and either
    [Exit] or the soft exit triggered.  [Blocked] is the wait that has
    slept through all the steps given and still finds the request
    neither [Done] nor [Exit]. *)
Theorem wait_done_outcome (sched : list (world -> world)) (r : loc)
    (w : world) :
  match wait_done sched r w with
  | Ret sched' w' =>
      exists used, sched = used ++ sched' /\ w' = after_steps used w
        /\ status_at w' r Done
  | Raise SystemExit w' =>
      exists used rest st,
        sched = used ++ rest
        /\ w' = set_triggered true (after_steps used w)
        /\ status_at (after_steps used w) r st /\ st <> Done
        /\ (st = Exit \/ softexit_triggered (after_steps used w) = true)
  | Raise Blocked w' =>
      w' = after_steps sched w
      /\ exists st, status_at w' r st /\ st <> Done /\ st <> Exit
           /\ softexit_triggered w' = false
  | Raise TypeError w' =>
      exists used rest,
        sched = used ++ rest /\ w' = after_steps used w
        /\ forall req, heap w' !! r <> Some (ORequest req)
  | Raise _ _ => False
  end.
Proof.
  revert w. induction sched as [|act sched IH]; intros w.
  - cbn [wait_done]. unfold softexit_trigger. msimpl.
    destruct (heap w !! r) as [[| | |req]|] eqn:Hr; cbn;
      try (exists [], []; by rewrite Hr).
    destruct (req_status req) eqn:Hst; cbn.
    + destruct (softexit_triggered w) eqn:Htr; cbn.
      * exists [], [], Queued. repeat split; eauto. by exists req.
      * split; [done|]. exists Queued. repeat split; eauto. by exists req.
    + destruct (softexit_triggered w) eqn:Htr; cbn.
      * exists [], [], Running. repeat split; eauto. by exists req.
      * split; [done|]. exists Running. repeat split; eauto. by exists req.
    + exists []. repeat split; eauto. by exists req.
    + exists [], [], Exit. repeat split; eauto. by exists req.
  - cbn [wait_done]. unfold softexit_trigger. msimpl.
    destruct (heap w !! r) as [[| | |req]|] eqn:Hr; cbn;
      try (exists [], (act :: sched); by rewrite Hr).
    assert (match wait_done sched r (act w) with
            | Ret sched' w' =>
                exists used, act :: sched = used ++ sched'
                  /\ w' = after_steps used w /\ status_at w' r Done
            | Raise SystemExit w' =>
                exists used rest st,
                  act :: sched = used ++ rest
                  /\ w' = set_triggered true (after_steps used w)
                  /\ status_at (after_steps used w) r st /\ st <> Done
                  /\ (st = Exit \/ softexit_triggered (after_steps used w) = true)
            | Raise Blocked w' =>
                w' = after_steps (act :: sched) w
                /\ exists st, status_at w' r st /\ st <> Done /\ st <> Exit
                     /\ softexit_triggered w' = false
            | Raise TypeError w' =>
                exists used rest,
                  act :: sched = used ++ rest /\ w' = after_steps used w
                  /\ forall req, heap w' !! r <> Some (ORequest req)
            | Raise _ _ => False
            end) as Hstep.
    { specialize (IH (act w)).
      destruct (wait_done sched r (act w)) as [sched' w'|e w'].
      - destruct IH as (used & -> & -> & Hd). by exists (act :: used).
      - destruct e; try done.
        + destruct IH as (used & rest & -> & -> & Hn). by exists (act :: used), rest.
        + destruct IH as (used & rest & st & -> & -> & H).
          by exists (act :: used), rest, st. }
    destruct (req_status req) eqn:Hst; cbn.
    + destruct (softexit_triggered w) eqn:Htr; cbn; [|exact Hstep].
      exists [], (act :: sched), Queued. repeat split; eauto. by exists req.
    + destruct (softexit_triggered w) eqn:Htr; cbn; [|exact Hstep].
      exists [], (act :: sched), Running. repeat split; eauto. by exists req.
    + exists []. repeat split; eauto. by exists req.
    + exists [], (act :: sched), Exit. repeat split; eauto. by exists req.
Qed.

(** ** [FFCavPh] *)

Lemma set_error_flag_twice b b' me :
  set_error_flag b (set_error_flag b' me) = set_error_flag b me.
Proof. done. Qed.

Lemma qc_read_all_good dipder files baths : forall tot me,
  (forall i, i ∈ baths -> exists x, files i = FilesGood x) ->
  baths <> [] ->
  qc_read_baths dipder files baths tot me
  = (set_error_flag false me, CalcValue (bath_total files baths tot)).
Proof.
  induction baths as [|i baths IH]; intros tot me Hgood Hne; [done|].
  cbn [qc_read_baths bath_total fold_left].
  destruct (Hgood i) as [x Hx]; [by left|]. rewrite Hx. cbn [good_output].
  destruct baths as [|i' baths].
  - cbn. by destruct dipder.
  - rewrite IH; [done| |done]. intros j Hj. apply Hgood. by right.
Qed.

Lemma qc_read_some_bad dipder files baths : forall tot me,
  (exists i, i ∈ baths /\ forall x, files i <> FilesGood x) ->
  qc_read_baths dipder files baths tot me
  = (set_error_flag true me, CalcValue out_zero).
Proof.
  induction baths as [|i baths IH]; intros tot me (j & Hj & Hbad).
  - by inversion Hj.
  - cbn [qc_read_baths]. destruct (files i) as [|x|x] eqn:Hi; [done..|].
    rewrite IH; [done|]. exists j. split; [|done].
    apply elem_of_cons in Hj as [->|Hj]; [|done]. by destruct (Hbad x).
Qed.

Lemma calc_run_qc_driver_good dipder me :
  cp_name me = RunQcDriver -> cp_n_independent_bath me <> 0 ->
  all_good (cp_driver me (cp_runs me)) (cp_n_independent_bath me) ->
  calc_bare_nuclear_force dipder me
  = (set_error_flag false (set_runs (S (cp_runs me)) me),
     CalcValue (bath_total (cp_driver me (cp_runs me))
                           (seq 0 (cp_n_independent_bath me)) out_zero)).
Proof.
  intros Hn Hk Hgood. unfold calc_bare_nuclear_force. cbn. rewrite Hn.
  destruct (Nat.eqb_spec (cp_n_independent_bath me) 0) as [|_]; [done|].
  apply qc_read_all_good.
  - intros i Hi. apply elem_of_seq in Hi. apply Hgood. lia.
  - destruct (cp_n_independent_bath me); [done|]. discriminate.
Qed.

Lemma calc_run_qc_driver_bad dipder me :
  cp_name me = RunQcDriver -> cp_n_independent_bath me <> 0 ->
  some_bad (cp_driver me (cp_runs me)) (cp_n_independent_bath me) ->
  calc_bare_nuclear_force dipder me
  = (set_error_flag true (set_runs (S (cp_runs me)) me), CalcValue out_zero).
Proof.
  intros Hn Hk (i & Hi & Hbad). unfold calc_bare_nuclear_force. cbn.
  rewrite Hn.
  destruct (Nat.eqb_spec (cp_n_independent_bath me) 0) as [|_]; [done|].
  apply qc_read_some_bad. exists i. split; [|done]. apply elem_of_seq. lia.
Qed.

(** The retries on the ["run_qc_driver"] branch: entered after
    [count] retries with the flag set, when the next [k] runs are bad
    and the one after them is good. *)
Lemma retry_run_qc_driver dipder k : forall fuel count me cur,
  cp_name me = RunQcDriver -> cp_n_independent_bath me <> 0 ->
  cp_error_flag me = true ->
  (0 <= count)%Z -> (count + Z.of_nat k + 1 < 50)%Z -> k < fuel ->
  (forall j, j < k ->
     some_bad (cp_driver me (cp_runs me + j)) (cp_n_independent_bath me)) ->
  all_good (cp_driver me (cp_runs me + k)) (cp_n_independent_bath me) ->
  retry dipder fuel count me cur
  = (set_error_flag false (set_runs (cp_runs me + k + 1) me),
     Got (bath_total (cp_driver me (cp_runs me + k))
                     (seq 0 (cp_n_independent_bath me)) out_zero)).
Proof.
  induction k as [|k IH]; intros fuel count me cur Hn Hk Hf Hc Hlt Hfuel Hbad Hgood.
  - destruct fuel as [|fuel]; [lia|]. cbn [retry]. rewrite Hf.
    rewrite Nat.add_0_r in Hgood.
    rewrite (calc_run_qc_driver_good dipder me Hn Hk Hgood).
    destruct (Z.leb_spec 50 (count + 1)) as [|_]; [lia|].
    destruct fuel; cbn [retry cp_error_flag set_error_flag];
      by rewrite !Nat.add_0_r, Nat.add_1_r.
  - destruct fuel as [|fuel]; [lia|]. cbn [retry]. rewrite Hf.
    rewrite (calc_run_qc_driver_bad dipder me Hn Hk).
    2: { specialize (Hbad 0). rewrite Nat.add_0_r in Hbad. apply Hbad. lia. }
    destruct (Z.leb_spec 50 (count + 1)) as [|_]; [lia|].
    rewrite (IH fuel (count + 1)%Z); cbn [cp_name cp_n_independent_bath
      cp_error_flag cp_runs cp_driver set_error_flag set_runs];
      try done; try lia.
    + replace (S (cp_runs me) + k) with (cp_runs me + S k) by lia.
      replace (cp_runs me + S k + 1) with (S (cp_runs me) + k + 1) by lia.
      done.
    + intros j Hj. replace (S (cp_runs me) + j) with (cp_runs me + S j) by lia.
      apply Hbad. lia.
    + by replace (S (cp_runs me) + k) with (cp_runs me + S k) by lia.
Qed.

Lemma qc_read_baths_value dipder files baths : forall tot me,
  exists me' x,
    qc_read_baths dipder files baths tot me = (me', CalcValue x)
    /\ cp_name me' = cp_name me
    /\ cp_n_independent_bath me' = cp_n_independent_bath me
    /\ cp_driver me' = cp_driver me
    /\ cp_runs me' = cp_runs me.
Proof.
  induction baths as [|i baths IH]; intros tot me; cbn [qc_read_baths].
  - destruct dipder; by eexists _, _.
  - destruct (files i) as [|x|x]; [by eexists _, _..|].
    destruct (IH (out_add tot x) (set_error_flag false me))
      as (me' & y & -> & ? & ? & ? & ?).
    by eexists _, _.
Qed.

Lemma calc_run_qc_driver_value dipder me :
  cp_name me = RunQcDriver -> cp_n_independent_bath me <> 0 ->
  exists me' x,
    calc_bare_nuclear_force dipder me = (me', CalcValue x)
    /\ cp_name me' = RunQcDriver
    /\ cp_n_independent_bath me' = cp_n_independent_bath me
    /\ cp_driver me' = cp_driver me
    /\ cp_runs me' = S (cp_runs me).
Proof.
  intros Hn Hk. unfold calc_bare_nuclear_force. cbn. rewrite Hn.
  destruct (Nat.eqb_spec (cp_n_independent_bath me) 0) as [|_]; [done|].
  destruct (qc_read_baths_value dipder (cp_driver me (cp_runs me))
              (seq 0 (cp_n_independent_bath me)) out_zero
              (set_runs (S (cp_runs me)) me))
    as (me' & x & -> & H1 & H2 & H3 & H4).
  exists me', x. cbn in H1, H2, H3, H4. split; [done|].
  split; [congruence|]. done.
Qed.

(** When the runs before the 50th retry are all bad, the loop ends in
    the call of [softexit.trigger], whatever the 50th retry gives. *)
Lemma retry_run_qc_driver_escalates dipder fuel : forall count me cur,
  cp_name me = RunQcDriver -> cp_n_independent_bath me <> 0 ->
  cp_error_flag me = true ->
  (0 <= count < 50)%Z -> Z.to_nat (50 - count) <= fuel ->
  (forall j, j + 1 < Z.to_nat (50 - count) ->
     some_bad (cp_driver me (cp_runs me + j)) (cp_n_independent_bath me)) ->
  (retry dipder fuel count me cur).2 = Escalated
  /\ cp_runs (retry dipder fuel count me cur).1
     = cp_runs me + Z.to_nat (50 - count).
Proof.
  induction fuel as [|fuel IH]; intros count me cur Hn Hk Hf Hc Hfuel Hbad;
    [lia|].
  cbn [retry]. rewrite Hf.
  destruct (Z.leb_spec 50 (count + 1)) as [Hge|Hlt].
  - destruct (calc_run_qc_driver_value dipder me Hn Hk)
      as (me' & x & -> & _ & _ & _ & Hr).
    cbn. split; [done|]. rewrite Hr. lia.
  - rewrite (calc_run_qc_driver_bad dipder me Hn Hk).
    2: { specialize (Hbad 0). rewrite Nat.add_0_r in Hbad. apply Hbad. lia. }
    destruct (IH (count + 1)%Z (set_error_flag true (set_runs (S (cp_runs me)) me))
                 out_zero) as (He & Hr); try done; try lia.
    { intros j Hj. cbn. rewrite <- Nat.add_succ_r. apply Hbad. lia. }
    split; [done|]. rewrite Hr. cbn. lia.
Qed.

(** The retry loop on the ["run_qc_driver"] branch.  When the runs of
    the external program are bad [k] times and good the next time, the
    evaluation returns the values of that run, with the flag cleared
    and [k + 1] runs made, as long as [k] is below 50.  When the first
    50 runs are bad it ends in the call of [softexit.trigger] after 51
    runs, whether the 51st is good or not. *)
Theorem run_qc_driver_retries (me : FFCavPh) (k : nat) :
  cp_name me = RunQcDriver -> cp_n_independent_bath me <> 0 ->
  (forall j, j < k ->
     some_bad (cp_driver me (cp_runs me + j)) (cp_n_independent_bath me)) ->
  (k < 50 ->
   all_good (cp_driver me (cp_runs me + k)) (cp_n_independent_bath me) ->
   evaluate_forces me
   = (set_error_flag false (set_runs (cp_runs me + k + 1) me),
      Got (bath_total (cp_driver me (cp_runs me + k))
                      (seq 0 (cp_n_independent_bath me)) out_zero)))
  /\ (50 <= k ->
      (evaluate_forces me).2 = Escalated
      /\ cp_runs (evaluate_forces me).1 = cp_runs me + 51).
Proof.
  intros Hn Hk Hbad. unfold evaluate_forces. split.
  - intros Hlt Hgood. destruct k as [|k].
    + rewrite Nat.add_0_r in Hgood.
      rewrite (calc_run_qc_driver_good _ me Hn Hk Hgood).
      cbn [retry cp_error_flag set_error_flag]. by rewrite Nat.add_0_r, Nat.add_1_r.
    + rewrite (calc_run_qc_driver_bad _ me Hn Hk).
      2: { specialize (Hbad 0). rewrite Nat.add_0_r in Hbad. apply Hbad. lia. }
      rewrite (retry_run_qc_driver _ k); cbn [cp_name cp_n_independent_bath
        cp_error_flag cp_runs cp_driver set_error_flag set_runs];
        try done; try lia.
      * replace (S (cp_runs me) + k) with (cp_runs me + S k) by lia.
        by replace (cp_runs me + S k + 1) with (S (cp_runs me) + k + 1) by lia.
      * intros j Hj. replace (S (cp_runs me) + j) with (cp_runs me + S j) by lia.
        apply Hbad. lia.
      * by replace (S (cp_runs me) + k) with (cp_runs me + S k) by lia.
  - intros Hge. rewrite (calc_run_qc_driver_bad _ me Hn Hk).
    2: { specialize (Hbad 0). rewrite Nat.add_0_r in Hbad. apply Hbad. lia. }
    destruct (retry_run_qc_driver_escalates (cp_apply_photon me) 50 0
                (set_error_flag true (set_runs (S (cp_runs me)) me)) out_zero)
      as (He & Hr); try done; try lia.
    { intros j Hj. cbn. rewrite <- Nat.add_succ_r. apply Hbad. lia. }
    split; [done|]. rewrite Hr. cbn. lia.
Qed.

Lemma good_from_bad k run : run < k -> some_bad (good_from k run) 1.
Proof.
  intros H. exists 0. split; [lia|]. intros x. unfold good_from.
  destruct (Nat.ltb_spec run k); [done|lia].
Qed.

Lemma run_qc_driver_retries_witness :
  evaluate_forces (example_cavph RunQcDriver 3)
  = (set_error_flag false (set_runs 4 (example_cavph RunQcDriver 3)),
     Got (out_add out_zero example_output))
  /\ (evaluate_forces (example_cavph RunQcDriver 60)).2 = Escalated
  /\ cp_runs (evaluate_forces (example_cavph RunQcDriver 60)).1 = 51.
Proof.
  destruct (run_qc_driver_retries (example_cavph RunQcDriver 3) 3)
    as [Hgot _]; [reflexivity|discriminate| |].
  { intros j Hj. by apply good_from_bad. }
  destruct (run_qc_driver_retries (example_cavph RunQcDriver 60) 60)
    as [_ Hesc]; [reflexivity|discriminate| |].
  { intros j Hj. by apply good_from_bad. }
  split; [|apply Hesc; lia].
  apply Hgot; [lia|]. intros i Hi. by eexists.
Defined.

(** [poll] marks a request that waits [Running] before it evaluates
    it.  When the evaluation gets its forces the request becomes
    [Done] with them and the time of the end, and the counter of
    evaluations goes up by one.  When the evaluation ends in an
    exception or in [softexit.trigger], the request stays [Running]
    without a result, and no later [poll] takes it up again. *)
Theorem CavPh_poll_one_outcome (me : FFCavPh) (r : loc) (w : world)
    (req : ForceRequest) (q : list float) (h : mat3) :
  heap w !! r = Some (ORequest req) ->
  req_status req = Queued ->
  heap w !! req_pos req = Some (ONdarray q) ->
  heap w !! (req_cell req).1 = Some (OMatrix h) ->
  let running := set_heap (<[r:=ORequest (set_status Running req)]> (heap w)) w in
  match (evaluate_forces me).2 with
  | Got x =>
      CavPh_poll_one me r w
      = Ret (set_iter (cp_iter (evaluate_forces me).1 + 1)
                      (evaluate_forces me).1)
            (set_heap (<[r:=ORequest (evaluated me q x (clock w (ticks w)) req)]>
                         (heap w))
                      (set_ticks (S (ticks w)) w))
  | Escalated =>
      CavPh_poll_one me r w = Raise SystemExit (set_triggered true running)
      /\ forall me2, CavPh_poll_one me2 r (set_triggered true running)
                     = Ret me2 (set_triggered true running)
  | Raised e =>
      CavPh_poll_one me r w = Raise e running
      /\ forall me2, CavPh_poll_one me2 r running = Ret me2 running
  | OutOfFuel => False
  end.
Proof.
  intros Hr Hst Hq Hh running.
  pose proof (lookup_lt_Some _ _ _ Hr) as Hlt.
  assert (req_pos req <> r) as Hne1 by (intros E; rewrite E in Hq; congruence).
  assert ((req_cell req).1 <> r) as Hne2
    by (intros E; rewrite E in Hh; congruence).
  pose proof (evaluate_forces_bounded me) as [Hfuel _].
  unfold CavPh_poll_one, evaluate, softexit_trigger.
  destruct (evaluate_forces me) as [me' rr]. cbn [fst snd] in *.
  fold running.
  msimpl. rewrite Hr. cbn. rewrite Hst. msimpl.
  rewrite list_lookup_insert_eq by done. cbn.
  rewrite list_lookup_insert_ne by done. rewrite Hq. cbn.
  rewrite list_lookup_insert_ne by done. rewrite Hh. cbn.
  destruct rr as [x| |e|]; [| | |done].
  - unfold evaluated.
    destruct (if cp_apply_photon me then cp_photon_terms me q x
              else (out_E x, out_force x)) as [e mf].
    msimpl. rewrite list_lookup_insert_eq by done. cbn.
    rewrite list_lookup_insert_eq by (by rewrite length_insert). cbn.
    rewrite list_lookup_insert_eq by (by rewrite !length_insert). cbn.
    by rewrite !list_insert_insert_eq.
  - split; [done|]. intros me2. done.
  - split; [done|]. intros me2. done.
Qed.

Lemma CavPh_poll_one_outcome_witness :
  exists me' w' req',
    CavPh_poll_one (example_cavph RunQcDriver 1) 7 (example_queued true)
    = Ret me' w'
    /\ heap w' !! 7 = Some (ORequest req')
    /\ req_status req' = Done
    /\ cp_iter me' = 1%Z.
Proof.
  epose proof (CavPh_poll_one_outcome (example_cavph RunQcDriver 1) 7
                 (example_queued true) _ _ _ eq_refl eq_refl eq_refl eq_refl)
    as H.
  cbv zeta in H.
  assert ((evaluate_forces (example_cavph RunQcDriver 1)).2
          = Got (out_add out_zero example_output)) as E by reflexivity.
  rewrite E in H. eexists _, _, _. split; [exact H|].
  split; [reflexivity|]. split; reflexivity.
Defined.

(** An evaluation that returns values has run the program. *)
Lemma calc_value_runs dipder me me' x :
  calc_bare_nuclear_force dipder me = (me', CalcValue x) ->
  cp_runs me' = S (cp_runs me).
Proof.
  unfold calc_bare_nuclear_force. cbn.
  destruct (cp_name me); cbn.
  - destruct (Nat.eqb _ 0); [done|]. by intros [= <- _].
  - destruct (Nat.eqb _ 1); [|done]. by intros [= <- _].
  - destruct (Nat.eqb _ 0); [done|]. intros H.
    pose proof (qc_read_baths_runs dipder (cp_driver me (cp_runs me))
                  (seq 0 (cp_n_independent_bath me)) out_zero
                  (set_runs (S (cp_runs me)) me)) as Hr.
    by rewrite H in Hr.
  - destruct (dipder || _); [done|].
    destruct (cp_driver _ _ _) as [|y [e|]|y]; intros [= <- _]; done.
Qed.

Lemma retry_facts dipder fuel : forall count me cur,
  (0 <= count < 50)%Z -> Z.to_nat (50 - count) <= fuel ->
  cp_runs me <= cp_runs (retry dipder fuel count me cur).1
  /\ (forall x, (retry dipder fuel count me cur).2 = Got x ->
        cp_error_flag (retry dipder fuel count me cur).1 = false)
  /\ ((retry dipder fuel count me cur).2 = Escalated ->
      cp_runs (retry dipder fuel count me cur).1
      = cp_runs me + Z.to_nat (50 - count)).
Proof.
  induction fuel as [|fuel IH]; intros count me cur Hc Hf; [lia|].
  cbn [retry]. destruct (cp_error_flag me) eqn:Hflag.
  2: { cbn. split; [lia|]. split; [done|]. discriminate. }
  pose proof (calc_runs dipder me) as Hruns.
  destruct (calc_bare_nuclear_force dipder me) as [me' [x|e]] eqn:Hcalc;
    cbn in Hruns.
  2: { cbn. split; [lia|]. split; discriminate. }
  apply calc_value_runs in Hcalc.
  destruct (Z.leb_spec 50 (count + 1)) as [Hge|Hlt].
  { cbn. split; [lia|]. split; [discriminate|]. intros _. lia. }
  destruct (IH (count + 1)%Z me' x) as (H1 & H2 & H3); [lia|lia|].
  split; [lia|]. split; [done|]. intros He. rewrite (H3 He). lia.
Qed.

(** Whatever the external program does, one evaluation runs it at
    most 51 times and then ends.  If it has got forces, the program
    has been run at least once and the error flag is clear; if it
    ends in [softexit.trigger], the program has been run 51 times. *)
Theorem evaluation_is_bounded (me : FFCavPh) :
  cp_runs me <= cp_runs (evaluate_forces me).1 <= cp_runs me + 51
  /\ (evaluate_forces me).2 <> OutOfFuel
  /\ (forall x, (evaluate_forces me).2 = Got x ->
        cp_runs me < cp_runs (evaluate_forces me).1
        /\ cp_error_flag (evaluate_forces me).1 = false)
  /\ ((evaluate_forces me).2 = Escalated ->
      cp_runs (evaluate_forces me).1 = cp_runs me + 51).
Proof.
  destruct (evaluate_forces_bounded me) as [Hfuel Hle].
  unfold evaluate_forces in *.
  pose proof (calc_runs (cp_apply_photon me) me) as Hruns.
  destruct (calc_bare_nuclear_force (cp_apply_photon me) me)
    as [me' [x|e]] eqn:Hcalc; cbn in Hruns.
  2: { cbn. split; [lia|]. split; [done|]. split; [|done]. intros x. discriminate. }
  apply calc_value_runs in Hcalc.
  destruct (retry_facts (cp_apply_photon me) 50 0 me' x) as (H1 & H2 & H3);
    [lia|lia|].
  split; [lia|]. split; [done|]. split.
  - intros y Hy. split; [lia|]. by apply (H2 y).
  - intros He. rewrite (H3 He). lia.
Qed.

(** ** [FFDebye] *)

Lemma Debye_poll_one_not_queued me r w req :
  heap w !! r = Some (ORequest req) -> req_status req <> Queued ->
  Debye_poll_one me r w = Ret tt w.
Proof.
  intros E Hst. unfold Debye_poll_one. msimpl. rewrite E. cbn.
  destruct (req_status req); try reflexivity; by destruct Hst.
Qed.

Lemma for_each_Debye_idle me rs : forall w,
  (forall r, r ∈ rs ->
     exists req, heap w !! r = Some (ORequest req) /\ req_status req <> Queued) ->
  for_each (Debye_poll_one me) rs w = Ret tt w.
Proof.
  induction rs as [|x rs IH]; intros w H; [done|].
  cbn. unfold mbind, M_bind.
  destruct (H x) as (req & Hx & Hst); [by left|].
  rewrite (Debye_poll_one_not_queued _ _ _ _ Hx Hst). apply IH.
  intros r Hin. apply H. by right.
Qed.

Lemma Debye_poll_one_fits me r w req q :
  heap w !! r = Some (ORequest req) -> req_status req = Queued ->
  heap w !! req_pos req = Some (ONdarray q) ->
  Debye_fits me (length q) ->
  Debye_poll_one me r w
  = Ret tt (set_heap
              (<[r:=ORequest (Debye_done me q (clock w (ticks w)) req)]> (heap w))
              (set_ticks (S (ticks w)) w)).
Proof.
  intros E Hst Hq [HH Hx]. pose proof (lookup_lt_Some _ _ _ E) as Hlt.
  assert (req_pos req <> r) as Hne by (intros Heq; rewrite Heq in Hq; congruence).
  unfold Debye_poll_one, Debye_evaluate. msimpl. rewrite E. cbn.
  rewrite Hst. msimpl. rewrite list_lookup_insert_eq by done. cbn.
  rewrite list_lookup_insert_ne by done. rewrite Hq. cbn.
  rewrite !bool_decide_eq_true_2 by done. cbn. msimpl.
  rewrite list_lookup_insert_eq by done. cbn.
  rewrite list_lookup_insert_eq by (by rewrite length_insert). cbn.
  rewrite list_lookup_insert_eq by (by rewrite !length_insert). cbn.
  by rewrite !list_insert_insert_eq.
Qed.

Lemma Debye_poll_one_mismatch me r w req q :
  heap w !! r = Some (ORequest req) -> req_status req = Queued ->
  heap w !! req_pos req = Some (ONdarray q) ->
  ~ Debye_fits me (length q) ->
  Debye_poll_one me r w
  = Raise ValueError
          (set_heap (<[r:=ORequest (set_status Running req)]> (heap w)) w).
Proof.
  intros E Hst Hq Hfit. pose proof (lookup_lt_Some _ _ _ E) as Hlt.
  assert (req_pos req <> r) as Hne by (intros Heq; rewrite Heq in Hq; congruence).
  unfold Debye_poll_one, Debye_evaluate. msimpl. rewrite E. cbn.
  rewrite Hst. msimpl. rewrite list_lookup_insert_eq by done. cbn.
  rewrite list_lookup_insert_ne by done. rewrite Hq. cbn.
  destruct (decide (nd_shape (db_H me) = [length q; length q])) as [HH|HH].
  - rewrite (bool_decide_eq_true_2 _ HH). cbn.
    destruct (decide (nd_shape (db_xref me) = [length q])) as [Hx|Hx].
    + by destruct Hfit.
    + by rewrite (bool_decide_eq_false_2 _ Hx).
  - by rewrite (bool_decide_eq_false_2 _ HH).
Qed.

(** A submission to a [FFDebye], which is never threaded and never
    folds the positions.  When the Hessian and the reference have the
    size of the positions, [queue] returns the request [Done], with as
    many forces as coordinates, the time of the end, and a time of
    dispatch that is never set.  When they have not, [queue] raises
    [ValueError], and the request has already been appended to the
    queue, where it stays [Running] without a result. *)
Theorem Debye_queue_outcome (me : FFDebye) (atoms : Atoms) (cell : Cell)
    (reqid : Z) (w : world) (r : loc) (w1 : world) :
  ff_threaded (self w) = false ->
  ff_dopbc (self w) = false ->
  (forall x, x ∈ requests w ->
     exists req, heap w !! x = Some (ORequest req) /\ req_status req <> Queued) ->
  build_request atoms cell reqid w = Ret r w1 ->
  exists q req,
    heap w !! atoms_q atoms = Some (ONdarray q)
    /\ heap w1 !! r = Some (ORequest req)
    /\ ((Debye_fits me (length q) ->
         exists w', Debye_queue me atoms cell reqid w = Ret r w'
           /\ requests w' = requests w ++ [r]
           /\ heap w' !! r
              = Some (ORequest (Debye_done me q (clock w1 (ticks w1)) req))
           /\ (exists res, req_result (Debye_done me q (clock w1 (ticks w1)) req)
                           = Some res
                           /\ length (res_f res) = length q)
           /\ req_t_dispatched (Debye_done me q (clock w1 (ticks w1)) req)
              = 0%float)
        /\ (~ Debye_fits me (length q) ->
            exists w', Debye_queue me atoms cell reqid w = Raise ValueError w'
              /\ requests w' = requests w ++ [r]
              /\ heap w' !! r = Some (ORequest (set_status Running req))
              /\ req_result (set_status Running req) = None)).
Proof.
  intros Hthr Hpbc Hidle Hb.
  pose proof (build_request_built atoms cell reqid w) as Hbuilt.
  rewrite Hb in Hbuilt.
  destruct (built_request _ _ _ _ _ _ Hbuilt)
    as (q & s & req & Hq & Hlen & Hr & Hpos & Hlt & Hrp & Hst & _ & Hev).
  assert (s = q) as ->.
  { destruct Hbuilt as [_ _ _ Hh]. cbn in Hh.
    destruct Hh as (q' & s' & idx & h & ih & Hq' & _ & _ & Hs' & _ & _ & Hheap & _).
    rewrite Hpbc in Hs'. rewrite Hheap in Hpos.
    rewrite list_lookup_middle in Hpos by done. congruence. }
  assert (req_result req = None /\ req_t_dispatched req = 0%float) as [Hres Htd].
  { destruct Hbuilt as [_ _ _ Hh]. cbv beta iota in Hh.
    destruct Hh as (q' & s' & idx & h & ih & _ & _ & _ & _ & _ & _ & Hheap & -> & _).
    rewrite Hheap, lookup_built_request in Hr. by injection Hr as <-. }
  destruct Hbuilt as [Hreqs (_ & _ & _ & Hthr1 & _) _ _]. cbn in Hreqs, Hthr1.
  exists q, req. split; [done|]. split; [done|].
  set (w2 := append_request r w1).
  assert (for_each (Debye_poll_one me) (requests w) w2 = Ret tt w2) as Hfirst.
  { apply for_each_Debye_idle. intros x Hx.
    destruct (Hidle x Hx) as (rq & Hrq & Hs). exists rq. split; [|done].
    destruct (Hev _ _ Hrq) as (o' & Ho' & Hobj). cbn in Hobj.
    destruct Hobj as (r' & -> & <-). done. }
  assert (forall o,
            Debye_poll_one me r w2 = o ->
            Debye_queue me atoms cell reqid w
            = match o with
              | Ret _ w' => Ret r w'
              | Raise e w' => Raise e w'
              end) as Hqueue.
  { intros o Ho. unfold Debye_queue.
    unfold mbind at 1. unfold M_bind at 1. rewrite Hb.
    unfold mbind at 1. unfold M_bind at 1. unfold modify at 1.
    unfold mbind at 1. unfold M_bind at 1. unfold gets at 1.
    cbn [self set_self ff_threaded ff_set_requests].
    change (ff_threaded (ff_set_requests _ (self w1)))
      with (ff_threaded (self w1)).
    rewrite Hthr1, Hthr.
    unfold mbind at 1. unfold M_bind at 1. unfold Debye_poll.
    unfold mbind at 1. unfold M_bind at 1. unfold gets at 1.
    fold (append_request r w1). fold w2.
    change (requests w2) with (requests w1 ++ [r]).
    rewrite Hreqs, for_each_app, Hfirst. cbn [for_each].
    unfold mbind at 1. unfold M_bind at 1. rewrite Ho.
    by destruct o as [[] ?|]. }
  assert (heap w2 !! req_pos req = Some (ONdarray q)) as Hp2
    by (rewrite Hrp; exact Hpos).
  split.
  - intros Hfit.
    pose proof (Hqueue _ (Debye_poll_one_fits me r w2 req q Hr Hst Hp2 Hfit))
      as HQ.
    cbv beta iota in HQ. eexists. split; [exact HQ|].
    cbn. split; [by rewrite Hreqs|].
    split; [rewrite list_lookup_insert_eq by (by apply lookup_lt_Some in Hr);
            done|].
    split; [|done]. eexists. split; [reflexivity|]. cbn.
    unfold np_dot_matvec. by rewrite !length_fmap, length_seq.
  - intros Hfit.
    pose proof (Hqueue _ (Debye_poll_one_mismatch me r w2 req q Hr Hst Hp2 Hfit))
      as HQ.
    cbv beta iota in HQ. eexists. split; [exact HQ|].
    cbn. split; [by rewrite Hreqs|].
    split; [by rewrite list_lookup_insert_eq by (by apply lookup_lt_Some in Hr)|].
    done.
Qed.

Lemma Debye_queue_outcome_witness :
  exists r w' req,
    Debye_queue example_debye example_atoms example_cell 0 example_fp_world
    = Raise ValueError w'
    /\ requests w' = [r]
    /\ heap w' !! r = Some (ORequest req)
    /\ req_status req = Running
    /\ req_result req = None.
Proof.
  destruct (build_request example_atoms example_cell 0 example_fp_world)
    as [r w1|] eqn:Hb; [|vm_compute in Hb; discriminate Hb].
  destruct (Debye_queue_outcome example_debye example_atoms example_cell 0
              example_fp_world r w1 eq_refl eq_refl)
    as (q & req & Hq & _ & _ & Hbad); [by intros x Hx; inversion Hx|exact Hb|].
  injection Hq as <-.
  destruct Hbad as (w' & HQ & Hreqs & Hr & Hres).
  { intros [H _]. discriminate H. }
  exists r, w', (set_status Running req). by repeat split.
Defined.

(** ** The class [dipole] *)

Section DipoleFacts.
Import Dipole.

Lemma reshape3_length_upto n : forall l rows,
  length l <= n -> reshape3 l = Some rows -> length l = 3 * length rows.
Proof.
  induction n as [|n IH]; intros l rows Hn H.
  - destruct l; [|cbn in Hn; lia]. by injection H as <-.
  - destruct l as [|x [|y [|z l]]]; try done.
    + by injection H as <-.
    + cbn in H. destruct (reshape3 l) as [rows'|] eqn:E; [|done].
      injection H as <-. cbn in *. rewrite (IH l rows'); [lia|lia|done].
Qed.

Lemma reshape3_length l rows :
  reshape3 l = Some rows -> length l = 3 * length rows.
Proof. by apply (reshape3_length_upto (length l)). Qed.

Lemma assign_stride3_length k x a : length (assign_stride3 k x a) = length a.
Proof. apply length_imap. Qed.

Lemma water_charges_length zeros : length (water_charges zeros) = length zeros.
Proof. unfold water_charges. by rewrite !assign_stride3_length. Qed.

Lemma assign_stride3_lookup k x a i y :
  a !! i = Some y ->
  assign_stride3 k x a !! i
  = Some (if (k <=? i) && ((i - k) mod 3 =? 0) then x else y).
Proof. intros H. unfold assign_stride3. by rewrite list_lookup_imap, H. Qed.

(** The default charges: the oxygen charge on every third atom from
    the first one, the hydrogen charge on the others. *)
Lemma water_charges_lookup n i :
  i < n ->
  water_charges (replicate n 0%float) !! i
  = Some (if i mod 3 =? 0 then charge_O else charge_H).
Proof.
  intros Hi. unfold water_charges.
  rewrite (assign_stride3_lookup 2 charge_H _ i
             (if (1 <=? i) && ((i - 1) mod 3 =? 0) then charge_H
              else if (0 <=? i) && ((i - 0) mod 3 =? 0) then charge_O
                   else 0%float)).
  2: { rewrite (assign_stride3_lookup 1 charge_H _ i
                  (if (0 <=? i) && ((i - 0) mod 3 =? 0) then charge_O
                   else 0%float)); [done|].
       rewrite (assign_stride3_lookup 0 charge_O _ i 0%float); [done|].
       by apply lookup_replicate_2. }
  f_equal. rewrite Nat.sub_0_r.
  repeat match goal with
         | |- context [Nat.eqb ?a ?b] => destruct (Nat.eqb_spec a b)
         | |- context [Nat.leb ?a ?b] => destruct (Nat.leb_spec a b)
         end; cbn [andb]; try done; divmod3; lia.
Qed.

Lemma np_mul_same a b :
  length a = length b -> np_mul a b = Some (zip_with PrimFloat.mul a b).
Proof. intros H. unfold np_mul. by rewrite H, Nat.eqb_refl. Qed.

(** Without [photon_params.json] the attribute [have_incoming_pulse]
    is never assigned.  The first calculation of a dipole then fails
    with [AttributeError] at the end of [set_charges], which has
    already set the default charges and cleared [have_not_set]; so
    the second calculation, and every later one, succeeds with these
    charges. *)
Theorem first_dipole_without_parameters (np_sum : list float -> float)
    (p : list float) (rows : list vec3) :
  reshape3 p = Some rows ->
  let q := water_charges (replicate (length rows) 0%float) in
  let d0 := (update_pos p (init None)).2 in
  let d1 := (calc_dipoles_x_tot np_sum d0).2 in
  (calc_dipoles_x_tot np_sum d0).1 = inr AttributeError
  /\ have_not_set d1 = false
  /\ charges d1 = Some q
  /\ (forall i, i < length rows ->
        q !! i = Some (if i mod 3 =? 0 then charge_O else charge_H))
  /\ calc_dipoles_x_tot np_sum d1
     = (inl (np_sum (zip_with PrimFloat.mul q (vx <$> rows))), d1).
Proof.
  intros H q d0 d1.
  assert (d0 = set_pos rows (init None)) as Hd0.
  { unfold d0, update_pos. by rewrite H. }
  assert (calc_dipoles_x_tot np_sum d0
          = (inr AttributeError,
             set_have_not_set false (set_charges_attr q (set_pos rows (init None)))))
    as Hfirst.
  { rewrite Hd0. reflexivity. }
  unfold d1. rewrite Hfirst. cbn [fst snd].
  split; [done|]. split; [done|]. split; [done|].
  split; [intros i Hi; by apply water_charges_lookup|].
  unfold calc_dipoles_x_tot, calc_dipoles_tot, bind, set_charges, charges_times,
    bind, get_attr, ret.
  cbn [have_not_set set_have_not_set charges set_charges_attr pos set_pos init].
  rewrite np_mul_same; [done|].
  unfold q. by rewrite water_charges_length, length_replicate, length_fmap.
Qed.

Lemma first_dipole_without_parameters_witness :
  (calc_dipoles_x_tot example_sum
     (update_pos example_positions (init None)).2).1
  = inr AttributeError
  /\ charges (calc_dipoles_x_tot example_sum
                (update_pos example_positions (init None)).2).2
     = Some [charge_O; charge_H]
  /\ (calc_dipoles_x_tot example_sum
        (calc_dipoles_x_tot example_sum
           (update_pos example_positions (init None)).2).2).1
     = inl (0 + charge_O * 1 + charge_H * 4)%float.
Proof.
  destruct (first_dipole_without_parameters example_sum example_positions
              [V3 1 2 3; V3 4 5 6]%float eq_refl)
    as (H1 & _ & H3 & _ & H5).
  split; [exact H1|]. split; [exact H3|]. by rewrite H5.
Defined.

Lemma np_mul_mismatch a b :
  length a <> length b -> length a <> 1 -> length b <> 1 -> np_mul a b = None.
Proof.
  intros Hne Ha Hb. unfold np_mul.
  destruct (Nat.eqb_spec (length a) (length b)) as [|_]; [done|].
  destruct a as [|x [|x' a]]; destruct b as [|y [|y' b]]; cbn in *; done.
Qed.

(** The charges are made once, for the atoms that are there at the
    first calculation, and never again: after [update_pos] with
    another number of atoms they have their old length, and the
    calculations of dipoles fail with [ValueError]. *)
Theorem charges_are_never_resized (np_sum : list float -> float)
    (p1 p2 : list float) (rows1 rows2 : list vec3) :
  reshape3 p1 = Some rows1 -> reshape3 p2 = Some rows2 ->
  let q := water_charges (replicate (length rows1) 0%float) in
  let d1 :=
    (calc_dipoles_x_tot np_sum (update_pos p1 (init (Some None))).2).2 in
  let d2 := (update_pos p2 d1).2 in
  (calc_dipoles_x_tot np_sum (update_pos p1 (init (Some None))).2).1
  = inl (np_sum (zip_with PrimFloat.mul q (vx <$> rows1)))
  /\ charges d1 = Some q
  /\ pos d2 = Some rows2
  /\ charges (calc_dipoles_x_tot np_sum d2).2 = Some q
  /\ (length rows2 <> length rows1 -> length rows1 <> 1 ->
      length rows2 <> 1 ->
      calc_dipoles_x_tot np_sum d2 = (inr ValueError, d2)).
Proof.
  intros H1 H2 q d1 d2.
  assert (calc_dipoles_x_tot np_sum (update_pos p1 (init (Some None))).2
          = (inl (np_sum (zip_with PrimFloat.mul q (vx <$> rows1))),
             set_have_not_set false
               (set_charges_attr q (set_pos rows1 (init (Some None))))))
    as Hfirst.
  { unfold update_pos. rewrite H1.
    unfold calc_dipoles_x_tot, calc_dipoles_tot, bind, set_charges,
      charges_times, bind, get_attr, update, ret.
    cbn [have_not_set set_have_not_set charges set_charges_attr pos set_pos
         init not_have_charge_array have_incoming_pulse snd default].
    unfold id. fold q. rewrite np_mul_same; [done|].
    unfold q. by rewrite water_charges_length, length_replicate, length_fmap. }
  assert (d2 = set_pos rows2 (set_have_not_set false
               (set_charges_attr q (set_pos rows1 (init (Some None)))))) as Hd2.
  { unfold d2, d1. rewrite Hfirst. unfold update_pos. by rewrite H2. }
  unfold d1. rewrite Hfirst. cbn [fst snd]. split; [done|]. split; [done|].
  rewrite Hd2. split; [done|].
  unfold calc_dipoles_x_tot, calc_dipoles_tot, bind, set_charges,
    charges_times, bind, get_attr, update, ret.
  cbn [have_not_set set_have_not_set charges set_charges_attr pos set_pos
       init not_have_charge_array have_incoming_pulse snd default].
  split.
  - by destruct (np_mul q (vx <$> rows2)).
  - intros Hne Hn1 Hn2. rewrite np_mul_mismatch; [done| | |].
    + unfold q. by rewrite water_charges_length, length_replicate, length_fmap.
    + unfold q. by rewrite water_charges_length, length_replicate.
    + by rewrite length_fmap.
Qed.

Lemma charges_are_never_resized_witness :
  calc_dipoles_x_tot example_sum
    (update_pos (example_positions ++ example_positions ++ example_positions)
       (calc_dipoles_x_tot example_sum
          (update_pos example_positions (init (Some None))).2).2).2
  = (inr ValueError,
     (update_pos (example_positions ++ example_positions ++ example_positions)
        (calc_dipoles_x_tot example_sum
           (update_pos example_positions (init (Some None))).2).2).2).
Proof.
  destruct (charges_are_never_resized example_sum example_positions
              (example_positions ++ example_positions ++ example_positions)
              [V3 1 2 3; V3 4 5 6]%float
              [V3 1 2 3; V3 4 5 6; V3 1 2 3; V3 4 5 6; V3 1 2 3; V3 4 5 6]%float
              eq_refl eq_refl) as (_ & _ & _ & _ & H).
  apply H; cbn; lia.
Defined.

(** The dipole of a molecule whose atoms are all beyond the end of the
    arrays is the sum of an empty array: no exception is raised. *)
Theorem dipole_of_missing_molecule (np_sum : list float -> float)
    (col : vec3 -> float) (index : Z) (d : dipole) (c : list float)
    (p : list vec3) :
  have_not_set d = false -> charges d = Some c -> pos d = Some p ->
  (Z.of_nat (length c) <= index * 3)%Z ->
  (Z.of_nat (length p) <= index * 3)%Z ->
  calc_dipoles_which np_sum col index d = (inl (np_sum []), d).
Proof.
  intros Hset Hc Hp Hlc Hlp.
  assert (forall A (a : list A),
            (Z.of_nat (length a) <= index * 3)%Z ->
            py_slice (index * 3) (index * 3 + 3) a = []) as Hslice.
  { intros A a Ha. unfold py_slice. cbv zeta.
    destruct (Z.ltb_spec (index * 3) 0); [lia|].
    destruct (Z.ltb_spec (index * 3 + 3) 0); [lia|].
    replace (Z.max 0 (Z.min (Z.of_nat (length a)) (index * 3)))
      with (Z.of_nat (length a)) by lia.
    replace (Z.max 0 (Z.min (Z.of_nat (length a)) (index * 3 + 3)))
      with (Z.of_nat (length a)) by lia.
    by rewrite Nat2Z.id, Nat.sub_diag, take_0. }
  unfold calc_dipoles_which, bind, set_charges, get_attr, ret.
  rewrite Hset, Hc, Hp. cbv zeta. by rewrite !Hslice.
Qed.

Lemma dipole_of_missing_molecule_witness :
  calc_dipoles_which example_sum vx 5
    (calc_dipoles_x_tot example_sum
       (update_pos example_positions (init (Some None))).2).2
  = (inl (example_sum []),
     (calc_dipoles_x_tot example_sum
        (update_pos example_positions (init (Some None))).2).2).
Proof.
  apply (dipole_of_missing_molecule example_sum vx 5 _ [charge_O; charge_H]
           [V3 1 2 3; V3 4 5 6]%float); try reflexivity; cbn; lia.
Defined.

End DipoleFacts.
